(** * d20 evaluation core: a shallow embedding of [d20/models.py]

    The node hierarchy ([Number] and its subclasses), the rolling
    primitives of [Die] and [Dice], and the operator / selector subsystem
    ([SetOperator], [SetSelector]) are transcribed from the Python source
    and the properties of the specification are proved about them.

    Modelling conventions.
    - Python exceptions are values of [exn]; a method that may raise
      returns a [result].  A raised exception aborts the whole call, so
      no state is returned with it.
    - A Python [int] is a [Z].  A Python [float] is held as the rational
      it denotes.  The division operators ([/], [//], [%]) follow
      binary64: an [int] operand is converted to a double first
      ([OverflowError] when it is too large), every step is rounded to
      the nearest double, ties to even ([Py.round64]), and where the
      code returns an infinity the model has the outcome [NotFinite].
      [+], [-] and [*] are exact on floats: their rounding is outside
      the model, and so are NaN and the sign of a zero.
    - The expression tree is single-owner (no sharing, no cycles), so an
      object is identified by its position: the members of [n.set] are
      identified by their index in that list, and an in-place mutation of
      a member is written back at that index ([put_member]).
    - [random.randrange] reads an entropy tape carried in the [world],
      next to the roll-count context of the evaluation.
    - [while] loops take fuel; running out of it is the model-only
      outcome [OutOfFuel]. *)

From Stdlib Require Import ZArith QArith Qround List String Ascii Bool Lia Arith
  DecimalString Sorting.Sorted Sorting.Permutation.
Import ListNotations.

Set Warnings "-register-all".

Local Open Scope string_scope.
Local Open Scope list_scope.
Local Open Scope Z_scope.

(** ** Exceptions and results *)

Inductive exn : Type :=
| RollValueError (msg : string)   (* errors.RollValueError *)
| TooManyRolls                    (* raised by the roll-count context *)
| ZeroDivisionError
| OverflowError
| IndexError
| KeyError
| AttributeError
| OutOfFuel                       (* model only: a loop that was cut short *)
| NotFinite.                      (* model only: stands for the infinity that
                                     a float operation returns *)

Inductive result (A : Type) : Type :=
| Ok (a : A)
| Err (e : exn).
Arguments Ok {A} a.
Arguments Err {A} e.

Definition rbind {A B} (r : result A) (k : A -> result B) : result B :=
  match r with
  | Ok a => k a
  | Err e => Err e
  end.

Declare Scope result_scope.
Delimit Scope result_scope with result.
Notation "'let?' x ':=' r 'in' k" := (rbind r (fun x => k))
  (at level 10, x pattern, r at level 100, k at level 200) : result_scope.
Local Open Scope result_scope.

(** ** Python numbers *)

Inductive pynum : Type :=
| PInt (z : Z)
| PFloat (q : Q).

Module Py.

Definition toQ (x : pynum) : Q :=
  match x with
  | PInt z => inject_Z z
  | PFloat q => q
  end.

Definition float (q : Q) : pynum := PFloat (Qred q).

Definition of_bool (b : bool) : pynum := PInt (if b then 1 else 0).

Definition eqb (x y : pynum) : bool := Qeq_bool (toQ x) (toQ y).
Definition leb (x y : pynum) : bool := Qle_bool (toQ x) (toQ y).
Definition ltb (x y : pynum) : bool := negb (Qle_bool (toQ y) (toQ x)).


Definition add (x y : pynum) : pynum :=
  match x, y with
  | PInt a, PInt b => PInt (a + b)
  | _, _ => float (toQ x + toQ y)
  end.

Definition sub (x y : pynum) : pynum :=
  match x, y with
  | PInt a, PInt b => PInt (a - b)
  | _, _ => float (toQ x - toQ y)
  end.

Definition mul (x y : pynum) : pynum :=
  match x, y with
  | PInt a, PInt b => PInt (a * b)
  | _, _ => float (toQ x * toQ y)
  end.

Definition neg (x : pynum) : pynum :=
  match x with
  | PInt a => PInt (- a)
  | PFloat q => PFloat (- q)
  end.

(** [2^e], for any integer [e]. *)
Definition pow2 (e : Z) : Q :=
  if 0 <=? e then inject_Z (2 ^ e) else 1 # Z.to_pos (2 ^ (- e)).

(** The [e] with [2^e <= a/d < 2^(e+1)], for positive [a] and [d]. *)
Definition binade (a d : Z) : Z :=
  let e0 := Z.log2 a - Z.log2 d in
  if a * 2 ^ Z.max 0 (- e0) <? d * 2 ^ Z.max 0 e0 then e0 - 1 else e0.

(** The integer nearest to [num/den], ties to even. *)
Definition nearest_even (num den : Z) : Z :=
  let m := num / den in
  let r := num mod den in
  if (den <? 2 * r) || ((2 * r =? den) && Z.odd m) then m + 1 else m.

(** The double nearest to [q], ties to even: 53 significant bits, the last
    of them worth [2^qe] with [qe >= -1074].  [None] when the nearest
    double would be [2^1024] or more. *)
Definition round64 (q : Q) : option Q :=
  let n := Qnum q in
  let d := Zpos (Qden q) in
  if n =? 0 then Some 0%Q
  else
    let qe := Z.max (binade (Z.abs n) d - 52) (-1074) in
    let m := nearest_even (Z.abs n * 2 ^ Z.max 0 (- qe))
                          (d * 2 ^ Z.max 0 qe) in
    if (971 <? qe) || ((qe =? 971) && (m =? 2 ^ 53)) then None
    else Some (Qred (inject_Z (Z.sgn n * m) * pow2 qe)).

(** An operand as a C [double]: a float as it is, an [int] converted, which
    raises [OverflowError] ("int too large to convert to float"). *)
Definition as_double (x : pynum) : result Q :=
  match x with
  | PInt z => match round64 (inject_Z z) with
              | Some q => Ok q
              | None => Err OverflowError
              end
  | PFloat q => Ok q
  end.

(** The result of one floating-point operation of C. *)
Definition double (q : Q) : result Q :=
  match round64 q with
  | Some r => Ok r
  | None => Err NotFinite
  end.

(** C's [fmod(x, y)] for [y <> 0]: exact, with the sign of [x]. *)
Definition fmod (x y : Q) : Q :=
  Qred (x - inject_Z (Z.quot (Qnum (x / y)) (Zpos (Qden (x / y)))) * y).

(** The remainder does not have the sign of the divisor. *)
Definition wrong_sign (m wx : Q) : bool :=
  negb (Qeq_bool m 0) && negb (Bool.eqb (Qnum wx <? 0) (Qnum m <? 0)).

(** [float // float], the quotient of [float.__divmod__]. *)
Definition float_floordiv (vx wx : Q) : result Q :=
  let m := fmod vx wx in
  let? d := double (vx - m) in
  let? div := double (d / wx) in
  let? div := if wrong_sign m wx then double (div - 1) else Ok div in
  if Qeq_bool div 0 then Ok 0%Q
  else
    let floordiv := inject_Z (Qfloor div) in
    let? frac := double (div - floordiv) in
    if Qle_bool frac (1 # 2) then Ok floordiv
    else double (floordiv + 1).

(** [float % float] *)
Definition float_rem (vx wx : Q) : result Q :=
  let m := fmod vx wx in
  if wrong_sign m wx then double (m + wx) else Ok m.

(** The division operators when an operand is a float: both operands are
    converted, then the divisor is tested. *)
Definition float_op (op : Q -> Q -> result Q) (l r : pynum)
  : result pynum :=
  let? vx := as_double l in
  let? wx := as_double r in
  if Qeq_bool wx 0 then Err ZeroDivisionError
  else let? q := op vx wx in Ok (PFloat q).

(** [l / r]: true division, always a float.  Between two [int]s the exact
    quotient is rounded once, and a quotient beyond the doubles raises
    [OverflowError]. *)
Definition truediv (l r : pynum) : result pynum :=
  match l, r with
  | PInt a, PInt b =>
      if b =? 0 then Err ZeroDivisionError
      else match round64 (inject_Z a / inject_Z b) with
           | Some q => Ok (PFloat q)
           | None => Err OverflowError
           end
  | _, _ => float_op (fun vx wx => double (vx / wx)) l r
  end.

(** [l // r]: floor division. *)
Definition floordiv (l r : pynum) : result pynum :=
  match l, r with
  | PInt a, PInt b =>
      if b =? 0 then Err ZeroDivisionError else Ok (PInt (a / b))
  | _, _ => float_op float_floordiv l r
  end.

(** [l % r]: the remainder takes the sign of the divisor. *)
Definition mod_ (l r : pynum) : result pynum :=
  match l, r with
  | PInt a, PInt b =>
      if b =? 0 then Err ZeroDivisionError else Ok (PInt (a mod b))
  | _, _ => float_op float_rem l r
  end.

(** [str(n)] of an [int]. *)
Definition str_int (z : Z) : string := NilEmpty.string_of_int (Z.to_int z).

End Py.

(** ** The roll-count context and the source of randomness *)

(** Modelled from the spec: the roll-count context is an external
    collaborator with one operation, "count one roll", which fails once a
    configured budget is exceeded. *)
Record RollContext : Type := mkRollContext {
  rolls : nat;
  max_rolls : nat
}.

Definition count_roll (c : RollContext) : result RollContext :=
  let c' := mkRollContext (S (rolls c)) (max_rolls c) in
  if (max_rolls c <? rolls c')%nat then Err TooManyRolls else Ok c'.

(** A node's [_context] attribute: [None], or a reference to the context
    of the evaluation, which lives in the [world]. *)
Inductive context_ref : Type := the_context.

Record world : Type := mkWorld {
  tape : nat -> Z;          (* entropy read by [random] *)
  cursor : nat;             (* how much of it was read *)
  context : RollContext
}.

(** Methods that roll dice run in a state-and-exception monad. *)
Definition M (A : Type) : Type := world -> result (A * world).

Definition ret {A} (a : A) : M A := fun w => Ok (a, w).
Definition raise {A} (e : exn) : M A := fun _ => Err e.
Definition bind {A B} (m : M A) (k : A -> M B) : M B :=
  fun w => match m w with
           | Ok (a, w') => k a w'
           | Err e => Err e
           end.
Definition lift {A} (r : result A) : M A :=
  fun w => match r with
           | Ok a => Ok (a, w)
           | Err e => Err e
           end.

Declare Scope m_scope.
Delimit Scope m_scope with M.
Notation "'do' x '<-' m ';' k" := (bind m (fun x => k))
  (at level 10, x pattern, m at level 100, k at level 200) : m_scope.

(** [random.randrange(n)] for [n >= 1]: a value of [[0, n)]. *)
Definition randrange (n : Z) : M Z :=
  fun w => Ok (tape w (cursor w) mod n,
               mkWorld (tape w) (S (cursor w)) (context w)).

(** [self._context.count_roll()] *)
Definition notify : M unit :=
  fun w => match count_roll (context w) with
           | Ok c => Ok (tt, mkWorld (tape w) (cursor w) c)
           | Err e => Err e
           end.

(** ** Operators and selectors as data *)

Record SetSelector : Type := mkSetSelector {
  cat : option string;
  num : Z
}.

Record SetOperator : Type := mkSetOperator {
  op : string;
  sels : list SetSelector
}.

(** ** Lists as Python uses them *)

(** [l[-1]] *)
Fixpoint last_opt {A} (l : list A) : option A :=
  match l with
  | [] => None
  | [x] => Some x
  | _ :: l' => last_opt l'
  end.

(** [l[i] = x]; the model only writes at positions that exist. *)
Fixpoint set_nth {A} (i : nat) (x : A) (l : list A) : list A :=
  match l, i with
  | [], _ => []
  | _ :: l', O => x :: l'
  | y :: l', S i' => y :: set_nth i' x l'
  end.

(** [l[-1] = x] *)
Definition set_last {A} (x : A) (l : list A) : list A :=
  set_nth (Nat.pred (List.length l)) x l.

(** [l[:n]], where a negative [n] counts from the end. *)
Definition slice_to {A} (n : Z) (l : list A) : list A :=
  if n <? 0 then firstn (Z.to_nat (Z.of_nat (List.length l) + n)) l
  else firstn (Z.to_nat n) l.

(** ** Literal *)

Module Literal.

Record t : Type := mk {
  kept : bool;
  values : list pynum;   (* history; the last entry is the current value *)
  exploded : bool
}.

(** [Literal(value)] *)
Definition new (value : pynum) : t := mk true [value] false.

(** [self.values[-1]] *)
Definition number (l : t) : result pynum :=
  match last_opt (values l) with
  | Some v => Ok v
  | None => Err IndexError
  end.

(** [Number.total]: [self.number if self.kept else 0] *)
Definition total (l : t) : result pynum :=
  if kept l then number l else Ok (PInt 0).

Definition drop (l : t) : t := mk false (values l) (exploded l).

Definition explode (l : t) : t := mk (kept l) (values l) true.

Definition update (value : pynum) (l : t) : t :=
  mk (kept l) (values l ++ [value]) (exploded l).

End Literal.

(** ** Die *)

Module Die.

Record t : Type := mk {
  kept : bool;
  size : Z;
  values : list Literal.t;          (* roll history *)
  _context : option context_ref
}.

(** [self.values[-1].total] *)
Definition number (d : t) : result pynum :=
  match last_opt (values d) with
  | Some l => Literal.total l
  | None => Err IndexError
  end.

Definition total (d : t) : result pynum :=
  if kept d then number d else Ok (PInt 0).

Definition drop (d : t) : t := mk false (size d) (values d) (_context d).

Definition _add_roll (d : t) : M t :=
  if size d <? 1 then raise (RollValueError "Cannot roll a 0-sided die.")
  else
    (do _ <- (match _context d with
              | Some _ => notify
              | None => ret tt
              end);
     do r <- randrange (size d);
     let n := Literal.new (PInt (r + 1)) in
     ret (mk (kept d) (size d) (values d ++ [n]) (_context d)))%M.

(** [Die.new(size, context)] *)
Definition new (size : Z) (context : option context_ref) : M t :=
  _add_roll (mk true size [] context).

(** [if self.values: self.values[-1].drop()] *)
Definition drop_current (d : t) : t :=
  match last_opt (values d) with
  | Some l => mk (kept d) (size d) (set_last (Literal.drop l) (values d))
                 (_context d)
  | None => d
  end.

Definition reroll (d : t) : M t := _add_roll (drop_current d).

Definition explode (d : t) : t :=
  match last_opt (values d) with
  | Some l => mk (kept d) (size d) (set_last (Literal.explode l) (values d))
                 (_context d)
  | None => d
  end.

Definition force_value (new_value : pynum) (d : t) : t :=
  match last_opt (values d) with
  | Some l => mk (kept d) (size d)
                 (set_last (Literal.update new_value l) (values d))
                 (_context d)
  | None => d
  end.

End Die.

(** ** The node hierarchy *)

(** Every node carries the [kept] flag of [Number]; the [annotation] tag is
    never read by the core and is left out.  [Die.values] holds literals
    and is typed so; the members of a [Set_] or [Dice] are arbitrary nodes
    and their methods are dispatched on the constructor. *)
Inductive Number : Type :=
| Expression (kept : bool) (roll : Number) (comment : string)
| Literal (l : Literal.t)
| UnOp (kept : bool) (op : string) (value : Number)
| BinOp (kept : bool) (left : Number) (op : string) (right : Number)
| Parenthetical (kept : bool) (value : Number) (operations : list SetOperator)
| Set_ (kept : bool) (values : list Number) (operations : list SetOperator)
| Dice (kept : bool) (num size : Z) (values : list Number)
       (operations : list SetOperator) (_context : option context_ref)
| Die (d : Die.t).

Definition kept (n : Number) : bool :=
  match n with
  | Expression k _ _ | UnOp k _ _ | BinOp k _ _ _
  | Parenthetical k _ _ | Set_ k _ _ | Dice k _ _ _ _ _ => k
  | Literal l => Literal.kept l
  | Die d => Die.kept d
  end.

(** [Number.drop]: [self.kept = False]. *)
Definition drop (n : Number) : Number :=
  match n with
  | Expression _ r c => Expression false r c
  | Literal l => Literal (Literal.drop l)
  | UnOp _ o v => UnOp false o v
  | BinOp _ l o r => BinOp false l o r
  | Parenthetical _ v ops => Parenthetical false v ops
  | Set_ _ vs ops => Set_ false vs ops
  | Dice _ n s vs ops c => Dice false n s vs ops c
  | Die d => Die (Die.drop d)
  end.

(** [UnOp.UNARY_OPS] *)
Definition UNARY_OPS (o : string) : option (pynum -> pynum) :=
  if String.eqb o "-" then Some Py.neg
  else if String.eqb o "+" then Some (fun v => v)
  else None.

(** [BinOp.BINARY_OPS] *)
Definition BINARY_OPS (o : string) : option (pynum -> pynum -> result pynum) :=
  if String.eqb o "+" then Some (fun l r => Ok (Py.add l r))
  else if String.eqb o "-" then Some (fun l r => Ok (Py.sub l r))
  else if String.eqb o "*" then Some (fun l r => Ok (Py.mul l r))
  else if String.eqb o "/" then Some Py.truediv
  else if String.eqb o "//" then Some Py.floordiv
  else if String.eqb o "%" then Some Py.mod_
  else if String.eqb o "<" then Some (fun l r => Ok (Py.of_bool (Py.ltb l r)))
  else if String.eqb o ">" then Some (fun l r => Ok (Py.of_bool (Py.ltb r l)))
  else if String.eqb o "==" then Some (fun l r => Ok (Py.of_bool (Py.eqb l r)))
  else if String.eqb o ">=" then Some (fun l r => Ok (Py.of_bool (Py.leb r l)))
  else if String.eqb o "<=" then Some (fun l r => Ok (Py.of_bool (Py.leb l r)))
  else if String.eqb o "!=" then
    Some (fun l r => Ok (Py.of_bool (negb (Py.eqb l r))))
  else None.

(** [self.UNARY_OPS[self.op](self.value.total)]: the table is indexed
    before the operand is read. *)
Definition unop_number (o : string) (value_total : result pynum)
  : result pynum :=
  match UNARY_OPS o with
  | None => Err KeyError
  | Some f => let? v := value_total in Ok (f v)
  end.

(** The body of [BinOp.number], with its [try ... except ZeroDivisionError]. *)
Definition binop_number (o : string) (left_total right_total : result pynum)
  : result pynum :=
  let attempt :=
    match BINARY_OPS o with
    | None => Err KeyError
    | Some f =>
        let? l := left_total in
        let? r := right_total in
        f l r
    end in
  match attempt with
  | Err ZeroDivisionError => Err (RollValueError "Cannot divide by zero.")
  | other => other
  end.

(** [Number.total] for the classes that do not override it. *)
Definition total_of (k : bool) (number : result pynum) : result pynum :=
  if k then number else Ok (PInt 0).

(** [Number.number]: [sum(n.number for n in self.keptset)], given how to
    read a member's [number]. *)
Fixpoint sum_kept (number : Number -> result pynum) (acc : pynum)
    (l : list Number) : result pynum :=
  match l with
  | [] => Ok acc
  | x :: l' =>
      if kept x
      then let? v := number x in sum_kept number (Py.add acc v) l'
      else sum_kept number acc l'
  end.

(** [number] and [total] call each other through the tree; both are read
    off one structural recursion that returns the pair
    [(n.number, n.total)]. *)
Fixpoint readings (n : Number) : result pynum * result pynum :=
  match n with
  | Expression k r _ =>
      let number := fst (readings r) in
      (number, total_of k number)
  | Literal l => (Literal.number l, Literal.total l)
  | UnOp k o v =>
      let number := unop_number o (snd (readings v)) in
      (number, total_of k number)
  | BinOp k l o r =>
      let number := binop_number o (snd (readings l)) (snd (readings r)) in
      (number, total_of k number)
  | Parenthetical k v _ =>
      (* Parenthetical overrides total: self.value.total if self.kept else 0 *)
      (fst (readings v), if k then snd (readings v) else Ok (PInt 0))
  | Set_ k vs _ | Dice k _ _ vs _ _ =>
      let number := sum_kept (fun x => fst (readings x)) (PInt 0) vs in
      (number, total_of k number)
  | Die d => (Die.number d, Die.total d)
  end.

Definition number (n : Number) : result pynum := fst (readings n).
Definition total (n : Number) : result pynum := snd (readings n).

(** [n.set]: the direct members of a node, as a flat list. *)
Fixpoint set (n : Number) : result (list Number) :=
  match n with
  | Expression _ r _ => set r
  | Literal _ | UnOp _ _ _ | BinOp _ _ _ _ => Ok [n]
  | Parenthetical _ v _ => set v
  | Set_ _ vs _ | Dice _ _ _ vs _ _ => Ok vs
  | Die d =>
      match last_opt (Die.values d) with
      | Some l => Ok [Literal l]
      | None => Err IndexError
      end
  end.

(** A member of [n.set] together with its identity, the index in [n.set]. *)
Definition member : Type := (nat * Number)%type.

Definition enumerate {A} (l : list A) : list (nat * A) :=
  combine (seq 0 (List.length l)) l.

(** [n.keptset]: [[m for m in self.set if m.kept]]. *)
Definition keptset (n : Number) : result (list member) :=
  let? s := set n in
  Ok (filter (fun m => kept (snd m)) (enumerate s)).

(** [n.children] *)
Fixpoint children (n : Number) : list Number :=
  match n with
  | Expression _ r _ => [r]
  | Literal _ => []
  | UnOp _ _ v => [v]
  | BinOp _ l _ r => [l; r]
  | Parenthetical _ v _ => children v
  | Set_ _ vs _ => vs
  | Dice _ _ _ _ _ _ => []
  | Die _ => []
  end.

(** The member of [n.set] with identity [i], in its current state. *)
Definition member_at (i : nat) (n : Number) : option Number :=
  match set n with
  | Ok s => nth_error s i
  | Err _ => None
  end.

(** Writing a mutated member back: the place [set] read member [i] from
    now holds [x]. *)
Fixpoint put_member (i : nat) (x : Number) (n : Number) : Number :=
  match n with
  | Expression k r c => Expression k (put_member i x r) c
  | Literal _ | UnOp _ _ _ | BinOp _ _ _ _ =>
      match i with O => x | S _ => n end
  | Parenthetical k v ops => Parenthetical k (put_member i x v) ops
  | Set_ k vs ops => Set_ k (set_nth i x vs) ops
  | Dice k nm sz vs ops c => Dice k nm sz (set_nth i x vs) ops c
  | Die d =>
      match i, x with
      | O, Literal l =>
          Die (Die.mk (Die.kept d) (Die.size d) (set_last l (Die.values d))
                      (Die._context d))
      | _, _ => n
      end
  end.

(** Calling a method [f] on member [i] of [n], in place. *)
Definition update_member (f : Number -> Number) (i : nat) (n : Number)
  : Number :=
  match member_at i n with
  | Some x => put_member i (f x) n
  | None => n
  end.

Definition try_update_member (f : Number -> result Number) (i : nat)
    (n : Number) : result Number :=
  match member_at i n with
  | Some x => let? x' := f x in Ok (put_member i x' n)
  | None => Ok n
  end.

Definition run_update_member (f : Number -> M Number) (i : nat) (n : Number)
  : M Number :=
  match member_at i n with
  | Some x => (do x' <- f x; ret (put_member i x' n))%M
  | None => ret n
  end.

(** Methods looked up on a member at run time: an object that lacks the
    method raises [AttributeError]. *)
Definition call_reroll (n : Number) : M Number :=
  match n with
  | Die d => (do d' <- Die.reroll d; ret (Die d'))%M
  | _ => raise AttributeError
  end.

Definition call_explode (n : Number) : result Number :=
  match n with
  | Die d => Ok (Die (Die.explode d))
  | Literal l => Ok (Literal (Literal.explode l))
  | _ => Err AttributeError
  end.

Definition call_force_value (new_value : pynum) (n : Number)
  : result Number :=
  match n with
  | Die d => Ok (Die (Die.force_value new_value d))
  | _ => Err AttributeError
  end.

(** ** Dice *)

Module Dice.

(** [[Die.new(size, context=context) for _ in range(num)]] *)
Fixpoint roll_dice (count : nat) (size : Z) (context : option context_ref)
  : M (list Number) :=
  match count with
  | O => ret []
  | S count' =>
      (do d <- Die.new size context;
       do ds <- roll_dice count' size context;
       ret (Die d :: ds))%M
  end.

(** [Dice.new(num, size, context)] *)
Definition new (num size : Z) (context : option context_ref) : M Number :=
  (do vs <- roll_dice (Z.to_nat num) size context;
   ret (Dice true num size vs [] context))%M.

(** [roll_another] exists on [Dice] only. *)
Definition roll_another (n : Number) : M Number :=
  match n with
  | Dice k nm sz vs ops c =>
      (do d <- Die.new sz c; ret (Dice k nm sz (vs ++ [Die d]) ops c))%M
  | _ => raise AttributeError
  end.

End Dice.

(** ** Python sets of members *)

(** A [set] of members is a duplicate-free list of identities.  Python
    loops over a set of objects in an order fixed by their hashes, which
    for these objects are their addresses; the model loops in order of
    insertion, which is one of the orders a run may take.  What is proved
    of a loop over a set is stated of the members, not of their order; an
    example shows the outcome of one order. *)
Definition pset : Type := list nat.

Definition mem (i : nat) (s : pset) : bool := existsb (Nat.eqb i) s.

Definition pset_add (s : pset) (i : nat) : pset :=
  if mem i s then s else s ++ [i].

(** [s.update(xs)] *)
Definition pset_update (s : pset) (xs : list nat) : pset :=
  fold_left pset_add xs s.

(** [set(xs)] *)
Definition pset_of (xs : list nat) : pset := pset_update [] xs.

(** [s.difference(other)] *)
Definition pset_difference (s other : pset) : pset :=
  filter (fun i => negb (mem i other)) s.

(** ** SetSelector *)

Module SetSelector.

(** The keys [n.total] of [sorted(..., key=...)], read once per member. *)
Fixpoint keyed (ks : list member) : result (list (nat * pynum)) :=
  match ks with
  | [] => Ok []
  | (i, n) :: ks' =>
      let? k := total n in
      let? r := keyed ks' in
      Ok ((i, k) :: r)
  end.

(** A stable sort: [x], which came before the members of [l], goes in
    front of the first member it does not have to follow. *)
Fixpoint insert_by (follows : pynum -> pynum -> bool) (x : nat * pynum)
    (l : list (nat * pynum)) : list (nat * pynum) :=
  match l with
  | [] => [x]
  | y :: l' =>
      if follows (snd x) (snd y) then y :: insert_by follows x l'
      else x :: l
  end.

Definition sorted (reverse : bool) (l : list (nat * pynum))
  : list (nat * pynum) :=
  let follows kx ky := if reverse then Py.ltb kx ky else Py.ltb ky kx in
  fold_right (insert_by follows) [] l.

(** [[n for n in target.keptset if p(n.total)]] *)
Fixpoint where_total (p : pynum -> bool) (ks : list member)
  : result (list nat) :=
  match ks with
  | [] => Ok []
  | (i, n) :: ks' =>
      let? t := total n in
      let? r := where_total p ks' in
      Ok (if p t then i :: r else r)
  end.

Definition lowestn (self : SetSelector) (target : Number)
  : result (list nat) :=
  let? ks := keptset target in
  let? keys := keyed ks in
  Ok (map fst (slice_to (num self) (sorted false keys))).

Definition highestn (self : SetSelector) (target : Number)
  : result (list nat) :=
  let? ks := keptset target in
  let? keys := keyed ks in
  Ok (map fst (slice_to (num self) (sorted true keys))).

Definition lessthan (self : SetSelector) (target : Number)
  : result (list nat) :=
  let? ks := keptset target in
  where_total (fun t => Py.ltb t (PInt (num self))) ks.

Definition morethan (self : SetSelector) (target : Number)
  : result (list nat) :=
  let? ks := keptset target in
  where_total (fun t => Py.ltb (PInt (num self)) t) ks.

Definition literal (self : SetSelector) (target : Number)
  : result (list nat) :=
  let? ks := keptset target in
  where_total (fun t => Py.eqb t (PInt (num self))) ks.

(** The dispatch table of [select], keyed by [self.cat]. *)
Definition selectors (c : option string)
  : option (SetSelector -> Number -> result (list nat)) :=
  match c with
  | None => Some literal
  | Some c =>
      if String.eqb c "l" then Some lowestn
      else if String.eqb c "h" then Some highestn
      else if String.eqb c "<" then Some lessthan
      else if String.eqb c ">" then Some morethan
      else None
  end.

Definition select (self : SetSelector) (target : Number) : result pset :=
  match selectors (cat self) with
  | None => Err KeyError
  | Some f => let? chosen := f self target in Ok (pset_of chosen)
  end.

(** [__str__]: an empty [cat] is as false as [None]. *)
Definition str (self : SetSelector) : string :=
  match cat self with
  | Some (String a c) => (String a c ++ Py.str_int (num self))%string
  | Some EmptyString | None => Py.str_int (num self)
  end.

End SetSelector.

(** ** SetOperator *)

Module SetOperator.

(** [select]: [out = set(); for selector in self.sels:
    out.update(selector.select(target))]. *)
Fixpoint select_from (out : pset) (selectors : list SetSelector)
    (target : Number) : result pset :=
  match selectors with
  | [] => Ok out
  | selector :: rest =>
      let? chosen := SetSelector.select selector target in
      select_from (pset_update out chosen) rest target
  end.

Definition select (self : SetOperator) (target : Number) : result pset :=
  select_from [] (sels self) target.

(** [keep]: the selection is queried again for every value of the
    snapshot [target.keptset]. *)
Fixpoint keep_loop (self : SetOperator) (values : list member)
    (target : Number) : result Number :=
  match values with
  | [] => Ok target
  | (i, _) :: rest =>
      let? chosen := select self target in
      if mem i chosen then keep_loop self rest target
      else keep_loop self rest (update_member drop i target)
  end.

Definition keep (self : SetOperator) (target : Number) : result Number :=
  let? values := keptset target in
  keep_loop self values target.

(** [drop]: [for value in self.select(target): value.drop()]. *)
Definition drop (self : SetOperator) (target : Number) : result Number :=
  let? chosen := select self target in
  Ok (fold_left (fun t i => update_member drop i t) chosen target).

(** One pass of rerolls: [for die in to_reroll: die.reroll()]. *)
Fixpoint reroll_pass (to_reroll : pset) (target : Number) : M Number :=
  match to_reroll with
  | [] => ret target
  | i :: rest =>
      (do target' <- run_update_member call_reroll i target;
       reroll_pass rest target')%M
  end.

(** The [while to_reroll:] loop. *)
Fixpoint reroll_loop (fuel : nat) (self : SetOperator) (to_reroll : pset)
    (target : Number) : M Number :=
  match to_reroll with
  | [] => ret target
  | _ :: _ =>
      match fuel with
      | O => raise OutOfFuel
      | S fuel' =>
          (do target' <- reroll_pass to_reroll target;
           do again <- lift (select self target');
           reroll_loop fuel' self again target')%M
      end
  end.

Definition reroll (fuel : nat) (self : SetOperator) (target : Number)
  : M Number :=
  (do to_reroll <- lift (select self target);
   reroll_loop fuel self to_reroll target)%M.

Definition reroll_once (self : SetOperator) (target : Number) : M Number :=
  (do chosen <- lift (select self target);
   reroll_pass chosen target)%M.

(** One pass of explosions:
    [for die in to_explode: die.explode(); target.roll_another()]. *)
Fixpoint explode_pass (to_explode : pset) (target : Number) : M Number :=
  match to_explode with
  | [] => ret target
  | i :: rest =>
      (do marked <- lift (try_update_member call_explode i target);
       do grown <- Dice.roll_another marked;
       explode_pass rest grown)%M
  end.

(** The [while to_explode:] loop, with its [already_exploded] set. *)
Fixpoint explode_loop (fuel : nat) (self : SetOperator)
    (to_explode already_exploded : pset) (target : Number) : M Number :=
  match to_explode with
  | [] => ret target
  | _ :: _ =>
      match fuel with
      | O => raise OutOfFuel
      | S fuel' =>
          (do target' <- explode_pass to_explode target;
           let already := pset_update already_exploded to_explode in
           do chosen <- lift (select self target');
           explode_loop fuel' self (pset_difference chosen already) already
                        target')%M
      end
  end.

Definition explode (fuel : nat) (self : SetOperator) (target : Number)
  : M Number :=
  (do to_explode <- lift (select self target);
   explode_loop fuel self to_explode [] target)%M.

Definition explode_once (self : SetOperator) (target : Number) : M Number :=
  (do chosen <- lift (select self target);
   explode_pass chosen target)%M.

(** The message of the error raised by [minimum] and [maximum]. *)
Definition invalid_selector (selector : SetSelector) (what : string)
  : exn :=
  RollValueError
    (SetSelector.str selector ++ " is not a valid selector for " ++ what
       ++ ".")%string.

(** [for die in target.keptset: if exceeds(die.number):
    die.force_value(bound)], the loop shared by [minimum] and [maximum]. *)
Fixpoint clamp_loop (exceeds : pynum -> bool) (bound : pynum)
    (dice : list member) (target : Number) : result Number :=
  match dice with
  | [] => Ok target
  | (i, _) :: rest =>
      match member_at i target with
      | None => clamp_loop exceeds bound rest target
      | Some die =>
          let? n := number die in
          if exceeds n
          then let? die' := call_force_value bound die in
               clamp_loop exceeds bound rest (put_member i die' target)
          else clamp_loop exceeds bound rest target
      end
  end.

Definition minimum (self : SetOperator) (target : Number) : result Number :=
  match last_opt (sels self) with
  | None => Err IndexError
  | Some selector =>
      match cat selector with
      | Some _ => Err (invalid_selector selector "minimums")
      | None =>
          let the_min := PInt (num selector) in
          let? dice := keptset target in
          clamp_loop (fun n => Py.ltb n the_min) the_min dice target
      end
  end.

Definition maximum (self : SetOperator) (target : Number) : result Number :=
  match last_opt (sels self) with
  | None => Err IndexError
  | Some selector =>
      match cat selector with
      | Some _ => Err (invalid_selector selector "maximums")
      | None =>
          let the_max := PInt (num selector) in
          let? dice := keptset target in
          clamp_loop (fun n => Py.ltb the_max n) the_max dice target
      end
  end.

(** [operate]: the dispatch table keyed by [self.op]. *)
Definition operate (fuel : nat) (self : SetOperator) (target : Number)
  : M Number :=
  let o := op self in
  if String.eqb o "k" then lift (keep self target)
  else if String.eqb o "p" then lift (drop self target)
  else if String.eqb o "rr" then reroll fuel self target
  else if String.eqb o "ro" then reroll_once self target
  else if String.eqb o "ra" then explode_once self target
  else if String.eqb o "e" then explode fuel self target
  else if String.eqb o "mi" then lift (minimum self target)
  else if String.eqb o "ma" then lift (maximum self target)
  else raise KeyError.

(** [__str__]: ["".join([f"{self.op}{str(sel)}" for sel in self.sels])] *)
Definition str (self : SetOperator) : string :=
  String.concat ""
    (map (fun sel => (op self ++ SetSelector.str sel)%string) (sels self)).

End SetOperator.

(** ** Vocabulary of the properties *)

(** [Parenthetical] is the one class that overrides [total]. *)
Definition is_parenthetical (n : Number) : bool :=
  match n with
  | Parenthetical _ _ _ => true
  | _ => false
  end.


(** The six comparison operators of [BINARY_OPS]. *)
Definition compares (o : string) : bool :=
  existsb (String.eqb o) ["<"; ">"; "=="; ">="; "<="; "!="].




(** A structural traversal that follows [children]: the nodes it visits
    starting from [n]. *)
Inductive visits (n : Number) : Number -> Prop :=
| visits_self : visits n n
| visits_child c m : In c (children n) -> visits c m -> visits n m.

(** Two nodes of the same class: what an in-place mutation preserves. *)
Definition same_class (a b : Number) : Prop :=
  match a, b with
  | Expression _ _ _, Expression _ _ _ | Literal _, Literal _
  | UnOp _ _ _, UnOp _ _ _ | BinOp _ _ _ _, BinOp _ _ _ _
  | Parenthetical _ _ _, Parenthetical _ _ _ | Set_ _ _ _, Set_ _ _ _
  | Dice _ _ _ _ _ _, Dice _ _ _ _ _ _ | Die _, Die _ => True
  | _, _ => False
  end.

(** [ages x x']: [x'] is a later state of the object [x]: the same class,
    and still dropped if [x] was. *)
Definition ages (x x' : Number) : Prop :=
  same_class x x' /\ (kept x = false -> kept x' = false).

(** [outlives t t']: [t'] is a later state of the container [t]; each of
    its members is still there, in a later state. *)
Definition outlives (t t' : Number) : Prop :=
  ages t t' /\
  forall i x, member_at i t = Some x ->
              exists x', member_at i t' = Some x' /\ ages x x'.

(** The members other than [i]. *)
Definition other_than (i : nat) {A} (m : nat * A) : bool :=
  negb (Nat.eqb (fst m) i).

(** A rank selector (lowest-N, highest-N). *)
Definition is_rank (selector : SetSelector) : bool :=
  match cat selector with
  | Some c => String.eqb c "l" || String.eqb c "h"
  | None => false
  end.

(** The count of a rank selector is not negative, so that [[:N]] takes
    the first [N]. *)
Definition takes_first (selector : SetSelector) : bool :=
  negb (is_rank selector) || (0 <=? num selector).

(** The methods of the core that mutate a node, as calls on that node. *)
Inductive mutation : Type :=
| Drop                                   (* n.drop() *)
| Explode                                (* n.explode() *)
| Update (value : pynum)                 (* n.update(value) *)
| ForceValue (new_value : pynum)         (* n.force_value(new_value) *)
| AddRoll                                (* n._add_roll() *)
| Reroll                                 (* n.reroll() *)
| RollAnother                            (* n.roll_another() *)
| Operate (fuel : nat) (operator : SetOperator). (* operator.operate(n) *)

Definition call_update (value : pynum) (n : Number) : result Number :=
  match n with
  | Literal l => Ok (Literal (Literal.update value l))
  | _ => Err AttributeError
  end.

Definition call_add_roll (n : Number) : M Number :=
  match n with
  | Die d => (do d' <- Die._add_roll d; ret (Die d'))%M
  | _ => raise AttributeError
  end.

Definition mutate (m : mutation) (n : Number) : M Number :=
  match m with
  | Drop => ret (drop n)
  | Explode => lift (call_explode n)
  | Update value => lift (call_update value n)
  | ForceValue new_value => lift (call_force_value new_value n)
  | AddRoll => call_add_roll n
  | Reroll => call_reroll n
  | RollAnother => Dice.roll_another n
  | Operate fuel operator => SetOperator.operate fuel operator n
  end.

Fixpoint mutate_all (ms : list mutation) (n : Number) : M Number :=
  match ms with
  | [] => ret n
  | m :: rest => (do n' <- mutate m n; mutate_all rest n')%M
  end.

(** Operators applied to one container, in order. *)
Fixpoint operate_all (fuel : nat) (operators : list SetOperator)
    (target : Number) : M Number :=
  match operators with
  | [] => ret target
  | operator :: rest =>
      (do target' <- SetOperator.operate fuel operator target;
       operate_all fuel rest target')%M
  end.

(** A die that shows a value: its [number] can be read. *)
Definition is_showing (m : Number) : bool :=
  match m with
  | Die d => match Die.number d with Ok _ => true | Err _ => false end
  | _ => false
  end.

(** What [minimum] and [maximum] make of one member of a pool. *)
Definition clamped (exceeds : pynum -> bool) (bound : pynum) (m : Number)
  : Number :=
  match m with
  | Die d =>
      match Die.number d with
      | Ok v => if Die.kept d && exceeds v
                then Die (Die.force_value bound d) else m
      | Err _ => m
      end
  | _ => m
  end.

(** The threshold or equality test of a selector without rank. *)
Definition predicate_of (selector : SetSelector) : option (pynum -> bool) :=
  match cat selector with
  | None => Some (fun t => Py.eqb t (PInt (num selector)))
  | Some c =>
      if String.eqb c "<" then Some (fun t => Py.ltb t (PInt (num selector)))
      else if String.eqb c ">" then
        Some (fun t => Py.ltb (PInt (num selector)) t)
      else None
  end.

(** ** Concrete nodes and worlds used in examples *)

(** An entropy tape that yields the listed draws, then zeros. *)
Definition tape_of (draws : list Z) : nat -> Z := fun i => nth i draws 0.

Definition world_of (draws : list Z) : world :=
  mkWorld (tape_of draws) 0 (mkRollContext 0 1000).

Definition lit (z : Z) : Number := Literal (Literal.new (PInt z)).


(** A die of [sz] faces that was rolled once and shows [z]. *)
Definition die_showing (sz z : Z) : Die.t :=
  Die.mk true sz [Literal.new (PInt z)] None.

(** A pool of such dice. *)
Definition pool (sz : Z) (shown : list Z) : Number :=
  Dice true (Z.of_nat (List.length shown)) sz
       (map (fun z => Die (die_showing sz z)) shown) [] None.

(** Operators of the examples. *)
Definition keep_highest_2 : SetOperator :=
  mkSetOperator "k" [mkSetSelector (Some "h") 2].

Definition keep_above_6 : SetOperator :=
  mkSetOperator "k" [mkSetSelector (Some ">") 6].

Definition reroll_ones : SetOperator :=
  mkSetOperator "rr" [mkSetSelector None 1].

Definition lowest_1 : SetOperator :=
  mkSetOperator "k" [mkSetSelector (Some "l") 1].

Definition minimum_3 : SetOperator := mkSetOperator "mi" [mkSetSelector None 3].
Definition minimum_highest_1 : SetOperator :=
  mkSetOperator "mi" [mkSetSelector (Some "h") 1].

Definition explode_sixes : SetOperator :=
  mkSetOperator "e" [mkSetSelector None 6].

(** A d6 that showed 6 and was exploded. *)
Definition exploded_six : Number :=
  Die (Die.mk true 6 [Literal.mk true [PInt 6] true] None).

(** The pool a chain of explosions of one d6 leaves: [n] exploded sixes
    and the die rolled last, which shows [last]. *)
Definition d6_chain (n : nat) (last : Z) : Number :=
  Dice true 1 6 (repeat exploded_six n ++ [Die (die_showing 6 last)]) [] None.


Definition keep_highest_minus_1 : SetOperator :=
  mkSetOperator "k" [mkSetSelector (Some "h") (-1)].

(** The pool [1,2,3] whose first die was dropped. *)
Definition pool_first_dropped : Number :=
  Dice true 3 6
       [drop (Die (die_showing 6 1)); Die (die_showing 6 2);
        Die (die_showing 6 3)] [] None.

(** ** Vocabulary of the further properties *)

(** [value.drop()] on each listed member. *)
Definition drop_each (chosen : list nat) (target : Number) : Number :=
  fold_left (fun t i => update_member drop i t) chosen target.

Definition no_selectors (o : string) : SetOperator := mkSetOperator o [].

(** [a] stands before [b] in [l]. *)
Definition before {A} (a b : A) (l : list A) : Prop :=
  exists l1 l2, l = l1 ++ a :: l2 /\ In b l2.

(** A die as [Die.new] leaves it: kept, with one kept literal that holds
    one value of [[1, size]]. *)
Definition fresh_die (size : Z) (context : option context_ref) (m : Number)
  : Prop :=
  exists v, 1 <= v <= size /\
            m = Die (Die.mk true size [Literal.new (PInt v)] context).

Definition is_dice (n : Number) : bool :=
  match n with
  | Dice _ _ _ _ _ _ => true
  | _ => false
  end.

(** The calls a user makes on a die. *)
Inductive die_call : Type :=
| CallReroll
| CallExplode
| CallForceValue (new_value : pynum)
| CallDrop.

Definition call_die (c : die_call) (d : Die.t) : M Die.t :=
  match c with
  | CallReroll => Die.reroll d
  | CallExplode => ret (Die.explode d)
  | CallForceValue new_value => ret (Die.force_value new_value d)
  | CallDrop => ret (Die.drop d)
  end.

Fixpoint call_die_all (cs : list die_call) (d : Die.t) : M Die.t :=
  match cs with
  | [] => ret d
  | c :: rest => (do d' <- call_die c d; call_die_all rest d')%M
  end.

Definition rerolls (cs : list die_call) : nat :=
  List.length
    (filter (fun c => match c with CallReroll => true | _ => false end) cs).

(** Only the last literal of the history is kept. *)
Definition only_last_kept (d : Die.t) : bool :=
  match last_opt (Die.values d) with
  | Some l => Literal.kept l
  | None => false
  end
  && forallb (fun l => negb (Literal.kept l)) (removelast (Die.values d)).

(** The literal was rolled on a die of [size] faces: the first value of its
    history is an integer of [[1, size]]. *)
Definition rolled_within (size : Z) (l : Literal.t) : bool :=
  match Literal.values l with
  | PInt v :: _ => (1 <=? v) && (v <=? size)
  | _ => false
  end.

(** What the calls keep true of a die that was rolled [n] times. *)
Definition rolled_times (size : Z) (n : nat) (d : Die.t) : Prop :=
  only_last_kept d = true /\
  List.length (Die.values d) = n /\
  Die.size d = size /\
  forallb (rolled_within size) (Die.values d) = true.

(** The die's current literal is kept. *)
Definition current_kept (m : Number) : bool :=
  match m with
  | Die d => match last_opt (Die.values d) with
             | Some l => Literal.kept l
             | None => false
             end
  | _ => false
  end.

(** [d'] is [d] after one [reroll]: the literal that was current is
    dropped and a literal with one value of [[1, size]] follows it. *)
Definition rerolled_once (d d' : Die.t) : Prop :=
  exists v, 1 <= v <= Die.size d /\
    d' = Die.mk (Die.kept d) (Die.size d)
           (Die.values (Die.drop_current d) ++ [Literal.new (PInt v)])
           (Die._context d).

(** The two classes whose [set] is the [set] of the node they hold. *)
Inductive wrapper : Type :=
| InParentheses (kept : bool) (operations : list SetOperator)
| InExpression (kept : bool) (comment : string).

Definition wrap (wr : wrapper) (value : Number) : Number :=
  match wr with
  | InParentheses k ops => Parenthetical k value ops
  | InExpression k c => Expression k value c
  end.

Definition is_die (m : Number) : bool :=
  match m with
  | Die _ => true
  | _ => false
  end.

(** The number of literals in a die's roll history. *)
Definition history (m : Number) : nat :=
  match m with
  | Die d => List.length (Die.values d)
  | _ => O
  end.

(** The number of literals in the histories of a pool. *)
Definition literals (vs : list Number) : nat := list_sum (map history vs).

(** [(vs', w')] is a later state of the pool [vs] and the world [w]: the
    pool still holds dice only, no die and no literal was removed, and as
    many literals were added as values were drawn. *)
Definition recorded (vs : list Number) (w : world) (vs' : list Number)
    (w' : world) : Prop :=
  forallb is_die vs' = true /\
  (List.length vs <= List.length vs')%nat /\
  (forall i x, nth_error vs i = Some x ->
     exists x', nth_error vs' i = Some x' /\ (history x <= history x')%nat) /\
  (literals vs' + cursor w = literals vs + cursor w')%nat /\
  tape w' = tape w.

(** The number of nodes of a tree. *)
Fixpoint nodes (n : Number) : nat :=
  match n with
  | Expression _ r _ => S (nodes r)
  | Literal _ => 1
  | UnOp _ _ v => S (nodes v)
  | BinOp _ l _ r => S (nodes l + nodes r)
  | Parenthetical _ v _ => S (nodes v)
  | Set_ _ vs _ | Dice _ _ _ vs _ _ => S (list_sum (map nodes vs))
  | Die _ => 1
  end.

(** Further operators, nodes and worlds of the examples. *)
Definition drop_lowest_1 : SetOperator :=
  mkSetOperator "p" [mkSetSelector (Some "l") 1].

Definition reroll_once_ones : SetOperator :=
  mkSetOperator "ro" [mkSetSelector None 1].

Definition explode_once_sixes : SetOperator :=
  mkSetOperator "ra" [mkSetSelector None 6].

(** The members of a pool of dice, with their identities. *)
Definition members_of (sz : Z) (shown : list Z) : list member :=
  enumerate (map (fun z => Die (die_showing sz z)) shown).

(** The pool [1,2,3,4] after keep-highest-2. *)
Definition pool_low_two_dropped : Number :=
  Dice true 4 6
       [drop (Die (die_showing 6 1)); drop (Die (die_showing 6 2));
        Die (die_showing 6 3); Die (die_showing 6 4)] [] None.

(** A die that showed [old] and was rerolled to [new]. *)
Definition rerolled_to (sz old new : Z) : Die.t :=
  Die.mk true sz [Literal.mk false [PInt old] false; Literal.new (PInt new)]
         None.

(** The world of [draws] after [n] of them were read. *)
Definition world_after (draws : list Z) (n : nat) : world :=
  mkWorld (tape_of draws) n (mkRollContext 0 1000).

(** A d6 that was rolled (1), rerolled (4), forced to 2, exploded and
    dropped. *)
Definition d6_after_calls : Die.t :=
  Die.mk false 6
         [Literal.mk false [PInt 1] false;
          Literal.mk true [PInt 4; PInt 2] true] None.

(** * Properties *)

(** ** Lists *)

Lemma length_set_nth {A} i (x : A) l :
  List.length (set_nth i x l) = List.length l.
Proof.
  revert i; induction l as [| y l IH]; intros [| i]; simpl; auto.
Qed.

Lemma nth_error_set_nth_eq {A} i (x : A) l :
  (i < List.length l)%nat -> nth_error (set_nth i x l) i = Some x.
Proof.
  revert i; induction l as [| y l IH]; intros [| i] H; simpl in *;
    try lia; auto.
  apply IH; lia.
Qed.

Lemma nth_error_set_nth_ne {A} i j (x : A) l :
  i <> j -> nth_error (set_nth i x l) j = nth_error l j.
Proof.
  revert i j; induction l as [| y l IH]; intros [| i] [| j] H; simpl;
    auto; try congruence.
Qed.

Lemma last_opt_app {A} (l : list A) x : last_opt (l ++ [x]) = Some x.
Proof.
  induction l as [| y l IH]; simpl; auto.
  destruct (l ++ [x]) eqn:E; auto.
  destruct l; discriminate.
Qed.

Lemma last_opt_nth_error {A} (l : list A) :
  last_opt l = nth_error l (Nat.pred (List.length l)).
Proof.
  induction l as [| y l IH]; simpl; auto.
  destruct l as [| z l]; auto.
Qed.

Lemma last_opt_Some_length {A} (l : list A) x :
  last_opt l = Some x -> (Nat.pred (List.length l) < List.length l)%nat.
Proof. destruct l; simpl; [discriminate | lia]. Qed.

Lemma last_opt_set_last {A} (l : list A) x y :
  last_opt l = Some y -> last_opt (set_last x l) = Some x.
Proof.
  intros H. unfold set_last.
  rewrite last_opt_nth_error, length_set_nth.
  apply nth_error_set_nth_eq. eapply last_opt_Some_length; eauto.
Qed.

(** ** Reading [number] and [total] *)

Lemma number_Expression k r c : number (Expression k r c) = number r.
Proof. reflexivity. Qed.

Lemma number_Literal l : number (Literal l) = Literal.number l.
Proof. reflexivity. Qed.

Lemma number_UnOp k o v : number (UnOp k o v) = unop_number o (total v).
Proof. reflexivity. Qed.

Lemma number_BinOp k l o r :
  number (BinOp k l o r) = binop_number o (total l) (total r).
Proof. reflexivity. Qed.

Lemma number_Parenthetical k v ops : number (Parenthetical k v ops) = number v.
Proof. reflexivity. Qed.

Lemma number_Set k vs ops : number (Set_ k vs ops) = sum_kept number (PInt 0) vs.
Proof. reflexivity. Qed.

Lemma number_Dice k nm sz vs ops c :
  number (Dice k nm sz vs ops c) = sum_kept number (PInt 0) vs.
Proof. reflexivity. Qed.

Lemma number_Die d : number (Die d) = Die.number d.
Proof. reflexivity. Qed.

Lemma total_Parenthetical k v ops :
  total (Parenthetical k v ops) = if k then total v else Ok (PInt 0).
Proof. reflexivity. Qed.

Lemma total_inherited n :
  is_parenthetical n = false ->
  total n = if kept n then number n else Ok (PInt 0).
Proof. destruct n; simpl; intros H; try discriminate; reflexivity. Qed.

Lemma total_not_kept n : kept n = false -> total n = Ok (PInt 0).
Proof.
  destruct n; unfold total; simpl; intros H; subst; try reflexivity.
  - unfold Literal.total. now rewrite H.
  - unfold Die.total. now rewrite H.
Qed.

(** ** Members and their write-back *)

Lemma set_put_member t : forall i x old s,
  set t = Ok s -> nth_error s i = Some old -> same_class old x ->
  set (put_member i x t) = Ok (set_nth i x s).
Proof.
  induction t; intros i x old s Hs Hn Hc; simpl in *.
  - eauto.
  - injection Hs as <-. destruct i as [| i]; simpl in *.
    + injection Hn as <-. destruct x; try contradiction. reflexivity.
    + destruct i; discriminate.
  - injection Hs as <-. destruct i as [| i]; simpl in *.
    + injection Hn as <-. destruct x; try contradiction. reflexivity.
    + destruct i; discriminate.
  - injection Hs as <-. destruct i as [| i]; simpl in *.
    + injection Hn as <-. destruct x; try contradiction. reflexivity.
    + destruct i; discriminate.
  - eauto.
  - injection Hs as <-. reflexivity.
  - injection Hs as <-. reflexivity.
  - destruct (last_opt (Die.values d)) as [l |] eqn:Hl; [| discriminate].
    injection Hs as <-. destruct i as [| i]; simpl in *.
    + injection Hn as <-. destruct x; try contradiction. simpl.
      now rewrite (last_opt_set_last _ _ _ Hl).
    + destruct i; discriminate.
Qed.

Lemma member_at_put_member_eq t i x old :
  member_at i t = Some old -> same_class old x ->
  member_at i (put_member i x t) = Some x.
Proof.
  unfold member_at. destruct (set t) as [s |] eqn:Hs; [| discriminate].
  intros Hn Hc. rewrite (set_put_member t i x old s Hs Hn Hc).
  apply nth_error_set_nth_eq. apply nth_error_Some. congruence.
Qed.

Lemma member_at_put_member_ne t i j x old :
  member_at i t = Some old -> same_class old x -> i <> j ->
  member_at j (put_member i x t) = member_at j t.
Proof.
  unfold member_at. destruct (set t) as [s |] eqn:Hs; [| discriminate].
  intros Hn Hc Hij. rewrite (set_put_member t i x old s Hs Hn Hc).
  now apply nth_error_set_nth_ne.
Qed.

(** A node is either its own member, and then writing the member back
    replaces the node, or a container whose own flag the write-back leaves
    alone. *)
Lemma put_member_self_or_kept t i x old :
  member_at i t = Some old -> same_class old x ->
  (old = t /\ put_member i x t = x) \/
  (kept (put_member i x t) = kept t /\ same_class t (put_member i x t)).
Proof.
  unfold member_at. intros Hn Hc.
  destruct t; simpl in *; try (right; split; [reflexivity | exact I]).
  - destruct i as [| [| i]]; try discriminate. injection Hn as <-. now left.
  - destruct i as [| [| i]]; try discriminate. injection Hn as <-. now left.
  - destruct i as [| [| i]]; try discriminate. injection Hn as <-. now left.
  - right. destruct i; [destruct x |]; simpl; auto.
Qed.

(** ** What a mutation never undoes *)

Lemma same_class_refl x : same_class x x.
Proof. destruct x; exact I. Qed.

Lemma same_class_trans x y z : same_class x y -> same_class y z -> same_class x z.
Proof. destruct x, y, z; simpl; auto; contradiction. Qed.

Lemma ages_refl x : ages x x.
Proof. split; [apply same_class_refl | auto]. Qed.

Lemma ages_trans x y z : ages x y -> ages y z -> ages x z.
Proof.
  intros [C1 K1] [C2 K2]. split; [eapply same_class_trans; eauto | auto].
Qed.

Lemma outlives_refl t : outlives t t.
Proof. split; [apply ages_refl |]. intros i x H. exists x. split; [auto | apply ages_refl]. Qed.

Lemma outlives_trans t u v : outlives t u -> outlives u v -> outlives t v.
Proof.
  intros [A1 M1] [A2 M2]. split; [eapply ages_trans; eauto |].
  intros i x H. destruct (M1 i x H) as (x' & H' & Ax).
  destruct (M2 i x' H') as (x'' & H'' & Ax').
  exists x''. split; [auto | eapply ages_trans; eauto].
Qed.

Lemma outlives_put_member t i x x' :
  member_at i t = Some x -> ages x x' -> outlives t (put_member i x' t).
Proof.
  intros Hm [Hc Hk]. split.
  - destruct (put_member_self_or_kept t i x' x Hm Hc) as [[-> ->] | [E C]].
    + now split.
    + split; [auto | congruence].
  - intros j y Hy. destruct (Nat.eq_dec i j) as [<- | Hij].
    + exists x'. rewrite (member_at_put_member_eq t i x' x Hm Hc).
      split; [auto |]. replace y with x by congruence. now split.
    + exists y. rewrite (member_at_put_member_ne t i j x' x Hm Hc Hij).
      split; [auto | apply ages_refl].
Qed.

Lemma ages_drop x : ages x (drop x).
Proof. destruct x; split; simpl; auto. Qed.

Lemma outlives_update_member f i t :
  (forall x, ages x (f x)) -> outlives t (update_member f i t).
Proof.
  intros Hf. unfold update_member.
  destruct (member_at i t) as [x |] eqn:Hm; [| apply outlives_refl].
  eapply outlives_put_member; eauto.
Qed.

Lemma ages_call_explode x x' : call_explode x = Ok x' -> ages x x'.
Proof. destruct x; simpl; intros [= <-]; split; simpl; auto. 
  unfold Die.explode. destruct (last_opt (Die.values d)); auto. Qed.

Lemma ages_call_force_value v x x' : call_force_value v x = Ok x' -> ages x x'.
Proof. destruct x; simpl; intros [= <-]; split; simpl; auto.
  unfold Die.force_value. destruct (last_opt (Die.values d)); auto. Qed.

Lemma Die_add_roll_kept d w d' w' :
  Die._add_roll d w = Ok (d', w') -> Die.kept d' = Die.kept d.
Proof.
  unfold Die._add_roll. destruct (Die.size d <? 1); [discriminate |].
  unfold bind. destruct (match Die._context d with Some _ => notify | None => ret tt end w) as [[[] w1] | e]; [| discriminate].
  unfold randrange, ret. now intros [= <- <-].
Qed.

Lemma ages_call_reroll x w x' w' : call_reroll x w = Ok (x', w') -> ages x x'.
Proof.
  destruct x; simpl; try discriminate. unfold bind.
  destruct (Die.reroll d w) as [[d' w1] |] eqn:E; [| discriminate].
  unfold ret; intros [= <- <-]. split; [exact I |]. simpl.
  unfold Die.reroll in E. apply Die_add_roll_kept in E. rewrite E.
  unfold Die.drop_current. destruct (last_opt (Die.values d)); auto.
Qed.

Lemma outlives_roll_another t w t' w' :
  Dice.roll_another t w = Ok (t', w') -> outlives t t'.
Proof.
  destruct t; simpl; try discriminate. unfold bind.
  destruct (Die.new size _context w) as [[d w1] |]; [| discriminate].
  unfold ret; intros [= <- <-]. split; [split; simpl; auto |].
  unfold member_at; simpl. intros i x H. exists x. split; [| apply ages_refl].
  rewrite nth_error_app1; auto. apply nth_error_Some. congruence.
Qed.

Lemma lift_Ok {A} (r : result A) w a w' :
  lift r w = Ok (a, w') -> r = Ok a /\ w' = w.
Proof. unfold lift. destruct r; [intros [= <- <-]; auto | discriminate]. Qed.

Lemma bind_Ok {A B} (m : M A) (k : A -> M B) w b w' :
  bind m k w = Ok (b, w') ->
  exists a w1, m w = Ok (a, w1) /\ k a w1 = Ok (b, w').
Proof.
  unfold bind. destruct (m w) as [[a w1] | e]; [| discriminate]. eauto.
Qed.

Lemma rbind_Ok {A B} (r : result A) (k : A -> result B) b :
  rbind r k = Ok b -> exists a, r = Ok a /\ k a = Ok b.
Proof. destruct r; simpl; [eauto | discriminate]. Qed.

Lemma outlives_keep_loop self values : forall t t',
  SetOperator.keep_loop self values t = Ok t' -> outlives t t'.
Proof.
  induction values as [| [i x] rest IH]; simpl; intros t t' H.
  - injection H as <-. apply outlives_refl.
  - apply rbind_Ok in H as (chosen & _ & H).
    destruct (mem i chosen); [eauto |].
    eapply outlives_trans; [| eauto].
    apply outlives_update_member, ages_drop.
Qed.

Lemma outlives_drop_all chosen : forall t,
  outlives t (fold_left (fun t i => update_member drop i t) chosen t).
Proof.
  induction chosen as [| i rest IH]; simpl; intros t.
  - apply outlives_refl.
  - eapply outlives_trans; [| apply IH].
    apply outlives_update_member, ages_drop.
Qed.

Lemma outlives_run_update_member f i t w t' w' :
  (forall x w x' w', f x w = Ok (x', w') -> ages x x') ->
  run_update_member f i t w = Ok (t', w') -> outlives t t'.
Proof.
  intros Hf. unfold run_update_member.
  destruct (member_at i t) as [x |] eqn:Hm.
  - intros H. apply bind_Ok in H as (x' & w1 & Hx & H).
    injection H as <- <-. eapply outlives_put_member; eauto.
  - intros [= <- <-]. apply outlives_refl.
Qed.

Lemma outlives_try_update_member f i t t' :
  (forall x x', f x = Ok x' -> ages x x') ->
  try_update_member f i t = Ok t' -> outlives t t'.
Proof.
  intros Hf. unfold try_update_member.
  destruct (member_at i t) as [x |] eqn:Hm.
  - intros H. apply rbind_Ok in H as (x' & Hx & H).
    injection H as <-. eapply outlives_put_member; eauto.
  - intros [= <-]. apply outlives_refl.
Qed.

Lemma outlives_reroll_pass chosen : forall t w t' w',
  SetOperator.reroll_pass chosen t w = Ok (t', w') -> outlives t t'.
Proof.
  induction chosen as [| i rest IH]; simpl; intros t w t' w' H.
  - injection H as <- <-. apply outlives_refl.
  - apply bind_Ok in H as (t1 & w1 & H1 & H).
    eapply outlives_trans; [| eauto].
    eapply outlives_run_update_member; [| eauto]. apply ages_call_reroll.
Qed.

Lemma outlives_reroll_loop self fuel : forall chosen t w t' w',
  SetOperator.reroll_loop fuel self chosen t w = Ok (t', w') -> outlives t t'.
Proof.
  induction fuel as [| fuel IH]; intros [| i rest] t w t' w' H; simpl in H;
    try discriminate;
    try (unfold ret in H; injection H as <- <-; apply outlives_refl).
  apply bind_Ok in H as (t1 & w1 & H1 & H).
  apply bind_Ok in H as (again & w2 & _ & H).
  eapply outlives_trans;
    [eapply (outlives_reroll_pass (i :: rest)); exact H1 | eauto].
Qed.

Lemma outlives_explode_pass chosen : forall t w t' w',
  SetOperator.explode_pass chosen t w = Ok (t', w') -> outlives t t'.
Proof.
  induction chosen as [| i rest IH]; simpl; intros t w t' w' H.
  - injection H as <- <-. apply outlives_refl.
  - apply bind_Ok in H as (t1 & w1 & H1 & H).
    apply bind_Ok in H as (t2 & w2 & H2 & H).
    apply lift_Ok in H1 as [H1 _].
    eapply outlives_trans;
      [eapply outlives_try_update_member; [apply ages_call_explode | eauto] |].
    eapply outlives_trans; [eapply outlives_roll_another; eauto | eauto].
Qed.

Lemma outlives_explode_loop self fuel : forall chosen already t w t' w',
  SetOperator.explode_loop fuel self chosen already t w = Ok (t', w') ->
  outlives t t'.
Proof.
  induction fuel as [| fuel IH]; intros [| i rest] already t w t' w' H;
    simpl in H; try discriminate;
    try (unfold ret in H; injection H as <- <-; apply outlives_refl).
  apply bind_Ok in H as (t1 & w1 & H1 & H).
  apply bind_Ok in H as (again & w2 & _ & H).
  eapply outlives_trans;
    [eapply (outlives_explode_pass (i :: rest)); exact H1 | eauto].
Qed.

Lemma outlives_clamp_loop exceeds bound dice : forall t t',
  SetOperator.clamp_loop exceeds bound dice t = Ok t' -> outlives t t'.
Proof.
  induction dice as [| [i x] rest IH]; simpl; intros t t' H.
  - injection H as <-. apply outlives_refl.
  - destruct (member_at i t) as [die |] eqn:Hm; [| eauto].
    apply rbind_Ok in H as (n & _ & H).
    destruct (exceeds n); [| eauto].
    apply rbind_Ok in H as (die' & Hd & H).
    eapply outlives_trans; [| eauto].
    eapply outlives_put_member; eauto using ages_call_force_value.
Qed.

Lemma outlives_operate fuel self t w t' w' :
  SetOperator.operate fuel self t w = Ok (t', w') -> outlives t t'.
Proof.
  unfold SetOperator.operate.
  repeat match goal with
         | |- (if ?b then _ else _) _ = _ -> _ => destruct b
         end; intros H; try discriminate.
  - apply lift_Ok in H as [H _]. unfold SetOperator.keep in H.
    apply rbind_Ok in H as (vs & _ & H). eapply outlives_keep_loop; eauto.
  - apply lift_Ok in H as [H _]. unfold SetOperator.drop in H.
    apply rbind_Ok in H as (vs & _ & H). injection H as <-.
    apply outlives_drop_all.
  - apply bind_Ok in H as (c & w1 & _ & H). eapply outlives_reroll_loop; eauto.
  - apply bind_Ok in H as (c & w1 & _ & H). eapply outlives_reroll_pass; eauto.
  - apply bind_Ok in H as (c & w1 & _ & H). eapply outlives_explode_pass; eauto.
  - apply bind_Ok in H as (c & w1 & _ & H). eapply outlives_explode_loop; eauto.
  - apply lift_Ok in H as [H _]. unfold SetOperator.minimum in H.
    destruct (last_opt (sels self)) as [s |]; [| discriminate].
    destruct (cat s); [discriminate |].
    apply rbind_Ok in H as (vs & _ & H). eapply outlives_clamp_loop; eauto.
  - apply lift_Ok in H as [H _]. unfold SetOperator.maximum in H.
    destruct (last_opt (sels self)) as [s |]; [| discriminate].
    destruct (cat s); [discriminate |].
    apply rbind_Ok in H as (vs & _ & H). eapply outlives_clamp_loop; eauto.
Qed.

(** ** Sets of identities *)

Lemma mem_In i s : mem i s = true <-> In i s.
Proof.
  unfold mem. rewrite existsb_exists. split.
  - intros (j & Hj & E). apply Nat.eqb_eq in E. now subst.
  - intros H. exists i. split; [auto | apply Nat.eqb_refl].
Qed.

Lemma In_pset_add s i j : In j (pset_add s i) <-> In j s \/ j = i.
Proof.
  unfold pset_add. destruct (mem i s) eqn:E.
  - apply mem_In in E. split; [auto | intros [H | ->]; auto].
  - rewrite in_app_iff. simpl. intuition.
Qed.

Lemma In_pset_update xs : forall s j,
  In j (pset_update s xs) <-> In j s \/ In j xs.
Proof.
  unfold pset_update.
  induction xs as [| x xs IH]; simpl; intros s j; [intuition |].
  rewrite IH, In_pset_add. intuition.
Qed.

Lemma In_pset_of xs j : In j (pset_of xs) <-> In j xs.
Proof. unfold pset_of. rewrite In_pset_update. simpl. intuition. Qed.

(** ** Members of [keptset] *)

Lemma In_combine_seq {A} (l : list A) : forall k i x,
  In (i, x) (combine (seq k (List.length l)) l) <->
  (k <= i)%nat /\ nth_error l (i - k) = Some x.
Proof.
  induction l as [| y l IH]; simpl; intros k i x.
  - split; [contradiction |]. intros [_ H]. destruct (i - k)%nat; discriminate.
  - rewrite IH. split.
    + intros [[= <- <-] | [Hk Hn]].
      * split; [lia |]. now rewrite Nat.sub_diag.
      * split; [lia |]. replace (i - k)%nat with (S (i - S k)) by lia. auto.
    + intros [Hk Hn]. destruct (Nat.eq_dec i k) as [-> | Hne].
      * rewrite Nat.sub_diag in Hn. left. simpl in Hn. congruence.
      * right. split; [lia |].
        replace (i - k)%nat with (S (i - S k)) in Hn by lia. auto.
Qed.

Lemma In_enumerate {A} (l : list A) i x :
  In (i, x) (enumerate l) <-> nth_error l i = Some x.
Proof.
  unfold enumerate. rewrite In_combine_seq, Nat.sub_0_r. intuition lia.
Qed.

Lemma In_keptset t ks i x :
  keptset t = Ok ks ->
  (In (i, x) ks <-> member_at i t = Some x /\ kept x = true).
Proof.
  unfold keptset, member_at. destruct (set t) as [s |]; [| discriminate].
  simpl. intros [= <-]. rewrite filter_In, In_enumerate. simpl. reflexivity.
Qed.

(** ** Selectors pick kept members *)

Lemma where_total_In p ks : forall r i,
  SetSelector.where_total p ks = Ok r -> In i r -> In i (map fst ks).
Proof.
  induction ks as [| [j x] ks IH]; simpl; intros r i H Hi.
  - injection H as <-. contradiction.
  - apply rbind_Ok in H as (t & _ & H). apply rbind_Ok in H as (r' & Hr & H).
    injection H as <-. destruct (p t); [destruct Hi as [-> | Hi] |]; eauto.
Qed.

Lemma keyed_fst ks : forall keys,
  SetSelector.keyed ks = Ok keys -> map fst keys = map fst ks.
Proof.
  induction ks as [| [j x] ks IH]; simpl; intros keys H.
  - now injection H as <-.
  - apply rbind_Ok in H as (t & _ & H). apply rbind_Ok in H as (r' & Hr & H).
    injection H as <-. simpl. f_equal; auto.
Qed.

Lemma In_insert_by follows x l m :
  In m (SetSelector.insert_by follows x l) <-> m = x \/ In m l.
Proof.
  induction l as [| y l IH]; simpl; [intuition |].
  destruct (follows (snd x) (snd y)); simpl; rewrite ?IH; intuition.
Qed.

Lemma In_sorted reverse l m : In m (SetSelector.sorted reverse l) <-> In m l.
Proof.
  unfold SetSelector.sorted. induction l as [| y l IH]; simpl; [reflexivity |].
  rewrite In_insert_by, IH. intuition.
Qed.

Lemma In_firstn_inv {A} n (l : list A) m : In m (firstn n l) -> In m l.
Proof.
  intros H. rewrite <- (firstn_skipn n l). apply in_or_app. now left.
Qed.

Lemma In_slice_to {A} n (l : list A) m : In m (slice_to n l) -> In m l.
Proof. unfold slice_to. destruct (n <? 0); apply In_firstn_inv. Qed.

Lemma selector_picks_kept selector target picked i :
  SetSelector.select selector target = Ok picked -> In i picked ->
  exists x, member_at i target = Some x /\ kept x = true.
Proof.
  unfold SetSelector.select.
  destruct (SetSelector.selectors (cat selector)) as [f |] eqn:Hf;
    [| discriminate].
  intros H Hi. apply rbind_Ok in H as (chosen & Hc & H). injection H as <-.
  rewrite In_pset_of in Hi.
  assert (Hks : exists ks, keptset target = Ok ks /\ In i (map fst ks)).
  { assert (Hrank : forall reverse,
               (let? ks := keptset target in
                let? keys := SetSelector.keyed ks in
                Ok (map fst (slice_to (num selector)
                               (SetSelector.sorted reverse keys)))) = Ok chosen ->
               exists ks, keptset target = Ok ks /\ In i (map fst ks)).
    { intros reverse Hr. apply rbind_Ok in Hr as (ks & Hks & Hr).
      apply rbind_Ok in Hr as (keys & Hkeys & Hr). injection Hr as <-.
      exists ks; split; auto. rewrite <- (keyed_fst _ _ Hkeys).
      apply in_map_iff in Hi as (m & <- & Hm). apply in_map.
      apply In_slice_to in Hm. now apply In_sorted in Hm. }
    assert (Hpred : forall p,
               (let? ks := keptset target in SetSelector.where_total p ks)
               = Ok chosen ->
               exists ks, keptset target = Ok ks /\ In i (map fst ks)).
    { intros p Hr. apply rbind_Ok in Hr as (ks & Hks & Hr).
      exists ks; split; auto. eapply where_total_In; eauto. }
    unfold SetSelector.selectors in Hf.
    destruct (cat selector) as [c |].
    - repeat match type of Hf with
             | (if ?b then _ else _) = _ => destruct b
             end; try discriminate; injection Hf as <-; eauto.
    - injection Hf as <-. eauto. }
  destruct Hks as (ks & Hks & Hin).
  apply in_map_iff in Hin as ([j x] & <- & Hm).
  exists x. now apply (In_keptset _ _ _ _ Hks).
Qed.

Lemma select_from_In selectors target : forall out chosen i,
  SetOperator.select_from out selectors target = Ok chosen ->
  (In i chosen <->
   In i out \/
   exists selector picked,
     In selector selectors /\
     SetSelector.select selector target = Ok picked /\ In i picked).
Proof.
  induction selectors as [| s rest IH]; simpl; intros out chosen i H.
  - injection H as <-. split; [auto | intros [H | (s & p & [] & _)]; auto].
  - apply rbind_Ok in H as (picked & Hp & H).
    rewrite (IH _ _ _ H), In_pset_update. split.
    + intros [[Ho | Hi] | (s' & p' & Hin & Hs & Hi)]; auto.
      * right. exists s, picked. auto.
      * right. exists s', p'. auto.
    + intros [Ho | (s' & p' & [<- | Hin] & Hs & Hi)]; auto.
      * left. right. congruence.
      * right. exists s', p'. auto.
Qed.

(** ** Dropped stays dropped *)

Lemma ages_call_update v x x' : call_update v x = Ok x' -> ages x x'.
Proof. destruct x; simpl; intros [= <-]; split; simpl; auto. Qed.

Lemma ages_call_add_roll x w x' w' : call_add_roll x w = Ok (x', w') -> ages x x'.
Proof.
  destruct x; simpl; try discriminate. intros H.
  apply bind_Ok in H as (d' & w1 & Hd & H). injection H as <- <-.
  split; [exact I |]. simpl. now rewrite (Die_add_roll_kept _ _ _ _ Hd).
Qed.

Lemma ages_mutate m n w n' w' : mutate m n w = Ok (n', w') -> ages n n'.
Proof.
  destruct m; simpl; intros H.
  - injection H as <- <-. apply ages_drop.
  - apply lift_Ok in H as [H _]. eapply ages_call_explode; eauto.
  - apply lift_Ok in H as [H _]. eapply ages_call_update; eauto.
  - apply lift_Ok in H as [H _]. eapply ages_call_force_value; eauto.
  - eapply ages_call_add_roll; eauto.
  - eapply ages_call_reroll; eauto.
  - eapply outlives_roll_another; eauto.
  - eapply outlives_operate; eauto.
Qed.

Lemma ages_mutate_all ms : forall n w n' w',
  mutate_all ms n w = Ok (n', w') -> ages n n'.
Proof.
  induction ms as [| m rest IH]; simpl; intros n w n' w' H.
  - injection H as <- <-. apply ages_refl.
  - apply bind_Ok in H as (n1 & w1 & H1 & H).
    eapply ages_trans; [eapply ages_mutate; eauto | eauto].
Qed.

Lemma outlives_operate_all fuel operators : forall t w t' w',
  operate_all fuel operators t w = Ok (t', w') -> outlives t t'.
Proof.
  induction operators as [| o rest IH]; simpl; intros t w t' w' H.
  - injection H as <- <-. apply outlives_refl.
  - apply bind_Ok in H as (t1 & w1 & H1 & H).
    eapply outlives_trans; [eapply outlives_operate; eauto | eauto].
Qed.

Lemma kept_drop n : kept (drop n) = false.
Proof. destruct n; reflexivity. Qed.

(** The specification's sentence, read for every node, fails on a kept
    [Parenthetical] whose child was dropped: keep with the selector ">6"
    applied to [(5)] drops the literal, after which the parenthetical is
    still kept, its [number] is 5 and its [total] is 0. *)
Lemma Parenthetical_total_is_not_number :
  exists p,
    SetOperator.keep keep_above_6 (Parenthetical true (lit 5) []) = Ok p /\
    kept p = true /\
    number p = Ok (PInt 5) /\
    total p = Ok (PInt 0) /\
    total p <> number p.
Proof.
  eexists. split; [reflexivity |].
  repeat split; try reflexivity. discriminate.
Qed.

(** C1 (amended). For every node that is not a [Parenthetical], [total]
    is [number] when the node is kept and 0 when it is not; the [total] of
    a [Parenthetical] is its child's [total] when it is kept and 0 when it
    is not.  After [drop], [total] reads 0, and it still reads 0 after any
    sequence of the core's mutating calls on the node; a dropped member of
    a container is still a dropped member, with total 0, after any
    operator was applied to the container. *)
Theorem total_is_zero_once_dropped :
  (forall n, is_parenthetical n = false ->
             total n = if kept n then number n else Ok (PInt 0)) /\
  (forall k v ops,
      total (Parenthetical k v ops) = if k then total v else Ok (PInt 0)) /\
  (forall n, kept (drop n) = false /\ total (drop n) = Ok (PInt 0)) /\
  (forall ms n w n' w',
      mutate_all ms (drop n) w = Ok (n', w') ->
      kept n' = false /\ total n' = Ok (PInt 0)) /\
  (forall fuel self target w target' w' i x,
      SetOperator.operate fuel self target w = Ok (target', w') ->
      member_at i target = Some x -> kept x = false ->
      exists x', member_at i target' = Some x' /\
                 kept x' = false /\ total x' = Ok (PInt 0)).
Proof.
  split; [exact total_inherited |].
  split; [exact total_Parenthetical |].
  split; [intros n; split; [apply kept_drop | apply total_not_kept, kept_drop] |].
  split.
  - intros ms n w n' w' H. apply ages_mutate_all in H as [_ Hk].
    specialize (Hk (kept_drop n)). auto using total_not_kept.
  - intros fuel self target w target' w' i x H Hm Hk.
    apply outlives_operate in H as [_ Hmem].
    destruct (Hmem i x Hm) as (x' & Hm' & _ & Hk').
    exists x'. auto using total_not_kept.
Qed.

Lemma total_is_zero_once_dropped_witness :
  exists n' w',
    mutate_all [Reroll; ForceValue (PInt 9); Explode; Operate 5 reroll_ones]
               (drop (Die (die_showing 20 7))) (world_of [3; 11])
    = Ok (n', w') /\
    kept n' = false /\ total n' = Ok (PInt 0).
Proof.
  eexists. eexists. split; [vm_compute; reflexivity |].
  eapply (proj1 (proj2 (proj2 (proj2 total_is_zero_once_dropped)))
            [Reroll; ForceValue (PInt 9); Explode; Operate 5 reroll_ones]
            (Die (die_showing 20 7)) (world_of [3; 11])).
  vm_compute; reflexivity.
Defined.

(** ** select *)

Lemma select_picks_kept self target chosen i :
  SetOperator.select self target = Ok chosen -> In i chosen ->
  exists x, member_at i target = Some x /\ kept x = true.
Proof.
  unfold SetOperator.select. intros H Hi.
  apply (select_from_In _ _ _ _ i H) in Hi as [[] | (s & p & _ & Hs & Hp)].
  eapply selector_picks_kept; eauto.
Qed.

(** C8. [SetOperator.select] returns the union of what its selectors
    select: a member is in it exactly when some selector selects it.
    Whatever its category, a selector selects kept members of the target
    only; so a member that is dropped is in no selection, and stays out of
    every selection made after further operators were applied to the
    container. *)
Theorem select_is_union_over_keptset target :
  (forall self chosen i,
      SetOperator.select self target = Ok chosen ->
      (In i chosen <->
       exists selector picked,
         In selector (sels self) /\
         SetSelector.select selector target = Ok picked /\ In i picked)) /\
  (forall selector picked i,
      SetSelector.select selector target = Ok picked -> In i picked ->
      exists x, member_at i target = Some x /\ kept x = true) /\
  (forall self chosen i x,
      SetOperator.select self target = Ok chosen ->
      member_at i target = Some x -> kept x = false -> ~ In i chosen) /\
  (forall fuel between w target' w' later chosen i x,
      member_at i target = Some x -> kept x = false ->
      operate_all fuel between target w = Ok (target', w') ->
      SetOperator.select later target' = Ok chosen -> ~ In i chosen).
Proof.
  repeat split.
  - intros Hi. apply (select_from_In _ _ _ _ i H) in Hi as [[] | Hi]. exact Hi.
  - intros Hi. apply (select_from_In _ _ _ _ i H). now right.
  - intros selector picked i. apply selector_picks_kept.
  - intros self chosen i x Hs Hm Hk Hi.
    destruct (select_picks_kept _ _ _ _ Hs Hi) as (y & Hy & Hky). congruence.
  - intros fuel between w target' w' later chosen i x Hm Hk Hop Hs Hi.
    apply outlives_operate_all in Hop as [_ Hmem].
    destruct (Hmem i x Hm) as (x' & Hm' & _ & Hk').
    destruct (select_picks_kept _ _ _ _ Hs Hi) as (y & Hy & Hky).
    specialize (Hk' Hk). congruence.
Qed.

Lemma select_is_union_over_keptset_witness :
  exists target' w' chosen,
    operate_all 5 [keep_highest_2; reroll_ones] pool_first_dropped
                (world_of [4]) = Ok (target', w') /\
    SetOperator.select lowest_1 target' = Ok chosen /\
    ~ In 0%nat chosen.
Proof.
  eexists. eexists. eexists.
  split; [vm_compute; reflexivity |]. split; [vm_compute; reflexivity |].
  eapply (proj2 (proj2 (proj2 (select_is_union_over_keptset
                                 pool_first_dropped)))
            5%nat [keep_highest_2; reroll_ones] (world_of [4]) _ _ lowest_1
            _ 0%nat (drop (Die (die_showing 6 1))) eq_refl eq_refl).
  - vm_compute; reflexivity.
  - vm_compute; reflexivity.
Defined.

(** ** The stable sort commutes with removing members *)

Section StableSort.

Variable follows : pynum -> pynum -> bool.

Let ahead (a b : nat * pynum) : Prop := follows (snd a) (snd b) = false.

Hypothesis ahead_trans : forall a b c, ahead a b -> ahead b c -> ahead a c.
Hypothesis follows_asym :
  forall a b, follows (snd a) (snd b) = true -> ahead b a.

Lemma insert_by_ahead x l :
  Forall (ahead x) l -> SetSelector.insert_by follows x l = x :: l.
Proof.
  destruct l as [| y l]; simpl; auto.
  intros H. inversion H as [| ? ? Hy _]; subst. unfold ahead in Hy.
  now rewrite Hy.
Qed.

Lemma insert_by_sorted x l :
  StronglySorted ahead l ->
  StronglySorted ahead (SetSelector.insert_by follows x l).
Proof.
  induction 1 as [| y l Hs IH Hy]; simpl.
  - constructor; constructor.
  - destruct (follows (snd x) (snd y)) eqn:E.
    + constructor; auto. apply Forall_forall. intros z Hz.
      apply In_insert_by in Hz as [-> | Hz].
      * now apply follows_asym.
      * rewrite Forall_forall in Hy. auto.
    + constructor; [constructor; auto |].
      constructor; auto. eapply Forall_impl; [| exact Hy].
      intros z Hz. eapply ahead_trans; eauto.
Qed.

Lemma fold_insert_sorted l :
  StronglySorted ahead (fold_right (SetSelector.insert_by follows) [] l).
Proof.
  induction l; simpl; [constructor | now apply insert_by_sorted].
Qed.

Lemma filter_insert_by q x l :
  StronglySorted ahead l ->
  filter q (SetSelector.insert_by follows x l) =
  if q x then SetSelector.insert_by follows x (filter q l) else filter q l.
Proof.
  induction 1 as [| y l Hs IH Hy]; simpl.
  - now destruct (q x).
  - destruct (follows (snd x) (snd y)) eqn:E; simpl.
    + rewrite IH. destruct (q y), (q x); simpl; rewrite ?E; auto.
    + destruct (q x) eqn:Hx; auto.
      symmetry. apply insert_by_ahead.
      apply Forall_forall. intros z Hz.
      assert (Hin : In z (y :: l)).
      { change (In z (filter q (y :: l))) in Hz.
        now apply filter_In in Hz. }
      destruct Hin as [<- | Hin]; [exact E |].
      rewrite Forall_forall in Hy. eapply ahead_trans; [exact E | auto].
Qed.

Lemma filter_fold_insert q l :
  filter q (fold_right (SetSelector.insert_by follows) [] l) =
  fold_right (SetSelector.insert_by follows) [] (filter q l).
Proof.
  induction l as [| x l IH]; simpl; auto.
  rewrite filter_insert_by by apply fold_insert_sorted.
  rewrite IH. now destruct (q x).
Qed.

End StableSort.

Lemma ltb_trans_false a b c :
  Py.ltb b a = false -> Py.ltb c b = false -> Py.ltb c a = false.
Proof.
  unfold Py.ltb. rewrite !negb_false_iff, !Qle_bool_iff.
  intros; eapply Qle_trans; eauto.
Qed.

Lemma ltb_asym a b : Py.ltb a b = true -> Py.ltb b a = false.
Proof.
  unfold Py.ltb. rewrite negb_true_iff, negb_false_iff, Qle_bool_iff.
  intros H. apply Qlt_le_weak, Qnot_le_lt. intros H'.
  apply Qle_bool_iff in H'. congruence.
Qed.

Lemma filter_sorted reverse q l :
  filter q (SetSelector.sorted reverse l) = SetSelector.sorted reverse (filter q l).
Proof.
  unfold SetSelector.sorted. apply filter_fold_insert.
  - intros a b c. destruct reverse.
    + intros H1 H2. eapply ltb_trans_false; eauto.
    + intros H1 H2. eapply ltb_trans_false; eauto.
  - intros a b. destruct reverse; apply ltb_asym.
Qed.

(** ** The selection does not depend on members it leaves out *)

Lemma filter_other_than_id {A} i (l : list (nat * A)) :
  ~ In i (map fst l) -> filter (other_than i) l = l.
Proof.
  induction l as [| m l IH]; simpl; auto. intros H.
  unfold other_than at 1. destruct (Nat.eqb_spec (fst m) i); simpl.
  - exfalso; auto.
  - f_equal; auto.
Qed.

Lemma filter_kept_set_nth s : forall k i y,
  (i < List.length s)%nat -> kept y = false ->
  filter (fun m : member => kept (snd m))
         (combine (seq k (List.length (set_nth i y s))) (set_nth i y s)) =
  filter (other_than (k + i))
         (filter (fun m : member => kept (snd m))
                 (combine (seq k (List.length s)) s)).
Proof.
  induction s as [| x s IH]; simpl; intros k i y Hi Hy; [lia |].
  destruct i as [| i]; simpl.
  - rewrite Hy. rewrite Nat.add_0_r.
    assert (Hk : ~ In k (map fst (filter (fun m : member => kept (snd m))
                                    (combine (seq (S k) (List.length s)) s)))).
    { intros H. apply in_map_iff in H as ([j z] & Hj & H). simpl in Hj; subst j.
      apply filter_In in H as [H _]. apply In_combine_seq in H. lia. }
    destruct (kept x); simpl.
    + unfold other_than at 1; simpl. rewrite Nat.eqb_refl; simpl.
      now rewrite filter_other_than_id.
    + now rewrite filter_other_than_id.
  - rewrite IH by (auto; lia).
    replace (S k + i)%nat with (k + S i)%nat by lia.
    destruct (kept x); simpl; auto.
    unfold other_than at 2; simpl.
    destruct (Nat.eqb_spec k (k + S i)); [lia | reflexivity].
Qed.

Lemma keptset_drop_member t i x ks :
  member_at i t = Some x -> keptset t = Ok ks ->
  keptset (update_member drop i t) = Ok (filter (other_than i) ks).
Proof.
  intros Hm Hks. unfold update_member. rewrite Hm.
  unfold keptset, member_at in *.
  destruct (set t) as [s |] eqn:Hs; [| discriminate].
  rewrite (set_put_member t i (drop x) x s Hs Hm (proj1 (ages_drop x))).
  simpl in *. injection Hks as <-. f_equal. unfold enumerate.
  apply (filter_kept_set_nth s 0 i (drop x)).
  - apply nth_error_Some. congruence.
  - destruct x; reflexivity.
Qed.

Lemma where_total_other_than p i ks : forall r,
  SetSelector.where_total p ks = Ok r ->
  SetSelector.where_total p (filter (other_than i) ks)
  = Ok (filter (fun j => negb (Nat.eqb j i)) r).
Proof.
  induction ks as [| [j x] ks IH]; simpl; intros r H.
  - now injection H as <-.
  - apply rbind_Ok in H as (t & Ht & H). apply rbind_Ok in H as (r' & Hr & H).
    injection H as <-. specialize (IH _ Hr).
    change (other_than i (j, x)) with (negb (Nat.eqb j i)).
    destruct (Nat.eqb j i) eqn:E; simpl.
    + rewrite IH. destruct (p t); simpl; rewrite ?E; reflexivity.
    + rewrite Ht; simpl. rewrite IH; simpl.
      destruct (p t); simpl; rewrite ?E; reflexivity.
Qed.

Lemma filter_neq_id i (r : list nat) :
  ~ In i r -> filter (fun j => negb (Nat.eqb j i)) r = r.
Proof.
  induction r as [| j r IH]; simpl; auto. intros H.
  destruct (Nat.eqb_spec j i); simpl; [exfalso; auto | f_equal; auto].
Qed.

Lemma keyed_other_than i ks : forall keys,
  SetSelector.keyed ks = Ok keys ->
  SetSelector.keyed (filter (other_than i) ks)
  = Ok (filter (other_than i) keys).
Proof.
  induction ks as [| [j x] ks IH]; simpl; intros keys H.
  - now injection H as <-.
  - apply rbind_Ok in H as (t & Ht & H). apply rbind_Ok in H as (r' & Hr & H).
    injection H as <-. specialize (IH _ Hr).
    cbn [filter]. change (other_than i (j, x)) with (negb (Nat.eqb j i)).
    change (other_than i (j, t)) with (negb (Nat.eqb j i)).
    destruct (Nat.eqb j i); simpl.
    + exact IH.
    + rewrite Ht; simpl. now rewrite IH.
Qed.

Lemma firstn_other_than {A} i n : forall (l : list (nat * A)),
  ~ In i (map fst (firstn n l)) ->
  firstn n (filter (other_than i) l) = firstn n l.
Proof.
  induction n as [| n IH]; intros [| m l] H; simpl in *; auto.
  unfold other_than at 1. destruct (Nat.eqb_spec (fst m) i); simpl.
  - exfalso; auto.
  - f_equal. apply IH. auto.
Qed.

Lemma selector_select_other_than selector t t' ks i picked :
  takes_first selector = true ->
  keptset t = Ok ks -> keptset t' = Ok (filter (other_than i) ks) ->
  SetSelector.select selector t = Ok picked -> ~ In i picked ->
  SetSelector.select selector t' = Ok picked.
Proof.
  intros Hfirst Hks Hks'. unfold SetSelector.select.
  destruct (SetSelector.selectors (cat selector)) as [f |] eqn:Hf;
    [| discriminate].
  intros H Hi. apply rbind_Ok in H as (chosen & Hc & H). injection H as <-.
  rewrite In_pset_of in Hi.
  enough (E : f selector t' = Ok chosen) by now rewrite E.
  assert (Hpred : forall p,
             (let? ks := keptset t in SetSelector.where_total p ks)
             = Ok chosen ->
             (let? ks := keptset t' in SetSelector.where_total p ks)
             = Ok chosen).
  { intros p. rewrite Hks, Hks'. simpl. intros Hw.
    rewrite (where_total_other_than p i ks _ Hw). now rewrite filter_neq_id. }
  assert (Hrank : forall reverse,
             0 <= num selector ->
             (let? ks := keptset t in
              let? keys := SetSelector.keyed ks in
              Ok (map fst (slice_to (num selector)
                             (SetSelector.sorted reverse keys)))) = Ok chosen ->
             (let? ks := keptset t' in
              let? keys := SetSelector.keyed ks in
              Ok (map fst (slice_to (num selector)
                             (SetSelector.sorted reverse keys)))) = Ok chosen).
  { intros reverse Hn. rewrite Hks, Hks'. simpl. intros Hr.
    apply rbind_Ok in Hr as (keys & Hkeys & Hr). injection Hr as Hr.
    rewrite (keyed_other_than i ks _ Hkeys). simpl.
    rewrite <- filter_sorted. subst chosen.
    unfold slice_to in *. destruct (Z.ltb_spec (num selector) 0); [lia |].
    now rewrite firstn_other_than. }
  unfold takes_first, is_rank in Hfirst.
  unfold SetSelector.selectors in Hf.
  destruct (cat selector) as [c |].
  - destruct (String.eqb c "l") eqn:El.
    { injection Hf as <-. simpl in Hfirst. apply Z.leb_le in Hfirst.
      now apply Hrank. }
    destruct (String.eqb c "h") eqn:Eh.
    { injection Hf as <-. simpl in Hfirst. apply Z.leb_le in Hfirst.
      now apply Hrank. }
    destruct (String.eqb c "<"); [injection Hf as <-; now apply Hpred |].
    destruct (String.eqb c ">"); [injection Hf as <-; now apply Hpred |].
    discriminate.
  - injection Hf as <-. now apply Hpred.
Qed.

Lemma select_from_other_than selectors t t' ks i : forall out chosen,
  forallb takes_first selectors = true ->
  keptset t = Ok ks -> keptset t' = Ok (filter (other_than i) ks) ->
  SetOperator.select_from out selectors t = Ok chosen -> ~ In i chosen ->
  SetOperator.select_from out selectors t' = Ok chosen.
Proof.
  induction selectors as [| s rest IH]; simpl; intros out chosen Hf Hks Hks' H Hi;
    auto.
  apply andb_true_iff in Hf as [Hs Hrest].
  apply rbind_Ok in H as (picked & Hp & H).
  assert (Hip : ~ In i picked).
  { intros Hin. apply Hi. apply (select_from_In _ _ _ _ i H).
    left. apply In_pset_update. auto. }
  rewrite (selector_select_other_than s t t' ks i picked Hs Hks Hks' Hp Hip).
  simpl. eauto.
Qed.

Lemma keep_loop_one_shot self chosen values : forall t ks,
  forallb takes_first (sels self) = true ->
  keptset t = Ok ks ->
  SetOperator.select self t = Ok chosen ->
  SetOperator.keep_loop self values t
  = Ok (fold_left (fun t i => update_member drop i t)
                  (filter (fun i => negb (mem i chosen)) (map fst values)) t).
Proof.
  induction values as [| [i x] rest IH]; simpl; intros t ks Hf Hks Hsel; auto.
  rewrite Hsel; simpl. destruct (mem i chosen) eqn:Hi; simpl; [eauto |].
  destruct (member_at i t) as [y |] eqn:Hm.
  - eapply IH; eauto.
    + eapply keptset_drop_member; eauto.
    + unfold SetOperator.select in *.
      eapply select_from_other_than; eauto.
      * eapply keptset_drop_member; eauto.
      * intros Hin. apply mem_In in Hin. congruence.
  - assert (E : update_member drop i t = t) by (unfold update_member; now rewrite Hm).
    rewrite E. eauto.
Qed.

Lemma drop_drop x : drop (drop x) = drop x.
Proof. destruct x; reflexivity. Qed.

Lemma member_at_update_member f i j t x :
  (forall y, same_class y (f y)) ->
  member_at j t = Some x ->
  member_at j (update_member f i t) = Some (if Nat.eqb j i then f x else x).
Proof.
  intros Hf Hj. unfold update_member.
  destruct (member_at i t) as [y |] eqn:Hi.
  - destruct (Nat.eqb_spec j i) as [-> | Hne].
    + replace x with y by congruence.
      eapply member_at_put_member_eq; eauto.
    + rewrite <- Hj. eapply member_at_put_member_ne; eauto.
  - destruct (Nat.eqb_spec j i) as [-> | Hne]; [congruence | auto].
Qed.

Lemma member_at_drop_each J : forall t j x,
  member_at j t = Some x ->
  member_at j (fold_left (fun t i => update_member drop i t) J t)
  = Some (if mem j J then drop x else x).
Proof.
  induction J as [| i J IH]; simpl; intros t j x Hj; auto.
  rewrite (IH _ j _ (member_at_update_member drop i j t x
                       (fun y => proj1 (ages_drop y)) Hj)).
  destruct (Nat.eqb j i); simpl; [| reflexivity].
  rewrite drop_drop. now destruct (mem j J).
Qed.

Lemma mem_unselected_kept target values chosen i x :
  keptset target = Ok values -> member_at i target = Some x ->
  mem i (filter (fun i => negb (mem i chosen)) (map fst values))
  = kept x && negb (mem i chosen).
Proof.
  intros Hks Hm. apply eq_true_iff_eq.
  rewrite mem_In, filter_In, andb_true_iff, in_map_iff.
  split.
  - intros [([j y] & E & Hin) Hc]. simpl in E; subst j.
    apply (In_keptset _ _ _ _ Hks) in Hin as [Hy Hk].
    split; [congruence | auto].
  - intros [Hk Hc]. split; [| auto].
    exists (i, x). split; [reflexivity |]. now apply (In_keptset _ _ _ _ Hks).
Qed.

(** ** keep *)

(** C4 (amended). When no rank selector has a negative count, [keep] ends
    with exactly those kept members dropped that are outside the one-shot
    selection, every other member being left as it was; keep with the one
    selector highest-2 on the pool [1,2,3,4] drops the dice showing 1 and
    2 and leaves a total of 7. *)
Theorem keep_drops_the_unselected :
  (forall self target values chosen,
      forallb takes_first (sels self) = true ->
      keptset target = Ok values ->
      SetOperator.select self target = Ok chosen ->
      exists target',
        SetOperator.keep self target = Ok target' /\
        forall i x,
          member_at i target = Some x ->
          member_at i target'
          = Some (if kept x && negb (mem i chosen) then drop x else x)) /\
  (exists target',
      SetOperator.keep keep_highest_2 (pool 6 [1; 2; 3; 4]) = Ok target' /\
      set target' = Ok [drop (Die (die_showing 6 1));
                        drop (Die (die_showing 6 2));
                        Die (die_showing 6 3);
                        Die (die_showing 6 4)] /\
      total target' = Ok (PInt 7)).
Proof.
  split.
  - intros self target values chosen Hf Hks Hsel.
    unfold SetOperator.keep. rewrite Hks. simpl.
    rewrite (keep_loop_one_shot self chosen values target values Hf Hks Hsel).
    eexists. split; [reflexivity |].
    intros i x Hm. rewrite (member_at_drop_each _ _ _ _ Hm).
    now rewrite (mem_unselected_kept target values chosen i x Hks Hm).
  - eexists. split; [reflexivity |]. split; reflexivity.
Qed.

Lemma keep_drops_the_unselected_witness :
  exists target',
    SetOperator.keep keep_highest_2 (pool 6 [1; 2; 3; 4]) = Ok target' /\
    forall i x,
      member_at i (pool 6 [1; 2; 3; 4]) = Some x ->
      member_at i target'
      = Some (if kept x && negb (mem i [3; 2]%nat) then drop x else x).
Proof.
  exact (proj1 keep_drops_the_unselected keep_highest_2 (pool 6 [1; 2; 3; 4])
           (enumerate (map (fun z => Die (die_showing 6 z)) [1; 2; 3; 4]))
           [3; 2]%nat eq_refl eq_refl eq_refl).
Defined.

(** The specification's sentence, read for every selector, fails for a
    rank selector with a negative count: [keep] queries the selection
    again for every value, and with highest-(-1) on the pool [1,2,3,4] the
    one-shot selection holds the dice showing 4, 3 and 2, yet all four
    dice end up dropped. *)
Lemma keep_negative_count_drops_selected :
  SetOperator.select keep_highest_minus_1 (pool 6 [1; 2; 3; 4])
  = Ok [3; 2; 1]%nat /\
  exists target',
    SetOperator.keep keep_highest_minus_1 (pool 6 [1; 2; 3; 4]) = Ok target' /\
    member_at 3 target' = Some (drop (Die (die_showing 6 4))) /\
    keptset target' = Ok [].
Proof.
  split; [reflexivity |]. eexists. split; [reflexivity |].
  split; reflexivity.
Qed.

(** ** minimum and maximum *)

Lemma set_nth_middle {A} (pre : list A) x y rest :
  set_nth (List.length pre) y (pre ++ x :: rest) = pre ++ y :: rest.
Proof. induction pre as [| z pre IH]; simpl; congruence. Qed.

Lemma nth_error_middle {A} (pre : list A) x rest :
  nth_error (pre ++ x :: rest) (List.length pre) = Some x.
Proof. induction pre as [| z pre IH]; simpl; auto. Qed.

Lemma clamp_loop_pool exceeds bound k nm sz ops c rest : forall pre,
  forallb is_showing rest = true ->
  SetOperator.clamp_loop exceeds bound
    (filter (fun m : member => kept (snd m))
            (combine (seq (List.length pre) (List.length rest)) rest))
    (Dice k nm sz (pre ++ rest) ops c)
  = Ok (Dice k nm sz (pre ++ map (clamped exceeds bound) rest) ops c).
Proof.
  induction rest as [| m rest IH]; simpl; intros pre Hs; auto.
  apply andb_true_iff in Hs as [Hm Hs].
  assert (Hnext : forall m',
             SetOperator.clamp_loop exceeds bound
               (filter (fun m : member => kept (snd m))
                  (combine (seq (S (List.length pre)) (List.length rest)) rest))
               (Dice k nm sz (pre ++ m' :: rest) ops c)
             = Ok (Dice k nm sz
                     (pre ++ m' :: map (clamped exceeds bound) rest) ops c)).
  { intros m'. specialize (IH (pre ++ [m']) Hs).
    rewrite length_app, Nat.add_1_r, <- !app_assoc in IH. exact IH. }
  destruct m as [| | | | | | | d]; try discriminate Hm. simpl in Hm.
  destruct (Die.number d) as [v |] eqn:Hv; [| discriminate].
  simpl. rewrite Hv.
  destruct (Die.kept d) eqn:Hk; simpl; [| apply Hnext].
  unfold member_at; simpl. rewrite nth_error_middle.
  unfold number; simpl. rewrite Hv; simpl.
  destruct (exceeds v); simpl; [| apply Hnext].
  rewrite set_nth_middle. apply Hnext.
Qed.

Lemma minimum_pool self selector k nm sz vs ops c :
  last_opt (sels self) = Some selector -> cat selector = None ->
  forallb is_showing vs = true ->
  SetOperator.minimum self (Dice k nm sz vs ops c)
  = Ok (Dice k nm sz
          (map (clamped (fun n => Py.ltb n (PInt (num selector)))
                        (PInt (num selector))) vs) ops c).
Proof.
  intros Hl Hc Hs. unfold SetOperator.minimum. rewrite Hl, Hc.
  unfold keptset; simpl. unfold enumerate.
  exact (clamp_loop_pool _ _ k nm sz ops c vs [] Hs).
Qed.

Lemma maximum_pool self selector k nm sz vs ops c :
  last_opt (sels self) = Some selector -> cat selector = None ->
  forallb is_showing vs = true ->
  SetOperator.maximum self (Dice k nm sz vs ops c)
  = Ok (Dice k nm sz
          (map (clamped (fun n => Py.ltb (PInt (num selector)) n)
                        (PInt (num selector))) vs) ops c).
Proof.
  intros Hl Hc Hs. unfold SetOperator.maximum. rewrite Hl, Hc.
  unfold keptset; simpl. unfold enumerate.
  exact (clamp_loop_pool _ _ k nm sz ops c vs [] Hs).
Qed.

Lemma force_value_history d l v :
  last_opt (Die.values d) = Some l ->
  last_opt (Die.values (Die.force_value v d))
  = Some (Literal.mk (Literal.kept l) (Literal.values l ++ [v])
                     (Literal.exploded l)).
Proof.
  intros H. unfold Die.force_value. rewrite H. simpl.
  eapply last_opt_set_last; eauto.
Qed.

(** C7. Let the operator have a last selector.  On a pool of dice that
    show a value, [minimum] (resp. [maximum]) fails with the error
    "<selector> is not a valid selector for minimums." (resp. maximums)
    exactly when that selector has a category, and it does so on any
    target; when the selector is a plain number, one pass appends the
    number to the current literal of every kept die whose value is below
    (resp. above) it and leaves the other dice alone, and the forced
    value is appended after the values the literal already held. *)
Theorem minimum_maximum_clamp self selector k nm sz vs ops c :
  last_opt (sels self) = Some selector ->
  forallb is_showing vs = true ->
  let target := Dice k nm sz vs ops c in
  let bound := PInt (num selector) in
  (SetOperator.minimum self target
     = Err (SetOperator.invalid_selector selector "minimums")
   <-> cat selector <> None) /\
  (SetOperator.maximum self target
     = Err (SetOperator.invalid_selector selector "maximums")
   <-> cat selector <> None) /\
  (forall any,
      cat selector <> None ->
      SetOperator.minimum self any
        = Err (SetOperator.invalid_selector selector "minimums") /\
      SetOperator.maximum self any
        = Err (SetOperator.invalid_selector selector "maximums")) /\
  (cat selector = None ->
   SetOperator.minimum self target
     = Ok (Dice k nm sz (map (clamped (fun n => Py.ltb n bound) bound) vs)
                ops c) /\
   SetOperator.maximum self target
     = Ok (Dice k nm sz (map (clamped (fun n => Py.ltb bound n) bound) vs)
                ops c)) /\
  (forall d l v,
      last_opt (Die.values d) = Some l ->
      last_opt (Die.values (Die.force_value v d))
      = Some (Literal.mk (Literal.kept l) (Literal.values l ++ [v])
                         (Literal.exploded l))).
Proof.
  intros Hl Hs target bound.
  assert (Herr : forall any,
             cat selector <> None ->
             SetOperator.minimum self any
               = Err (SetOperator.invalid_selector selector "minimums") /\
             SetOperator.maximum self any
               = Err (SetOperator.invalid_selector selector "maximums")).
  { intros any Hc. unfold SetOperator.minimum, SetOperator.maximum.
    rewrite Hl. destruct (cat selector); [auto | congruence]. }
  assert (Hok : cat selector = None ->
                SetOperator.minimum self target
                  = Ok (Dice k nm sz
                          (map (clamped (fun n => Py.ltb n bound) bound) vs)
                          ops c) /\
                SetOperator.maximum self target
                  = Ok (Dice k nm sz
                          (map (clamped (fun n => Py.ltb bound n) bound) vs)
                          ops c)).
  { intros Hc. split; [eapply minimum_pool | eapply maximum_pool]; eauto. }
  split; [| split; [| split; [exact Herr | split; [exact Hok |]]]].
  - split; [| intros Hc; now apply Herr].
    intros E Hc. destruct (Hok Hc) as [E' _]. congruence.
  - split; [| intros Hc; now apply Herr].
    intros E Hc. destruct (Hok Hc) as [_ E']. congruence.
  - apply force_value_history.
Qed.

Lemma minimum_maximum_clamp_witness :
  exists target',
    SetOperator.minimum minimum_3 (pool 6 [1; 5]) = Ok target' /\
    set target'
    = Ok [Die (Die.mk true 6 [Literal.mk true [PInt 1; PInt 3] false] None);
          Die (die_showing 6 5)] /\
    member_at 0 target'
    = Some (Die (Die.force_value (PInt 3) (die_showing 6 1))) /\
    total (Die (Die.force_value (PInt 3) (die_showing 6 1))) = Ok (PInt 3) /\
    SetOperator.minimum minimum_highest_1 (pool 6 [1; 5])
    = Err (RollValueError "h1 is not a valid selector for minimums.").
Proof.
  eexists. split.
  - exact (proj1 (proj1 (proj2 (proj2 (proj2
             (minimum_maximum_clamp minimum_3 (mkSetSelector None 3)
                true 2 6 (map (fun z => Die (die_showing 6 z)) [1; 5])
                [] None eq_refl eq_refl)))) eq_refl)).
  - split; [reflexivity | split; [reflexivity | split; [reflexivity |]]].
    exact (proj1 (proj1 (proj2 (proj2
             (minimum_maximum_clamp minimum_highest_1
                (mkSetSelector (Some "h") 1) true 2 6
                (map (fun z => Die (die_showing 6 z)) [1; 5]) [] None
                eq_refl eq_refl)))
             (pool 6 [1; 5]) ltac:(discriminate))).
Defined.

(** ** reroll *)

Lemma reroll_loop_ends self fuel : forall chosen t w t' w',
  SetOperator.select self t = Ok chosen ->
  SetOperator.reroll_loop fuel self chosen t w = Ok (t', w') ->
  SetOperator.select self t' = Ok [].
Proof.
  induction fuel as [| fuel IH]; intros [| i rest] t w t' w' Hsel H;
    simpl in H; try discriminate;
    try (unfold ret in H; injection H as <- <-; exact Hsel).
  apply bind_Ok in H as (t1 & w1 & H1 & H).
  apply bind_Ok in H as (again & w2 & Ha & H).
  apply lift_Ok in Ha as [Ha ->]. eauto.
Qed.

Lemma reroll_ends fuel self t w t' w' :
  SetOperator.reroll fuel self t w = Ok (t', w') ->
  SetOperator.select self t' = Ok [].
Proof.
  unfold SetOperator.reroll. intros H.
  apply bind_Ok in H as (chosen & w1 & Hc & H).
  apply lift_Ok in Hc as [Hc ->]. eapply reroll_loop_ends; eauto.
Qed.

Lemma pset_of_nil xs : pset_of xs = [] -> xs = [].
Proof.
  intros H. destruct xs as [| x xs]; auto.
  assert (Hin : In x (pset_of (x :: xs))) by (apply In_pset_of; now left).
  rewrite H in Hin. destruct Hin.
Qed.

Lemma where_total_nil p ks :
  SetSelector.where_total p ks = Ok [] ->
  forall i x, In (i, x) ks -> exists v, total x = Ok v /\ p v = false.
Proof.
  induction ks as [| [j y] ks IH]; simpl; intros H i x Hin; [contradiction |].
  apply rbind_Ok in H as (t & Ht & H). apply rbind_Ok in H as (r & Hr & H).
  destruct (p t) eqn:Hp; [discriminate |]. injection H as ->.
  destruct Hin as [[= <- <-] | Hin]; eauto.
Qed.

Lemma selector_select_nil selector p target :
  predicate_of selector = Some p ->
  SetSelector.select selector target = Ok [] ->
  forall i x, member_at i target = Some x -> kept x = true ->
              exists v, total x = Ok v /\ p v = false.
Proof.
  unfold SetSelector.select, predicate_of, SetSelector.selectors.
  intros Hp H i x Hm Hk.
  assert (Hw : (let? ks := keptset target in SetSelector.where_total p ks)
               = Ok []).
  { assert (Hnil : forall r : result (list nat),
               (let? chosen := r in Ok (pset_of chosen)) = Ok [] -> r = Ok []).
    { intros r Hr. apply rbind_Ok in Hr as (chosen & -> & Hr).
      injection Hr as Hr. now rewrite (pset_of_nil _ Hr). }
    destruct (cat selector) as [c |].
    - destruct (String.eqb c "<") eqn:E1.
      + apply String.eqb_eq in E1; subst c. injection Hp as <-.
        exact (Hnil _ H).
      + destruct (String.eqb c ">") eqn:E2; [| discriminate Hp].
        apply String.eqb_eq in E2; subst c. injection Hp as <-.
        exact (Hnil _ H).
    - injection Hp as <-. exact (Hnil _ H). }
  apply rbind_Ok in Hw as (ks & Hks & Hw).
  apply (where_total_nil p ks Hw i x).
  apply (In_keptset _ _ _ _ Hks). auto.
Qed.

Lemma select_nil self target selector :
  SetOperator.select self target = Ok [] -> In selector (sels self) ->
  SetSelector.select selector target = Ok [].
Proof.
  unfold SetOperator.select. generalize (@nil nat) at 1.
  induction (sels self) as [| s rest IH]; simpl; intros out H Hin;
    [contradiction |].
  apply rbind_Ok in H as (picked & Hp & H).
  assert (Hout : pset_update out picked = []).
  { destruct (pset_update out picked) as [| j l] eqn:E; auto.
    assert (Hj : In j []).
    { apply (select_from_In _ _ _ _ j H). left. now left. }
    destruct Hj. }
  destruct Hin as [<- | Hin]; [| eauto].
  rewrite Hp. f_equal. destruct picked as [| j l]; auto.
  assert (Hj : In j (pset_update out (j :: l))).
  { apply In_pset_update. right. now left. }
  rewrite Hout in Hj. destruct Hj.
Qed.

Lemma Die_reroll_history d l w d' w' :
  last_opt (Die.values d) = Some l ->
  Die.reroll d w = Ok (d', w') ->
  exists v, 1 <= v <= Die.size d /\
    Die.values d' = set_last (Literal.drop l) (Die.values d)
                      ++ [Literal.new (PInt v)] /\
    Die.kept d' = Die.kept d /\
    Die.number d' = Ok (PInt v).
Proof.
  intros Hl. unfold Die.reroll, Die.drop_current. rewrite Hl.
  unfold Die._add_roll. simpl.
  destruct (Die.size d <? 1) eqn:Hsize; [discriminate |].
  apply Z.ltb_ge in Hsize. intros H.
  apply bind_Ok in H as ([] & w1 & _ & H).
  unfold bind, randrange, ret in H. injection H as <- <-.
  exists (tape w1 (cursor w1) mod Die.size d + 1). simpl.
  split; [pose proof (Z.mod_pos_bound (tape w1 (cursor w1)) (Die.size d)); lia |].
  split; [reflexivity |]. split; [reflexivity |].
  unfold Die.number. simpl. now rewrite last_opt_app.
Qed.

Lemma reroll_loop_more_fuel self extra fuel : forall chosen t w r,
  SetOperator.reroll_loop fuel self chosen t w = Ok r ->
  SetOperator.reroll_loop (fuel + extra) self chosen t w = Ok r.
Proof.
  induction fuel as [| fuel IH]; intros [| i rest] t w [t' w'] H;
    cbn [SetOperator.reroll_loop Nat.add] in *; try discriminate; auto.
  - destruct extra; exact H.
  - apply bind_Ok in H as (t1 & w1 & H1 & H).
    apply bind_Ok in H as (again & w2 & Ha & H).
    unfold bind. rewrite H1, Ha. now apply IH.
Qed.

(** C5. When [reroll] returns, the selection it queries last is empty:
    no selector of the operator selects a kept member any more, so for a
    threshold or equality selector no kept member's total satisfies the
    test (after reroll-on-1 no kept die shows 1).  The result does not
    depend on the fuel left over.  The loop stops on an empty selection
    and otherwise runs a pass and queries the selection again.  Each
    [Die.reroll] drops the die's current literal and appends a freshly
    rolled one, which becomes the die's value. *)
Theorem reroll_until_nothing_selected fuel self target w target' w' :
  SetOperator.reroll fuel self target w = Ok (target', w') ->
  SetOperator.select self target' = Ok [] /\
  (forall selector p i x,
      In selector (sels self) -> predicate_of selector = Some p ->
      member_at i target' = Some x -> kept x = true ->
      exists v, total x = Ok v /\ p v = false) /\
  (forall extra,
      SetOperator.reroll (fuel + extra) self target w = Ok (target', w')) /\
  (forall fuel' t w1, SetOperator.reroll_loop fuel' self [] t w1 = Ok (t, w1)) /\
  (forall fuel' i rest t w1,
      SetOperator.reroll_loop (S fuel') self (i :: rest) t w1
      = bind (SetOperator.reroll_pass (i :: rest) t)
          (fun t' =>
             bind (lift (SetOperator.select self t'))
               (fun again => SetOperator.reroll_loop fuel' self again t'))
          w1) /\
  (forall d l w1 d' w1',
      last_opt (Die.values d) = Some l ->
      Die.reroll d w1 = Ok (d', w1') ->
      exists v, 1 <= v <= Die.size d /\
        Die.values d' = set_last (Literal.drop l) (Die.values d)
                          ++ [Literal.new (PInt v)] /\
        Die.kept d' = Die.kept d /\
        Die.number d' = Ok (PInt v)).
Proof.
  intros H. pose proof (reroll_ends _ _ _ _ _ _ H) as Hend.
  split; [exact Hend |].
  split; [| split; [| split; [intros f; destruct f; reflexivity |
                              split; [reflexivity |]]]].
  - intros selector p i x Hin Hp Hm Hk.
    eapply selector_select_nil; eauto. eapply select_nil; eauto.
  - intros extra. unfold SetOperator.reroll in *.
    apply bind_Ok in H as (chosen & w1 & Hc & H).
    unfold bind. rewrite Hc. now apply reroll_loop_more_fuel.
  - apply Die_reroll_history.
Qed.

Lemma reroll_until_nothing_selected_witness :
  exists target' w',
    SetOperator.reroll 4 reroll_ones (pool 20 [1; 5; 1])
                       (world_of [0; 0; 3; 20; 7]) = Ok (target', w') /\
    SetOperator.select reroll_ones target' = Ok [] /\
    (let? s := set target' in Ok (map total s))
    = Ok [Ok (PInt 4); Ok (PInt 5); Ok (PInt 8)].
Proof.
  eexists. eexists. split; [vm_compute; reflexivity |].
  split; [| vm_compute; reflexivity].
  eapply proj1.
  eapply (reroll_until_nothing_selected 4 reroll_ones
            (pool 20 [1; 5; 1]) (world_of [0; 0; 3; 20; 7])).
  vm_compute; reflexivity.
Defined.

(** ** explode *)


Lemma pset_update_fresh xs : forall s,
  NoDup (s ++ xs) -> pset_update s xs = s ++ xs.
Proof.
  unfold pset_update.
  induction xs as [| x xs IH]; simpl; intros s H; [now rewrite app_nil_r |].
  assert (Hx : mem x s = false).
  { destruct (mem x s) eqn:E; auto. apply mem_In in E.
    apply NoDup_remove_2 in H. exfalso. apply H. apply in_or_app. now left. }
  unfold pset_add at 2. rewrite Hx.
  rewrite IH; rewrite <- app_assoc; simpl; auto.
Qed.

Lemma pset_of_fresh xs : NoDup xs -> pset_of xs = xs.
Proof. intros H. unfold pset_of. now rewrite pset_update_fresh. Qed.








Lemma filter_none {A} (f : A -> bool) l :
  (forall x, In x l -> f x = false) -> filter f l = [].
Proof.
  induction l as [| x l IH]; simpl; intros H; auto.
  rewrite (H x (or_introl eq_refl)). apply IH. auto.
Qed.








(** ** Converting an [int] to a double *)











(** ** BinOp: division by zero *)



















(** ** Die: one roll *)

(** C3. [Die._add_roll] on a die of fewer than one face fails with the
    roll-value error "Cannot roll a 0-sided die.".  Otherwise it first
    counts the roll on the attached context, if there is one (a failure of
    the context is passed on unchanged), then reads [random.randrange(size)]
    and appends a fresh literal holding that draw plus one, a value [v]
    with [1 <= v <= size]; nothing else of the die changes. *)
Theorem Die_add_roll_in_range (d : Die.t) (w : world) :
  if Die.size d <? 1
  then Die._add_roll d w = Err (RollValueError "Cannot roll a 0-sided die.")
  else
    match (match Die._context d with
           | Some _ => notify w
           | None => Ok (tt, w)
           end) with
    | Err e => Die._add_roll d w = Err e
    | Ok (_, counted) =>
        exists v,
          1 <= v <= Die.size d /\
          v = tape w (cursor w) mod Die.size d + 1 /\
          Die._add_roll d w =
            Ok (Die.mk (Die.kept d) (Die.size d)
                       (Die.values d ++ [Literal.new (PInt v)])
                       (Die._context d),
                mkWorld (tape w) (S (cursor w)) (context counted))
    end.
Proof.
  unfold Die._add_roll.
  destruct (Die.size d <? 1) eqn:Hsize; [reflexivity |].
  apply Z.ltb_ge in Hsize.
  assert (Hrange : 1 <= tape w (cursor w) mod Die.size d + 1 <= Die.size d).
  { pose proof (Z.mod_pos_bound (tape w (cursor w)) (Die.size d)). lia. }
  unfold bind.
  destruct (Die._context d) as [c |].
  - unfold notify. destruct (count_roll (context w)) as [c' | e]; [| reflexivity].
    eexists; split; [exact Hrange | split; reflexivity].
  - unfold ret. eexists; split; [exact Hrange | split; reflexivity].
Qed.

(** ** Canonical text forms *)

Lemma string_app_assoc (a b c : string) :
  ((a ++ b) ++ c = a ++ (b ++ c))%string.
Proof. induction a; simpl; congruence. Qed.

Lemma concat_empty_cons (x : string) (xs : list string) :
  String.concat "" (x :: xs) = (x ++ String.concat "" xs)%string.
Proof.
  destruct xs as [| y ys]; simpl.
  - induction x; simpl; congruence.
  - reflexivity.
Qed.

(** C9. A selector prints as its category code, when it has one, followed
    by its number (highest-2 is "h2", equality-6 is "6"); an operator
    prints, for each of its selectors in turn, as the op code followed by
    that selector's form, so keep with the one selector highest-2 is
    exactly "kh2". *)
Theorem canonical_text_form :
  (forall a c n,
      SetSelector.str (mkSetSelector (Some (String a c)) n)
      = (String a c ++ Py.str_int n)%string) /\
  (forall n, SetSelector.str (mkSetSelector None n) = Py.str_int n) /\
  SetSelector.str (mkSetSelector (Some "h") 2) = "h2" /\
  SetSelector.str (mkSetSelector None 6) = "6" /\
  (forall o, SetOperator.str (mkSetOperator o []) = "") /\
  (forall o sel rest,
      SetOperator.str (mkSetOperator o (sel :: rest))
      = (o ++ SetSelector.str sel ++ SetOperator.str (mkSetOperator o rest))
          %string) /\
  (forall o sel,
      SetOperator.str (mkSetOperator o [sel])
      = (o ++ SetSelector.str sel)%string) /\
  SetOperator.str (mkSetOperator "k" [mkSetSelector (Some "h") 2]) = "kh2".
Proof.
  repeat split; try reflexivity.
  intros o sel rest. unfold SetOperator.str. cbn [sels op map].
  rewrite concat_empty_cons. apply string_app_assoc.
Qed.

(** ** Traversal by [children] *)

(** C10. [children] of a [Dice] and of a [Die] is the empty list, while
    [children] of a [Set_] is its [values]; a traversal that follows
    [children] from a dice pool therefore visits the pool alone, although
    [set] reaches the pool's dice and a die's current literal. *)
Theorem Dice_children_empty :
  (forall k nm sz vs ops c, children (Dice k nm sz vs ops c) = []) /\
  (forall d, children (Die d) = []) /\
  (forall k vs ops,
      children (Set_ k vs ops) = vs /\ set (Set_ k vs ops) = Ok vs) /\
  (forall k nm sz vs ops c m,
      visits (Dice k nm sz vs ops c) m -> m = Dice k nm sz vs ops c) /\
  (forall d m, visits (Die d) m -> m = Die d) /\
  (forall k nm sz vs ops c, set (Dice k nm sz vs ops c) = Ok vs) /\
  (forall d l, last_opt (Die.values d) = Some l -> set (Die d) = Ok [Literal l]).
Proof.
  repeat split.
  - intros k nm sz vs ops c m H. inversion H as [| c' m' Hin _]; subst; auto.
    destruct Hin.
  - intros d m H. inversion H as [| c' m' Hin _]; subst; auto. destruct Hin.
  - intros d l H. simpl. now rewrite H.
Qed.

Lemma Dice_children_empty_witness :
  let p := pool 6 [3; 5] in
  set p = Ok [Die (die_showing 6 3); Die (die_showing 6 5)] /\
  ~ visits p (Die (die_showing 6 3)).
Proof.
  split; [reflexivity |].
  intros H.
  pose proof (proj1 (proj2 (proj2 (proj2 Dice_children_empty)))
                _ _ _ _ _ _ _ H) as E.
  discriminate E.
Defined.

(** * Further properties of the code *)

(** ** drop, and how it composes with keep *)

Lemma select_after_drop_each self chosen J : forall t ks,
  forallb takes_first (sels self) = true ->
  keptset t = Ok ks ->
  SetOperator.select self t = Ok chosen ->
  (forall j, In j J -> ~ In j chosen) ->
  SetOperator.select self (drop_each J t) = Ok chosen /\
  exists ks', keptset (drop_each J t) = Ok ks'.
Proof.
  unfold drop_each.
  induction J as [| j J IH]; simpl; intros t ks Hf Hks Hsel HJ; [eauto |].
  destruct (member_at j t) as [y |] eqn:Hm.
  - eapply IH; eauto.
    + eapply keptset_drop_member; eauto.
    + unfold SetOperator.select in *.
      eapply select_from_other_than; eauto.
      eapply keptset_drop_member; eauto.
  - assert (E : update_member drop j t = t)
      by (unfold update_member; now rewrite Hm).
    rewrite E. eauto.
Qed.

(** X1. [SetOperator.drop] selects once and drops exactly the selected
    members: member [i] of the target becomes its dropped self when [i] is
    in the selection and is untouched otherwise; in particular a member
    that was already dropped is left as it was.  The call succeeds
    whenever the selection can be computed. *)
Theorem drop_drops_the_selected self target chosen :
  SetOperator.select self target = Ok chosen ->
  exists target',
    SetOperator.drop self target = Ok target' /\
    (forall i x,
        member_at i target = Some x ->
        member_at i target' = Some (if mem i chosen then drop x else x)) /\
    (forall i x,
        member_at i target = Some x -> kept x = false ->
        member_at i target' = Some x).
Proof.
  intros Hsel. unfold SetOperator.drop. rewrite Hsel. simpl.
  eexists. split; [reflexivity |]. split.
  - intros i x Hm. now apply member_at_drop_each.
  - intros i x Hm Hk. rewrite (member_at_drop_each _ _ _ _ Hm).
    destruct (mem i chosen) eqn:E; auto.
    apply mem_In in E.
    destruct (select_picks_kept _ _ _ _ Hsel E) as (y & Hy & Hky). congruence.
Qed.

Lemma drop_drops_the_selected_witness :
  exists target',
    SetOperator.drop drop_lowest_1 (pool 6 [3; 1; 4]) = Ok target' /\
    (forall i x,
        member_at i (pool 6 [3; 1; 4]) = Some x ->
        member_at i target' = Some (if mem i [1%nat] then drop x else x)) /\
    (forall i x,
        member_at i (pool 6 [3; 1; 4]) = Some x -> kept x = false ->
        member_at i target' = Some x).
Proof.
  exact (drop_drops_the_selected drop_lowest_1 (pool 6 [3; 1; 4]) [1%nat]
           eq_refl).
Defined.

Lemma kept_if_drop (b : bool) x : kept (if b then drop x else x) = negb b && kept x.
Proof. destruct b; simpl; [apply kept_drop | reflexivity]. Qed.

Lemma member_at_None_update f i j t :
  (forall y, same_class y (f y)) ->
  member_at j t = None -> member_at j (update_member f i t) = None.
Proof.
  intros Hf Hj. unfold update_member.
  destruct (member_at i t) as [y |] eqn:Hi; [| exact Hj].
  unfold member_at in *. destruct (set t) as [s |] eqn:Hs; [| discriminate].
  rewrite (set_put_member t i (f y) y s Hs Hi (Hf y)).
  apply nth_error_None. rewrite length_set_nth. now apply nth_error_None.
Qed.

Lemma member_at_None_drop_each J : forall t j,
  member_at j t = None -> member_at j (drop_each J t) = None.
Proof.
  unfold drop_each. induction J as [| i J IH]; simpl; intros t j Hj; auto.
  apply IH. apply member_at_None_update; auto.
  intros y. apply ages_drop.
Qed.

(** X2. [keep] is idempotent when every rank selector has a count that
    is not negative: after [keep], the operator selects the same members
    as before, and a second [keep] changes nothing. *)
Theorem keep_is_idempotent self target values chosen target' :
  forallb takes_first (sels self) = true ->
  keptset target = Ok values ->
  SetOperator.select self target = Ok chosen ->
  SetOperator.keep self target = Ok target' ->
  SetOperator.select self target' = Ok chosen /\
  SetOperator.keep self target' = Ok target'.
Proof.
  intros Hf Hks Hsel Hkeep.
  unfold SetOperator.keep in Hkeep. rewrite Hks in Hkeep. simpl in Hkeep.
  rewrite (keep_loop_one_shot self chosen values target values Hf Hks Hsel)
    in Hkeep.
  injection Hkeep as Ht'.
  destruct (select_after_drop_each self chosen
              (filter (fun i => negb (mem i chosen)) (map fst values))
              target values Hf Hks Hsel) as (Hsel' & ks' & Hks').
  { intros j Hj Hin. apply filter_In in Hj as [_ Hj].
    apply mem_In in Hin. now rewrite Hin in Hj. }
  fold (drop_each (filter (fun i => negb (mem i chosen)) (map fst values))
                  target) in Ht'.
  rewrite Ht' in Hsel', Hks'. split; [exact Hsel' |].
  unfold SetOperator.keep. rewrite Hks'. simpl.
  rewrite (keep_loop_one_shot self chosen ks' target' ks' Hf Hks' Hsel').
  replace (filter (fun i => negb (mem i chosen)) (map fst ks')) with (@nil nat);
    [reflexivity |].
  symmetry. apply filter_none. intros i Hi.
  apply in_map_iff in Hi as ([i' x'] & E & Hin). simpl in E; subst i'.
  apply (In_keptset _ _ _ _ Hks') in Hin as [Hm' Hk'].
  (* member i of target' is kept, so it was selected *)
  destruct (member_at i target) as [x |] eqn:Hm.
  - subst target'. unfold drop_each in Hm'.
    rewrite (member_at_drop_each _ _ _ _ Hm) in Hm'. injection Hm' as <-.
    rewrite (mem_unselected_kept target values chosen i x Hks Hm) in Hk'.
    rewrite kept_if_drop in Hk'.
    destruct (mem i chosen); auto.
    destruct (kept x); discriminate.
  - subst target'. rewrite (member_at_None_drop_each _ _ _ Hm) in Hm'.
    discriminate.
Qed.

Lemma keep_is_idempotent_witness :
  SetOperator.select keep_highest_2 pool_low_two_dropped = Ok [3; 2]%nat /\
  SetOperator.keep keep_highest_2 pool_low_two_dropped
  = Ok pool_low_two_dropped.
Proof.
  exact (keep_is_idempotent keep_highest_2 (pool 6 [1; 2; 3; 4])
           (members_of 6 [1; 2; 3; 4]) [3; 2]%nat pool_low_two_dropped
           eq_refl eq_refl eq_refl eq_refl).
Defined.

(** X3. [keep] and [drop] with the same selectors split the kept
    members of a target between them (every rank count not negative): a
    kept member survives [keep] exactly when it is selected, and survives
    [drop] exactly when it is not. *)
Theorem keep_and_drop_are_complementary self target values chosen i x :
  forallb takes_first (sels self) = true ->
  keptset target = Ok values ->
  SetOperator.select self target = Ok chosen ->
  member_at i target = Some x -> kept x = true ->
  exists kept_side dropped_side xk xd,
    SetOperator.keep self target = Ok kept_side /\
    SetOperator.drop self target = Ok dropped_side /\
    member_at i kept_side = Some xk /\
    member_at i dropped_side = Some xd /\
    kept xk = mem i chosen /\
    kept xd = negb (mem i chosen).
Proof.
  intros Hf Hks Hsel Hm Hk.
  unfold SetOperator.keep, SetOperator.drop. rewrite Hks, Hsel. simpl.
  rewrite (keep_loop_one_shot self chosen values target values Hf Hks Hsel).
  do 4 eexists. split; [reflexivity |]. split; [reflexivity |].
  rewrite !(member_at_drop_each _ _ _ _ Hm).
  rewrite (mem_unselected_kept target values chosen i x Hks Hm).
  split; [reflexivity |]. split; [reflexivity |].
  rewrite !kept_if_drop, Hk. split; destruct (mem i chosen); reflexivity.
Qed.

Lemma keep_and_drop_are_complementary_witness :
  exists kept_side dropped_side xk xd,
    SetOperator.keep keep_highest_2 (pool 6 [1; 2; 3; 4]) = Ok kept_side /\
    SetOperator.drop keep_highest_2 (pool 6 [1; 2; 3; 4]) = Ok dropped_side /\
    member_at 3 kept_side = Some xk /\
    member_at 3 dropped_side = Some xd /\
    kept xk = true /\
    kept xd = false.
Proof.
  exact (keep_and_drop_are_complementary keep_highest_2 (pool 6 [1; 2; 3; 4])
           (members_of 6 [1; 2; 3; 4]) [3; 2]%nat 3%nat
           (Die (die_showing 6 4)) eq_refl eq_refl eq_refl eq_refl eq_refl).
Defined.

(** X4. An operator with an empty selector list selects nothing: its
    [drop] leaves the target as it is, and its [keep] drops every member,
    so that no member is kept afterwards. *)
Theorem operators_without_selectors o target values :
  keptset target = Ok values ->
  SetOperator.select (no_selectors o) target = Ok [] /\
  SetOperator.drop (no_selectors o) target = Ok target /\
  exists target',
    SetOperator.keep (no_selectors o) target = Ok target' /\
    keptset target' = Ok [] /\
    forall i x, member_at i target = Some x ->
                member_at i target' = Some (drop x).
Proof.
  intros Hks. split; [reflexivity |]. split; [reflexivity |].
  assert (Hsel : SetOperator.select (no_selectors o) target = Ok [])
    by reflexivity.
  unfold SetOperator.keep. rewrite Hks. simpl.
  rewrite (keep_loop_one_shot (no_selectors o) [] values target values
             eq_refl Hks Hsel).
  eexists. split; [reflexivity |].
  assert (Hmem : forall i x,
             member_at i target = Some x ->
             member_at i (fold_left (fun t i => update_member drop i t)
                            (filter (fun i => negb (mem i [])) (map fst values))
                            target)
             = Some (drop x)).
  { intros i x Hm. rewrite (member_at_drop_each _ _ _ _ Hm).
    rewrite (mem_unselected_kept target values [] i x Hks Hm). simpl.
    rewrite andb_true_r. destruct (kept x) eqn:Hk; auto.
    destruct x; simpl in *; subst; try reflexivity;
      destruct l || destruct d; simpl in *; now subst. }
  split; [| exact Hmem].
  destruct (select_after_drop_each (no_selectors o) []
              (filter (fun i => negb (mem i [])) (map fst values))
              target values eq_refl Hks Hsel) as (_ & ks' & Hks').
  { intros j _ []. }
  unfold drop_each in Hks'. rewrite Hks'. f_equal.
  destruct ks' as [| [i x'] rest]; auto. exfalso.
  assert (Hin : In (i, x') ((i, x') :: rest)) by now left.
  apply (In_keptset _ _ _ _ Hks') in Hin as [Hm' Hk'].
  destruct (member_at i target) as [x |] eqn:Hm.
  - rewrite (Hmem i x Hm) in Hm'. injection Hm' as <-.
    rewrite kept_drop in Hk'. discriminate.
  - pose proof (member_at_None_drop_each
                  (filter (fun i => negb (mem i [])) (map fst values))
                  target i Hm) as Hn.
    unfold drop_each in Hn. congruence.
Qed.

Lemma operators_without_selectors_witness :
  SetOperator.select (no_selectors "k") (pool 6 [1; 2]) = Ok [] /\
  SetOperator.drop (no_selectors "k") (pool 6 [1; 2]) = Ok (pool 6 [1; 2]) /\
  exists target',
    SetOperator.keep (no_selectors "k") (pool 6 [1; 2]) = Ok target' /\
    keptset target' = Ok [] /\
    forall i x, member_at i (pool 6 [1; 2]) = Some x ->
                member_at i target' = Some (drop x).
Proof.
  exact (operators_without_selectors "k" (pool 6 [1; 2]) (members_of 6 [1; 2])
           eq_refl).
Defined.

(** ** What the selectors select *)







(** ** Rank selectors *)

Lemma Permutation_insert_by follows x l :
  Permutation (SetSelector.insert_by follows x l) (x :: l).
Proof.
  induction l as [| y l IH]; simpl; auto.
  destruct (follows (snd x) (snd y)); auto.
  rewrite IH. apply perm_swap.
Qed.

Lemma Permutation_sorted reverse l :
  Permutation (SetSelector.sorted reverse l) l.
Proof.
  unfold SetSelector.sorted. induction l as [| x l IH]; simpl; auto.
  rewrite Permutation_insert_by. now constructor.
Qed.

Lemma map_fst_combine_seq {A} (l : list A) : forall k,
  map fst (combine (seq k (List.length l)) l) = seq k (List.length l).
Proof. induction l as [| x l IH]; simpl; intros k; auto. now rewrite IH. Qed.

Lemma NoDup_map_fst_filter {A B} (p : A * B -> bool) (l : list (A * B)) :
  NoDup (map fst l) -> NoDup (map fst (filter p l)).
Proof.
  induction l as [| x l IH]; simpl; intros H; auto.
  inversion H as [| ? ? Hx Hl]; subst.
  destruct (p x); simpl; auto. constructor; auto.
  intros Hin. apply Hx. apply in_map_iff in Hin as (y & E & Hy).
  apply in_map_iff. exists y. split; auto. now apply filter_In in Hy.
Qed.

Lemma NoDup_keptset t ks : keptset t = Ok ks -> NoDup (map fst ks).
Proof.
  unfold keptset. destruct (set t) as [s |]; [| discriminate].
  simpl. intros [= <-]. apply NoDup_map_fst_filter. unfold enumerate.
  rewrite map_fst_combine_seq. apply seq_NoDup.
Qed.

Lemma NoDup_firstn {A} n (l : list A) : NoDup l -> NoDup (firstn n l).
Proof.
  revert l. induction n as [| n IH]; intros [| x l] H; simpl;
    try constructor.
  - inversion H; subst. intros Hin. apply In_firstn_inv in Hin. contradiction.
  - inversion H; subst. auto.
Qed.

Lemma NoDup_slice_to {A} n (l : list A) : NoDup l -> NoDup (slice_to n l).
Proof. unfold slice_to. destruct (n <? 0); apply NoDup_firstn. Qed.

Lemma length_slice_to {A} n (l : list A) :
  List.length (slice_to n l)
  = Z.to_nat (Z.min (Z.of_nat (List.length l))
                    (if n <? 0 then Z.of_nat (List.length l) + n else n)).
Proof.
  unfold slice_to. destruct (Z.ltb_spec n 0); rewrite length_firstn; lia.
Qed.

(** What a rank selector computes from the kept members. *)
Lemma rank_select selector (reverse : bool) target values picked :
  cat selector = Some (if reverse then "h" else "l")%string ->
  keptset target = Ok values ->
  SetSelector.select selector target = Ok picked ->
  exists keys,
    SetSelector.keyed values = Ok keys /\
    picked = map fst (slice_to (num selector) (SetSelector.sorted reverse keys)).
Proof.
  intros Hc Hks. unfold SetSelector.select. rewrite Hc.
  assert (Hrun : (let? ks := keptset target in
                  let? keys := SetSelector.keyed ks in
                  Ok (map fst (slice_to (num selector)
                                 (SetSelector.sorted reverse keys))))
                 = (if reverse then SetSelector.highestn selector target
                    else SetSelector.lowestn selector target)).
  { destruct reverse; reflexivity. }
  intros H.
  assert (H' : (let? chosen := (let? ks := keptset target in
                  let? keys := SetSelector.keyed ks in
                  Ok (map fst (slice_to (num selector)
                                 (SetSelector.sorted reverse keys))))
                in Ok (pset_of chosen)) = Ok picked).
  { rewrite Hrun. destruct reverse; exact H. }
  clear H Hrun. rewrite Hks in H'. simpl in H'.
  apply rbind_Ok in H' as (chosen & Hch & H'). injection H' as <-.
  apply rbind_Ok in Hch as (keys & Hkeys & Hch). injection Hch as <-.
  exists keys. split; auto.
  apply pset_of_fresh.
  assert (Hnd : NoDup (map fst (SetSelector.sorted reverse keys))).
  { eapply Permutation_NoDup.
    - apply Permutation_map. symmetry. apply Permutation_sorted.
    - rewrite (keyed_fst _ _ Hkeys). eapply NoDup_keptset; eauto. }
  clear - Hnd. unfold slice_to. destruct (num selector <? 0).
  - rewrite <- firstn_map. now apply NoDup_firstn.
  - rewrite <- firstn_map. now apply NoDup_firstn.
Qed.

(** X6. How many members a rank selector ([l] or [h]) selects: with
    [len] kept members and count [num], the selection has no duplicates
    and holds [min len num] members for [num >= 0] and
    [max 0 (len + num)] members for a negative [num] (the Python slice
    [[:num]]); with [num >= len] every kept member is selected. *)
Theorem rank_selector_size selector (reverse : bool) target values picked :
  cat selector = Some (if reverse then "h" else "l")%string ->
  keptset target = Ok values ->
  SetSelector.select selector target = Ok picked ->
  NoDup picked /\
  List.length picked
  = Z.to_nat (Z.min (Z.of_nat (List.length values))
                (if num selector <? 0
                 then Z.of_nat (List.length values) + num selector
                 else num selector)) /\
  (Z.of_nat (List.length values) <= num selector ->
   forall i, In i (map fst values) -> In i picked).
Proof.
  intros Hc Hks Hsel.
  destruct (rank_select _ _ _ _ _ Hc Hks Hsel) as (keys & Hkeys & ->).
  assert (Hlen : List.length (SetSelector.sorted reverse keys)
                 = List.length values).
  { rewrite (Permutation_length (Permutation_sorted reverse keys)).
    rewrite <- (length_map fst keys), (keyed_fst _ _ Hkeys).
    apply length_map. }
  assert (Hnd : NoDup (map fst (SetSelector.sorted reverse keys))).
  { eapply Permutation_NoDup.
    - apply Permutation_map. symmetry. apply Permutation_sorted.
    - rewrite (keyed_fst _ _ Hkeys). eapply NoDup_keptset; eauto. }
  split; [| split].
  - unfold slice_to. destruct (num selector <? 0);
      rewrite <- firstn_map; now apply NoDup_firstn.
  - rewrite length_map, length_slice_to, Hlen. reflexivity.
  - intros Hall i Hi. unfold slice_to.
    destruct (Z.ltb_spec (num selector) 0); [lia |].
    rewrite firstn_all2 by lia.
    rewrite <- (keyed_fst _ _ Hkeys) in Hi.
    eapply Permutation_in; [| exact Hi].
    apply Permutation_map. symmetry. apply Permutation_sorted.
Qed.

Lemma rank_selector_size_witness :
  NoDup [3; 2; 1]%nat /\
  List.length [3; 2; 1]%nat = 3%nat /\
  (4 <= -1 ->
   forall i, In i (map fst (members_of 6 [1; 2; 3; 4])) -> In i [3; 2; 1]%nat).
Proof.
  exact (rank_selector_size (mkSetSelector (Some "h") (-1)) true
           (pool 6 [1; 2; 3; 4]) (members_of 6 [1; 2; 3; 4]) [3; 2; 1]%nat
           eq_refl eq_refl eq_refl).
Defined.

Lemma sorted_prefix {A} (R : A -> A -> Prop) s :
  StronglySorted R s ->
  forall n a b, In a (firstn n s) -> In b (skipn n s) -> R a b.
Proof.
  induction 1 as [| x s Hs IH Hx]; intros n a b Ha Hb.
  - destruct n; destruct Ha.
  - destruct n as [| n]; simpl in *; [contradiction |].
    destruct Ha as [<- | Ha]; [| eauto].
    rewrite Forall_forall in Hx. apply Hx.
    rewrite <- (firstn_skipn n s). apply in_or_app. now right.
Qed.

Lemma keyed_In ks : forall keys i k,
  SetSelector.keyed ks = Ok keys ->
  (In (i, k) keys -> exists x, In (i, x) ks /\ total x = Ok k).
Proof.
  induction ks as [| [j y] ks IH]; simpl; intros keys i k H Hin.
  - injection H as <-. contradiction.
  - apply rbind_Ok in H as (t & Ht & H). apply rbind_Ok in H as (r & Hr & H).
    injection H as <-. destruct Hin as [[= <- <-] | Hin]; [eauto |].
    destruct (IH _ _ _ Hr Hin) as (x & Hx & Hk). eauto.
Qed.

Lemma In_keyed ks : forall keys i x,
  SetSelector.keyed ks = Ok keys -> In (i, x) ks ->
  exists k, In (i, k) keys /\ total x = Ok k.
Proof.
  induction ks as [| [j y] ks IH]; simpl; intros keys i x H Hin;
    [contradiction |].
  apply rbind_Ok in H as (t & Ht & H). apply rbind_Ok in H as (r & Hr & H).
  injection H as <-. destruct Hin as [[= <- <-] | Hin].
  - exists t. split; [now left | auto].
  - destruct (IH _ _ _ Hr Hin) as (k & Hk & Hx). exists k. split; [now right | auto].
Qed.

Lemma sorted_is_sorted (reverse : bool) keys :
  StronglySorted
    (fun a b : nat * pynum =>
       (if reverse then Py.ltb (snd a) (snd b) else Py.ltb (snd b) (snd a))
       = false)
    (SetSelector.sorted reverse keys).
Proof.
  unfold SetSelector.sorted.
  apply (fold_insert_sorted
           (fun kx ky => if reverse then Py.ltb kx ky else Py.ltb ky kx)).
  - intros a b c. destruct reverse; intros H1 H2; eapply ltb_trans_false; eauto.
  - intros a b. destruct reverse; apply ltb_asym.
Qed.

Lemma slice_to_firstn {A} n (l : list A) :
  exists m, slice_to n l = firstn m l.
Proof. unfold slice_to. destruct (n <? 0); eauto. Qed.

(** X7. A rank selector takes the extremes: no member left out by
    [h] has a total above that of a selected member, and no member left
    out by [l] has a total below that of a selected member. *)
Theorem rank_selector_takes_extremes selector (reverse : bool) target values
    picked i j xi xj ti tj :
  cat selector = Some (if reverse then "h" else "l")%string ->
  keptset target = Ok values ->
  SetSelector.select selector target = Ok picked ->
  In i picked -> ~ In j picked ->
  In (i, xi) values -> In (j, xj) values ->
  total xi = Ok ti -> total xj = Ok tj ->
  if reverse then Py.leb tj ti = true else Py.leb ti tj = true.
Proof.
  intros Hc Hks Hsel Hi Hj Hxi Hxj Hti Htj.
  destruct (rank_select _ _ _ _ _ Hc Hks Hsel) as (keys & Hkeys & ->).
  destruct (slice_to_firstn (num selector) (SetSelector.sorted reverse keys))
    as (m & Hm). rewrite Hm in *.
  apply in_map_iff in Hi as ([i' ki] & E & Hi). simpl in E; subst i'.
  assert (Hki : ki = ti).
  { assert (Hin : In (i, ki) keys).
    { eapply Permutation_in; [apply Permutation_sorted |].
      eapply In_firstn_inv; eauto. }
    destruct (keyed_In _ _ _ _ Hkeys Hin) as (x & Hx & Hk).
    apply (In_keptset _ _ _ _ Hks) in Hx as [Hx _], Hxi as [Hxi _].
    congruence. }
  subst ki.
  destruct (In_keyed _ _ _ _ Hkeys Hxj) as (kj & Hkj & Hk).
  replace kj with tj in * by congruence.
  assert (Hskip : In (j, tj) (skipn m (SetSelector.sorted reverse keys))).
  { assert (Hs : In (j, tj) (SetSelector.sorted reverse keys)).
    { eapply Permutation_in; [symmetry; apply Permutation_sorted | auto]. }
    rewrite <- (firstn_skipn m) in Hs. apply in_app_or in Hs as [Hs | Hs]; auto.
    exfalso. apply Hj. apply in_map_iff. exists (j, tj). auto. }
  pose proof (sorted_prefix _ _ (sorted_is_sorted reverse keys) m _ _ Hi Hskip)
    as HR. simpl in HR.
  unfold Py.ltb, Py.leb in *. destruct reverse;
    now apply negb_false_iff in HR.
Qed.

Lemma rank_selector_takes_extremes_witness :
  Py.leb (PInt 1) (PInt 4) = true.
Proof.
  apply (rank_selector_takes_extremes (mkSetSelector (Some "h") 2) true
           (pool 6 [1; 2; 3; 4]) (members_of 6 [1; 2; 3; 4]) [3; 2]%nat
           3%nat 0%nat (Die (die_showing 6 4)) (Die (die_showing 6 1))
           (PInt 4) (PInt 1));
    try reflexivity; simpl; try lia; auto 10.
Defined.

Lemma before_cons {A} (a b z : A) l : before a b l -> before a b (z :: l).
Proof. intros (l1 & l2 & -> & Hb). now exists (z :: l1), l2. Qed.

Lemma before_insert_old follows x a b l :
  before a b l -> before a b (SetSelector.insert_by follows x l).
Proof.
  induction l as [| y l IH]; intros (l1 & l2 & E & Hb).
  - destruct l1; discriminate.
  - simpl. destruct l1 as [| z l1]; simpl in E; injection E as E1 E2; subst.
    + destruct (follows (snd x) (snd a)).
      * exists [], (SetSelector.insert_by follows x l2). split; auto.
        apply In_insert_by. now right.
      * exists [x], l2. auto.
    + assert (Hab : before a b (l1 ++ a :: l2)) by (exists l1, l2; auto).
      destruct (follows (snd x) (snd z)).
      * apply before_cons. auto.
      * now do 2 apply before_cons.
Qed.

Lemma before_insert_new follows x y l :
  In y l -> follows (snd x) (snd y) = false ->
  before x y (SetSelector.insert_by follows x l).
Proof.
  induction l as [| z l IH]; intros Hin Hf; [destruct Hin |].
  simpl. destruct (follows (snd x) (snd z)) eqn:E.
  - destruct Hin as [-> | Hin]; [congruence |].
    apply before_cons. auto.
  - exists [], (z :: l). auto.
Qed.

Lemma before_sorted (reverse : bool) a b l :
  before a b l ->
  (if reverse then Py.ltb (snd a) (snd b) else Py.ltb (snd b) (snd a)) = false ->
  before a b (SetSelector.sorted reverse l).
Proof.
  unfold SetSelector.sorted.
  induction l as [| x l IH]; intros (l1 & l2 & E & Hb) Hf.
  - destruct l1; discriminate.
  - simpl. destruct l1 as [| z l1]; simpl in E; injection E as E1 E2; subst.
    + apply before_insert_new; auto.
      apply (Permutation_in _ (Permutation_sym (Permutation_sorted reverse l2)))
        in Hb. exact Hb.
    + apply before_insert_old. apply IH; auto. now exists l1, l2.
Qed.

Lemma before_firstn {A} (a b : A) l m :
  NoDup l -> before a b l -> In b (firstn m l) -> In a (firstn m l).
Proof.
  intros Hnd (l1 & l2 & -> & Hb) Hin.
  rewrite firstn_app in *. apply in_or_app.
  apply in_app_or in Hin as [Hin | Hin].
  - exfalso. apply In_firstn_inv in Hin.
    apply NoDup_remove_1 in Hnd.
    revert Hnd Hin Hb. clear. induction l1 as [| z l1 IH]; simpl; intros Hnd Hin Hb;
      [destruct Hin |].
    inversion Hnd as [| ? ? Hz Hrest]; subst.
    destruct Hin as [-> | Hin]; [| auto].
    apply Hz. apply in_or_app. now right.
  - right. destruct (m - List.length l1)%nat; [destruct Hin | now left].
Qed.

Lemma before_combine_seq {A} (s : list A) : forall k i j x y,
  In (i, x) (combine (seq k (List.length s)) s) ->
  In (j, y) (combine (seq k (List.length s)) s) ->
  (i < j)%nat ->
  before (i, x) (j, y) (combine (seq k (List.length s)) s).
Proof.
  induction s as [| z s IH]; simpl; intros k i j x y Hi Hj Hlt;
    [destruct Hi |].
  destruct Hi as [[= <- <-] | Hi].
  - destruct Hj as [[= <- <-] | Hj]; [lia |].
    exists [], (combine (seq (S k) (List.length s)) s). auto.
  - destruct Hj as [[= <- <-] | Hj].
    + apply In_combine_seq in Hi. lia.
    + apply before_cons. auto.
Qed.

Lemma before_filter {A} (p : A -> bool) a b l :
  before a b l -> p a = true -> p b = true -> before a b (filter p l).
Proof.
  intros (l1 & l2 & -> & Hb) Ha Hpb.
  exists (filter p l1), (filter p l2). rewrite filter_app. simpl. rewrite Ha.
  split; auto. apply filter_In. auto.
Qed.

Lemma keyed_app l1 : forall l2 keys,
  SetSelector.keyed (l1 ++ l2) = Ok keys ->
  exists k1 k2,
    SetSelector.keyed l1 = Ok k1 /\ SetSelector.keyed l2 = Ok k2 /\
    keys = k1 ++ k2.
Proof.
  induction l1 as [| [j y] l1 IH]; simpl; intros l2 keys H.
  - exists [], keys. auto.
  - apply rbind_Ok in H as (t & Ht & H). apply rbind_Ok in H as (r & Hr & H).
    injection H as <-. destruct (IH _ _ Hr) as (k1 & k2 & H1 & H2 & ->).
    exists ((j, t) :: k1), k2. rewrite Ht, H1. simpl. auto.
Qed.

Lemma before_keyed values keys i j xi xj ti tj :
  SetSelector.keyed values = Ok keys ->
  before (i, xi) (j, xj) values ->
  total xi = Ok ti -> total xj = Ok tj ->
  before (i, ti) (j, tj) keys.
Proof.
  intros Hk (l1 & l2 & -> & Hb) Hti Htj.
  apply keyed_app in Hk as (k1 & k2 & H1 & H2 & ->).
  simpl in H2. rewrite Hti in H2. simpl in H2.
  apply rbind_Ok in H2 as (r & Hr & H2). injection H2 as <-.
  exists k1, r. split; auto.
  destruct (In_keyed _ _ _ _ Hr Hb) as (k & Hin & Hk). congruence.
Qed.

(** X8. Ties are broken by position, for [l] and for [h] alike: of two
    kept members with equal totals, the later one is selected only if the
    earlier one is ([sorted] is stable, also with [reverse=True]). *)
Theorem rank_selector_ties_keep_order selector (reverse : bool) target values
    picked i j xi xj ti tj :
  cat selector = Some (if reverse then "h" else "l")%string ->
  keptset target = Ok values ->
  SetSelector.select selector target = Ok picked ->
  In (i, xi) values -> In (j, xj) values ->
  total xi = Ok ti -> total xj = Ok tj ->
  Py.eqb ti tj = true -> (i < j)%nat ->
  In j picked -> In i picked.
Proof.
  intros Hc Hks Hsel Hxi Hxj Hti Htj Heq Hlt Hj.
  destruct (rank_select _ _ _ _ _ Hc Hks Hsel) as (keys & Hkeys & ->).
  destruct (slice_to_firstn (num selector) (SetSelector.sorted reverse keys))
    as (m & Hm). rewrite Hm in *.
  assert (Hb : before (i, xi) (j, xj) values).
  { unfold keptset in Hks. destruct (set target) as [s |]; [| discriminate].
    simpl in Hks. injection Hks as <-.
    apply filter_In in Hxi as [Hxi Hki], Hxj as [Hxj Hkj].
    apply before_filter; auto. unfold enumerate in *.
    now apply before_combine_seq. }
  pose proof (before_keyed _ _ _ _ _ _ _ _ Hkeys Hb Hti Htj) as Hbk.
  assert (Hf : (if reverse then Py.ltb ti tj else Py.ltb tj ti) = false).
  { unfold Py.eqb in Heq. apply Qeq_bool_iff in Heq.
    unfold Py.ltb. destruct reverse; apply negb_false_iff, Qle_bool_iff;
      rewrite Heq; apply Qle_refl. }
  pose proof (before_sorted reverse _ _ _ Hbk Hf) as Hbs.
  assert (Hnd : NoDup (SetSelector.sorted reverse keys)).
  { eapply NoDup_map_inv with (f := fst).
    eapply Permutation_NoDup.
    - apply Permutation_map. symmetry. apply Permutation_sorted.
    - rewrite (keyed_fst _ _ Hkeys). eapply NoDup_keptset; eauto. }
  apply in_map_iff in Hj as ([j' kj] & E & Hj). simpl in E; subst j'.
  assert (Hkj : kj = tj).
  { assert (Hin : In (j, kj) keys).
    { eapply Permutation_in; [apply Permutation_sorted |].
      eapply In_firstn_inv; eauto. }
    destruct (keyed_In _ _ _ _ Hkeys Hin) as (x & Hx & Hk).
    apply (In_keptset _ _ _ _ Hks) in Hx as [Hx _], Hxj as [Hxj _].
    congruence. }
  subst kj. apply in_map_iff. exists (i, ti). split; [reflexivity |].
  eapply before_firstn; eauto.
Qed.

Lemma rank_selector_ties_keep_order_witness : In 0%nat [0; 2]%nat.
Proof.
  apply (rank_selector_ties_keep_order (mkSetSelector (Some "l") 2) false
           (pool 6 [3; 5; 3]) (members_of 6 [3; 5; 3]) [0; 2]%nat
           0%nat 2%nat (Die (die_showing 6 3)) (Die (die_showing 6 3))
           (PInt 3) (PInt 3));
    try reflexivity; simpl; try lia; auto 10.
Defined.

(** ** Rolling a pool *)

Lemma Die_new_fresh size context w d w' :
  Die.new size context w = Ok (d, w') ->
  fresh_die size context (Die d) /\ cursor w' = S (cursor w) /\
  tape w' = tape w.
Proof.
  unfold Die.new, Die._add_roll. simpl.
  destruct (size <? 1) eqn:Hs; [discriminate |]. apply Z.ltb_ge in Hs.
  intros H. apply bind_Ok in H as ([] & w1 & Hn & H).
  unfold bind, randrange, ret in H. injection H as <- <-. simpl.
  assert (Hw1 : cursor w1 = cursor w /\ tape w1 = tape w).
  { destruct context; [| now injection Hn as <-].
    unfold notify in Hn. destruct (count_roll (context w)); [| discriminate].
    now injection Hn as <-. }
  destruct Hw1 as [Hc Ht]. rewrite Hc. split; [| auto].
  exists (tape w1 (cursor w) mod size + 1). split; [| reflexivity].
  pose proof (Z.mod_pos_bound (tape w1 (cursor w)) size). lia.
Qed.

Lemma roll_dice_fresh count size context : forall w vs w',
  Dice.roll_dice count size context w = Ok (vs, w') ->
  List.length vs = count /\
  Forall (fresh_die size context) vs /\
  cursor w' = (cursor w + count)%nat.
Proof.
  induction count as [| count IH]; simpl; intros w vs w' H.
  - injection H as <- <-. repeat split; auto.
  - apply bind_Ok in H as (d & w1 & Hd & H).
    apply bind_Ok in H as (ds & w2 & Hds & H). injection H as <- <-.
    apply Die_new_fresh in Hd as (Hf & Hc & _).
    destruct (IH _ _ _ Hds) as (Hlen & Hall & Hcur).
    simpl. repeat split; auto. lia.
Qed.

Lemma sum_kept_fresh size context vs :
  Forall (fresh_die size context) vs ->
  forall acc,
  exists s,
    sum_kept number (PInt acc) vs = Ok (PInt (acc + s)) /\
    Z.of_nat (List.length vs) <= s <= Z.of_nat (List.length vs) * size.
Proof.
  induction 1 as [| m vs (v & Hv & ->) Hall IH]; intros acc.
  - exists 0. simpl. rewrite Z.add_0_r. split; [reflexivity | lia].
  - destruct (IH (acc + v)) as (s & Hs & Hb).
    exists (v + s). cbn [sum_kept kept Die.kept].
    change (number (Die {| Die.kept := true; Die.size := size;
                          Die.values := [Literal.new (PInt v)];
                          Die._context := context |}))
      with (@Ok pynum (PInt v)).
    cbn [rbind Py.add]. rewrite Hs. rewrite Z.add_assoc.
    split; [reflexivity |]. cbn [List.length]. nia.
Qed.

(** X9. [Dice.new(num, size, context)] that succeeds returns a kept
    pool of [num] dice (none for [num <= 0]) without operations, each die
    kept and holding one kept literal of [[1, size]]; it draws one random
    value per die, and the total of the pool is an integer between [num]
    and [num * size]. *)
Theorem Dice_new_rolls_each_die num size context w target w' :
  Dice.new num size context w = Ok (target, w') ->
  exists vs s,
    target = Dice true num size vs [] context /\
    List.length vs = Z.to_nat num /\
    Forall (fresh_die size context) vs /\
    cursor w' = (cursor w + Z.to_nat num)%nat /\
    total target = Ok (PInt s) /\
    Z.max 0 num <= s <= Z.max 0 num * size.
Proof.
  unfold Dice.new. intros H. apply bind_Ok in H as (vs & w1 & Hvs & H).
  injection H as <- <-.
  destruct (roll_dice_fresh _ _ _ _ _ _ Hvs) as (Hlen & Hall & Hcur).
  destruct (sum_kept_fresh _ _ _ Hall 0) as (s & Hs & Hb).
  exists vs, s.
  split; [reflexivity |]. split; [exact Hlen |]. split; [exact Hall |].
  split; [exact Hcur |]. split; [exact Hs | lia].
Qed.

Lemma Dice_new_rolls_each_die_witness :
  exists vs s,
    pool 6 [3; 5] = Dice true 2 6 vs [] None /\
    List.length vs = 2%nat /\
    Forall (fresh_die 6 None) vs /\
    cursor (world_after [2; 4] 2) = 2%nat /\
    total (pool 6 [3; 5]) = Ok (PInt s) /\
    2 <= s <= 2 * 6.
Proof.
  exact (Dice_new_rolls_each_die 2 6 None (world_of [2; 4]) (pool 6 [3; 5])
           (world_after [2; 4] 2) eq_refl).
Defined.

Lemma roll_dice_succeeds count size : forall w,
  1 <= size ->
  exists vs w', Dice.roll_dice count size None w = Ok (vs, w').
Proof.
  induction count as [| count IH]; simpl; intros w Hs;
    [do 2 eexists; reflexivity |].
  unfold bind, Die.new, Die._add_roll. simpl.
  destruct (Z.ltb_spec size 1); [lia |].
  unfold ret, randrange. simpl.
  edestruct IH as (vs & w' & E); [exact Hs |]. rewrite E. eauto.
Qed.

(** X10. Edge cases of [Dice.new]: with [num <= 0] no die is rolled and
    the pool is empty, whatever the size; with [num >= 1] and [size < 1]
    the call fails with "Cannot roll a 0-sided die."; with [size >= 1] and
    no context it always succeeds. *)
Theorem Dice_new_edge_cases num size context w :
  (num <= 0 ->
   Dice.new num size context w = Ok (Dice true num size [] [] context, w)) /\
  (1 <= num -> size < 1 ->
   Dice.new num size context w
   = Err (RollValueError "Cannot roll a 0-sided die.")) /\
  (1 <= size ->
   exists target w', Dice.new num size None w = Ok (target, w')).
Proof.
  unfold Dice.new. split; [| split].
  - intros Hn. destruct num; try lia; reflexivity.
  - intros Hn Hs. destruct (Z.to_nat num) as [| count] eqn:E; [lia |].
    unfold bind. simpl. unfold bind, Die.new, Die._add_roll. simpl.
    destruct (Z.ltb_spec size 1); [reflexivity | lia].
  - intros Hs. destruct (roll_dice_succeeds (Z.to_nat num) size w Hs)
      as (vs & w' & Hvs).
    unfold bind. rewrite Hvs. unfold ret. eauto.
Qed.

Lemma Dice_new_edge_cases_witness :
  Dice.new (-1) 0 None (world_of [])
  = Ok (Dice true (-1) 0 [] [] None, world_of []) /\
  Dice.new 2 0 None (world_of [])
  = Err (RollValueError "Cannot roll a 0-sided die.") /\
  exists target w', Dice.new 2 6 None (world_of []) = Ok (target, w').
Proof.
  split; [| split].
  - apply (proj1 (Dice_new_edge_cases (-1) 0 None (world_of []))). lia.
  - apply (proj1 (proj2 (Dice_new_edge_cases 2 0 None (world_of [])))); lia.
  - apply (proj2 (proj2 (Dice_new_edge_cases 2 6 None (world_of [])))). lia.
Defined.

Lemma sum_kept_app number vs : forall acc extra,
  sum_kept number acc (vs ++ extra)
  = (let? a := sum_kept number acc vs in sum_kept number a extra).
Proof.
  induction vs as [| x vs IH]; simpl; intros acc extra; auto.
  destruct (kept x); auto.
  destruct (number x); simpl; auto.
Qed.

(** X11. [roll_another] exists on [Dice] only: on any other node the
    call raises [AttributeError].  On a pool, a call that succeeds appends
    one freshly rolled die of the pool's size and context, leaves every
    member in place, draws one random value, and raises an integer
    [number] of the pool by the value rolled, which is in [[1, size]]. *)
Theorem roll_another_appends_one_die target w :
  (is_dice target = false -> Dice.roll_another target w = Err AttributeError) /\
  (forall target' w',
      Dice.roll_another target w = Ok (target', w') ->
      exists k nm sz vs ops c d,
        target = Dice k nm sz vs ops c /\
        target' = Dice k nm sz (vs ++ [d]) ops c /\
        fresh_die sz c d /\
        cursor w' = S (cursor w) /\
        (forall i x, member_at i target = Some x ->
                     member_at i target' = Some x) /\
        (forall a, number target = Ok (PInt a) ->
                   exists v, 1 <= v <= sz /\
                             number target' = Ok (PInt (a + v)))).
Proof.
  split.
  - destruct target; simpl; intros H; try discriminate; reflexivity.
  - intros target' w' H.
    destruct target as [| | | | | | k nm sz vs ops c |]; simpl in H;
      try discriminate.
    apply bind_Ok in H as (d & w1 & Hd & H). injection H as <- <-.
    apply Die_new_fresh in Hd as (Hf & Hc & _).
    exists k, nm, sz, vs, ops, c, (Die d).
    split; [reflexivity |]. split; [reflexivity |]. split; [exact Hf |].
    split; [exact Hc |]. split.
    + unfold member_at. simpl. intros i x Hx.
      rewrite nth_error_app1; auto. apply nth_error_Some. congruence.
    + intros a Ha. destruct Hf as (v & Hv & E). exists v. split; auto.
      rewrite number_Dice in *. rewrite sum_kept_app, Ha. rewrite E.
      reflexivity.
Qed.

Lemma roll_another_appends_one_die_witness :
  Dice.roll_another (lit 3) (world_of [4]) = Err AttributeError /\
  exists k nm sz vs ops c d,
    pool 6 [3] = Dice k nm sz vs ops c /\
    Dice true 1 6 [Die (die_showing 6 3); Die (die_showing 6 5)] [] None
    = Dice k nm sz (vs ++ [d]) ops c /\
    fresh_die sz c d /\
    cursor (world_after [4] 1) = S (cursor (world_of [4])) /\
    (forall i x,
        member_at i (pool 6 [3]) = Some x ->
        member_at i
          (Dice true 1 6 [Die (die_showing 6 3); Die (die_showing 6 5)] []
                None) = Some x) /\
    (forall a, number (pool 6 [3]) = Ok (PInt a) ->
               exists v, 1 <= v <= sz /\
                         number
                           (Dice true 1 6
                                 [Die (die_showing 6 3);
                                  Die (die_showing 6 5)] [] None)
                         = Ok (PInt (a + v))).
Proof.
  split.
  - exact (proj1 (roll_another_appends_one_die (lit 3) (world_of [4]))
             eq_refl).
  - exact (proj2 (roll_another_appends_one_die (pool 6 [3]) (world_of [4]))
             _ (world_after [4] 1) eq_refl).
Defined.

(** ** The history of a die *)

Lemma last_opt_split {A} (l : list A) x :
  last_opt l = Some x -> exists l', l = l' ++ [x].
Proof.
  induction l as [| y l IH]; simpl; [discriminate |].
  destruct l as [| z l].
  - intros [= ->]. now exists [].
  - intros H. destruct (IH H) as [l' ->]. now exists (y :: l').
Qed.

Lemma set_last_snoc {A} (l : list A) x y : set_last x (l ++ [y]) = l ++ [x].
Proof.
  unfold set_last. rewrite length_app; simpl.
  replace (Nat.pred (List.length l + 1)) with (List.length l) by lia.
  induction l as [| z l IH]; simpl; auto. now rewrite IH.
Qed.

Lemma only_last_kept_snoc d earlier l :
  Die.values d = earlier ++ [l] ->
  only_last_kept d = Literal.kept l
                     && forallb (fun l => negb (Literal.kept l)) earlier.
Proof.
  intros E. unfold only_last_kept. now rewrite E, last_opt_app, removelast_last.
Qed.

Lemma only_last_kept_inv d :
  only_last_kept d = true ->
  exists earlier l,
    Die.values d = earlier ++ [l] /\ Literal.kept l = true /\
    forallb (fun l => negb (Literal.kept l)) earlier = true.
Proof.
  intros H. pose proof H as H'. unfold only_last_kept in H'.
  destruct (last_opt (Die.values d)) as [l |] eqn:Hl; [| discriminate].
  destruct (last_opt_split _ _ Hl) as (earlier & E).
  rewrite (only_last_kept_snoc d earlier l E) in H.
  apply andb_true_iff in H as [Hk He]. eauto.
Qed.

Lemma rolled_times_reroll size n d w d' w' :
  rolled_times size n d -> Die.reroll d w = Ok (d', w') ->
  rolled_times size (S n) d' /\ cursor w' = S (cursor w).
Proof.
  intros (Hk & Hlen & Hsz & Hr) H.
  destruct (only_last_kept_inv d Hk) as (earlier & l & E & Hkl & He).
  unfold Die.reroll, Die.drop_current in H. rewrite E, last_opt_app in H.
  rewrite set_last_snoc in H. unfold Die._add_roll in H. simpl in H.
  destruct (Die.size d <? 1) eqn:Hs; [discriminate |]. apply Z.ltb_ge in Hs.
  apply bind_Ok in H as ([] & w1 & Hn & H).
  unfold bind, randrange, ret in H. injection H as <- <-. simpl.
  assert (Hc : cursor w1 = cursor w).
  { destruct (Die._context d); [| now injection Hn as <-].
    unfold notify in Hn. destruct (count_roll (context w)); [| discriminate].
    now injection Hn as <-. }
  split; [| now rewrite Hc].
  unfold rolled_times, only_last_kept. cbn [Die.values Die.size].
  rewrite last_opt_app, removelast_last.
  simpl. rewrite forallb_app, He. simpl.
  rewrite E in Hlen, Hr. rewrite !length_app in *. simpl in *.
  rewrite !forallb_app in *. apply andb_true_iff in Hr as [Hr1 Hr2].
  simpl in Hr2. rewrite andb_true_r in Hr2.
  rewrite Hr1. simpl. unfold rolled_within in *. simpl. rewrite Hr2. simpl.
  pose proof (Z.mod_pos_bound (tape w1 (cursor w1)) (Die.size d)).
  repeat split; try lia;
    try (apply andb_true_iff; split; apply Z.leb_le; lia).
Qed.

Lemma rolled_times_call size n c d w d' w' :
  rolled_times size n d -> call_die c d w = Ok (d', w') ->
  match c with
  | CallReroll => rolled_times size (S n) d' /\ cursor w' = S (cursor w)
  | _ => rolled_times size n d' /\ cursor w' = cursor w
  end.
Proof.
  intros Hd H. destruct c; simpl in H.
  - eapply rolled_times_reroll; eauto.
  - injection H as <- <-. split; [| reflexivity].
    destruct Hd as (Hk & Hlen & Hsz & Hr).
    destruct (only_last_kept_inv d Hk) as (earlier & l & E & Hkl & He).
    unfold Die.explode. rewrite E, last_opt_app, set_last_snoc.
    unfold rolled_times, only_last_kept. cbn [Die.values Die.size].
    rewrite last_opt_app, removelast_last.
    simpl. rewrite Hkl, He. rewrite E in Hlen, Hr.
    rewrite !length_app in *. rewrite !forallb_app in *. simpl in *.
    repeat split; auto.
  - injection H as <- <-. split; [| reflexivity].
    destruct Hd as (Hk & Hlen & Hsz & Hr).
    destruct (only_last_kept_inv d Hk) as (earlier & l & E & Hkl & He).
    unfold Die.force_value. rewrite E, last_opt_app, set_last_snoc.
    unfold rolled_times, only_last_kept. cbn [Die.values Die.size].
    rewrite last_opt_app, removelast_last.
    simpl. rewrite Hkl, He. rewrite E in Hlen, Hr.
    rewrite !length_app in *. rewrite !forallb_app in *. simpl in *.
    repeat split; auto.
    apply andb_true_iff in Hr as [Hr1 Hr2]. rewrite Hr1. simpl.
    rewrite andb_true_r in *. unfold rolled_within in *. simpl.
    destruct (Literal.values l) as [| [v |] rest]; try discriminate. exact Hr2.
  - injection H as <- <-. split; [| reflexivity].
    destruct Hd as (Hk & Hlen & Hsz & Hr). unfold rolled_times. auto.
Qed.

(** X12. The history of a die: after [Die.new] and any sequence of
    [reroll], [explode], [force_value] and [drop] calls, exactly the last
    literal of the history is kept, the history holds one literal per
    roll ([1 +] the number of rerolls), every literal was rolled in
    [[1, size]], the size is unchanged, and one random value was drawn
    per roll. *)
Theorem Die_history_has_one_live_literal size context cs w d0 w0 d w' :
  Die.new size context w = Ok (d0, w0) ->
  call_die_all cs d0 w0 = Ok (d, w') ->
  only_last_kept d = true /\
  List.length (Die.values d) = S (rerolls cs) /\
  Die.size d = size /\
  forallb (rolled_within size) (Die.values d) = true /\
  cursor w' = (cursor w + S (rerolls cs))%nat.
Proof.
  intros Hnew Hcalls.
  assert (H0 : rolled_times size 1 d0 /\ cursor w0 = S (cursor w)).
  { apply Die_new_fresh in Hnew as ((v & Hv & E) & Hc & _).
    injection E as ->. split; [| exact Hc].
    unfold rolled_times, only_last_kept, rolled_within. simpl.
    repeat split.
    repeat (apply andb_true_iff; split); try reflexivity; apply Z.leb_le; lia. }
  destruct H0 as [H0 Hc0].
  assert (Hgen : forall cs n d0 w0 d w',
             rolled_times size n d0 ->
             call_die_all cs d0 w0 = Ok (d, w') ->
             rolled_times size (n + rerolls cs) d /\
             cursor w' = (cursor w0 + rerolls cs)%nat).
  { clear. induction cs as [| c cs IH]; simpl; intros n d0 w0 d w' Hd H.
    - injection H as <- <-. unfold rerolls. simpl.
      rewrite !Nat.add_0_r. auto.
    - apply bind_Ok in H as (d1 & w1 & H1 & H).
      pose proof (rolled_times_call _ _ _ _ _ _ _ Hd H1) as Hstep.
      destruct c; destruct Hstep as [Hd1 Hc1];
        destruct (IH _ _ _ _ _ Hd1 H) as [Hd' Hc']; unfold rerolls in *;
        simpl; split; try (rewrite Hc', Hc1; lia);
        try exact Hd'.
      now rewrite Nat.add_succ_r. }
  destruct (Hgen cs 1%nat d0 w0 d w' H0 Hcalls) as [(Hk & Hlen & Hsz & Hr) Hc].
  repeat split; auto. rewrite Hc, Hc0. lia.
Qed.

Lemma Die_history_has_one_live_literal_witness :
  only_last_kept d6_after_calls = true /\
  List.length (Die.values d6_after_calls) = 2%nat /\
  Die.size d6_after_calls = 6 /\
  forallb (rolled_within 6) (Die.values d6_after_calls) = true /\
  cursor (world_after [0; 3] 2) = 2%nat.
Proof.
  exact (Die_history_has_one_live_literal 6 None
           [CallReroll; CallForceValue (PInt 2); CallExplode; CallDrop]
           (world_of [0; 3]) (die_showing 6 1) (world_after [0; 3] 1)
           d6_after_calls (world_after [0; 3] 2) eq_refl eq_refl).
Defined.

(** ** What clamping achieves *)

Lemma number_force_value d l b :
  last_opt (Die.values d) = Some l -> Literal.kept l = true ->
  Die.number (Die.force_value b d) = Ok b /\
  last_opt (Die.values (Die.force_value b d)) = Some (Literal.update b l).
Proof.
  intros Hl Hk. unfold Die.number.
  rewrite (force_value_history d l b Hl).
  split; [| reflexivity].
  unfold Literal.total, Literal.number. simpl. now rewrite Hk, last_opt_app.
Qed.

Lemma clamped_settles exceeds bound m :
  exceeds bound = false -> is_showing m = true -> current_kept m = true ->
  is_showing (clamped exceeds bound m) = true /\
  current_kept (clamped exceeds bound m) = true /\
  kept (clamped exceeds bound m) = kept m /\
  (kept m = true ->
   exists v, number (clamped exceeds bound m) = Ok v /\ exceeds v = false) /\
  clamped exceeds bound (clamped exceeds bound m) = clamped exceeds bound m.
Proof.
  intros Hb Hs Hc. destruct m as [| | | | | | | d]; try discriminate.
  simpl in *. destruct (Die.number d) as [v |] eqn:Hv; [| discriminate].
  destruct (last_opt (Die.values d)) as [l |] eqn:Hl; [| discriminate].
  destruct (number_force_value d l bound Hl Hc) as [Hn Hl'].
  destruct (Die.kept d && exceeds v) eqn:E; simpl.
  - rewrite Hn, Hl'. simpl. rewrite Hc, Hb, andb_false_r.
    repeat split; auto.
    + unfold Die.force_value. now rewrite Hl.
    + intros _. exists bound. auto.
  - rewrite Hv, Hl, E. repeat split; auto.
    intros Hk. rewrite Hk in E. simpl in E. exists v. auto.
Qed.

Lemma clamped_pool_settles exceeds bound vs :
  exceeds bound = false ->
  forallb is_showing vs = true -> forallb current_kept vs = true ->
  forallb is_showing (map (clamped exceeds bound) vs) = true /\
  (forall i m', nth_error (map (clamped exceeds bound) vs) i = Some m' ->
                kept m' = true ->
                exists v, number m' = Ok v /\ exceeds v = false) /\
  map (clamped exceeds bound) (map (clamped exceeds bound) vs)
  = map (clamped exceeds bound) vs.
Proof.
  intros Hb. induction vs as [| m vs IH]; simpl; intros Hs Hc.
  - repeat split; auto. intros [| i] m' H; discriminate.
  - apply andb_true_iff in Hs as [Hs1 Hs2], Hc as [Hc1 Hc2].
    destruct (IH Hs2 Hc2) as (IH1 & IH2 & IH3).
    destruct (clamped_settles exceeds bound m Hb Hs1 Hc1)
      as (H1 & H2 & H3 & H4 & H5).
    rewrite H1, IH1, H5, IH3. repeat split; auto.
    intros [| i] m' Hm Hk; simpl in Hm; [| eauto].
    injection Hm as <-. apply H4. now rewrite <- H3.
Qed.

Lemma clamped_unchanged exceeds bound m v :
  number m = Ok v -> exceeds v = false -> clamped exceeds bound m = m.
Proof.
  destruct m as [| | | | | | | d]; auto. rewrite number_Die. simpl.
  intros -> ->. now rewrite andb_false_r.
Qed.

Lemma clamped_not_kept exceeds bound m :
  kept m = false -> clamped exceeds bound m = m.
Proof.
  destruct m as [| | | | | | | d]; auto. simpl. intros ->.
  now destruct (Die.number d).
Qed.

Lemma ltb_irrefl b : Py.ltb b b = false.
Proof.
  unfold Py.ltb. apply negb_false_iff, Qle_bool_iff, Qle_refl.
Qed.

(** X13. What [minimum] and [maximum] achieve on a pool of dice whose
    current literals are kept, when the last selector is plain: afterwards
    no kept die shows less than the bound (for [minimum]; more, for
    [maximum]); a die that was within the bound, or was dropped, is
    untouched; the number of dice is unchanged; and applying the operator
    again changes nothing. *)
Theorem clamp_leaves_no_kept_die_beyond_the_bound self selector k nm sz vs
    ops c :
  last_opt (sels self) = Some selector -> cat selector = None ->
  forallb is_showing vs = true -> forallb current_kept vs = true ->
  let bound := PInt (num selector) in
  exists lifted lowered,
    SetOperator.minimum self (Dice k nm sz vs ops c)
      = Ok (Dice k nm sz lifted ops c) /\
    SetOperator.maximum self (Dice k nm sz vs ops c)
      = Ok (Dice k nm sz lowered ops c) /\
    List.length lifted = List.length vs /\
    List.length lowered = List.length vs /\
    (forall i m, nth_error lifted i = Some m -> kept m = true ->
                 exists v, number m = Ok v /\ Py.ltb v bound = false) /\
    (forall i m, nth_error lowered i = Some m -> kept m = true ->
                 exists v, number m = Ok v /\ Py.ltb bound v = false) /\
    (forall i m v, nth_error vs i = Some m -> number m = Ok v ->
                   (Py.ltb v bound = false -> nth_error lifted i = Some m) /\
                   (Py.ltb bound v = false -> nth_error lowered i = Some m)) /\
    (forall i m, nth_error vs i = Some m -> kept m = false ->
                 nth_error lifted i = Some m /\ nth_error lowered i = Some m) /\
    SetOperator.minimum self (Dice k nm sz lifted ops c)
      = Ok (Dice k nm sz lifted ops c) /\
    SetOperator.maximum self (Dice k nm sz lowered ops c)
      = Ok (Dice k nm sz lowered ops c).
Proof.
  intros Hl Hc Hs Hk bound.
  destruct (clamped_pool_settles (fun n => Py.ltb n bound) bound vs
              (ltb_irrefl bound) Hs Hk) as (A1 & A2 & A3).
  destruct (clamped_pool_settles (fun n => Py.ltb bound n) bound vs
              (ltb_irrefl bound) Hs Hk) as (B1 & B2 & B3).
  exists (map (clamped (fun n => Py.ltb n bound) bound) vs),
         (map (clamped (fun n => Py.ltb bound n) bound) vs).
  split; [eapply minimum_pool; eauto |].
  split; [eapply maximum_pool; eauto |].
  split; [apply length_map |]. split; [apply length_map |].
  split; [exact A2 |]. split; [exact B2 |].
  split; [| split; [| split]].
  - intros i m v Hm Hv. split; intros Hb;
      rewrite nth_error_map, Hm; simpl; f_equal;
      eapply clamped_unchanged; eauto.
  - intros i m Hm Hkm. split; rewrite nth_error_map, Hm; simpl; f_equal;
      now apply clamped_not_kept.
  - rewrite (minimum_pool self selector k nm sz _ ops c Hl Hc A1).
    fold bound. now rewrite A3.
  - rewrite (maximum_pool self selector k nm sz _ ops c Hl Hc B1).
    fold bound. now rewrite B3.
Qed.

Lemma clamp_leaves_no_kept_die_beyond_the_bound_witness :
  exists lifted lowered,
    SetOperator.minimum minimum_3 (pool 6 [1; 5])
    = Ok (Dice true 2 6 lifted [] None) /\
    SetOperator.maximum minimum_3 (pool 6 [1; 5])
    = Ok (Dice true 2 6 lowered [] None) /\
    (forall i m, nth_error lifted i = Some m -> kept m = true ->
                 exists v, number m = Ok v /\ Py.ltb v (PInt 3) = false) /\
    (forall i m, nth_error lowered i = Some m -> kept m = true ->
                 exists v, number m = Ok v /\ Py.ltb (PInt 3) v = false).
Proof.
  destruct (clamp_leaves_no_kept_die_beyond_the_bound minimum_3
              (mkSetSelector None 3) true 2 6
              (map (fun z => Die (die_showing 6 z)) [1; 5]) [] None
              eq_refl eq_refl eq_refl eq_refl)
    as (lifted & lowered & H1 & H2 & _ & _ & H5 & H6 & _).
  exists lifted, lowered. split; [exact H1 |]. split; [exact H2 |].
  split; [exact H5 | exact H6].
Defined.

(** ** A selection has no duplicates *)

Lemma NoDup_pset_add s i : NoDup s -> NoDup (pset_add s i).
Proof.
  intros H. unfold pset_add. destruct (mem i s) eqn:E; auto.
  apply NoDup_app; [auto | repeat constructor; auto | ].
  intros j Hj [<- | []]. apply mem_In in Hj. congruence.
Qed.

Lemma NoDup_pset_update xs : forall s, NoDup s -> NoDup (pset_update s xs).
Proof.
  unfold pset_update. induction xs as [| x xs IH]; simpl; intros s H; auto.
  apply IH, NoDup_pset_add, H.
Qed.

Lemma NoDup_select_from selectors target : forall out chosen,
  NoDup out -> SetOperator.select_from out selectors target = Ok chosen ->
  NoDup chosen.
Proof.
  induction selectors as [| s rest IH]; simpl; intros out chosen Hout H.
  - now injection H as <-.
  - apply rbind_Ok in H as (picked & _ & H).
    eapply IH; [| eauto]. now apply NoDup_pset_update.
Qed.

Lemma NoDup_select self target chosen :
  SetOperator.select self target = Ok chosen -> NoDup chosen.
Proof. apply NoDup_select_from. constructor. Qed.

(** ** reroll_once *)

Lemma Die_reroll_once d w d' w' :
  Die.reroll d w = Ok (d', w') ->
  rerolled_once d d' /\ cursor w' = S (cursor w) /\ tape w' = tape w.
Proof.
  unfold Die.reroll, Die._add_roll.
  assert (Hs : Die.size (Die.drop_current d) = Die.size d)
    by (unfold Die.drop_current; now destruct (last_opt (Die.values d))).
  assert (Hk : Die.kept (Die.drop_current d) = Die.kept d)
    by (unfold Die.drop_current; now destruct (last_opt (Die.values d))).
  assert (Hc : Die._context (Die.drop_current d) = Die._context d)
    by (unfold Die.drop_current; now destruct (last_opt (Die.values d))).
  rewrite Hs, Hk, Hc.
  destruct (Die.size d <? 1) eqn:Hsize; [discriminate |].
  apply Z.ltb_ge in Hsize. intros H.
  apply bind_Ok in H as ([] & w1 & Hn & H).
  unfold bind, randrange, ret in H. injection H as <- <-. simpl.
  assert (Hw : cursor w1 = cursor w /\ tape w1 = tape w).
  { destruct (Die._context d); [| now injection Hn as <-].
    unfold notify in Hn. destruct (count_roll (context w)); [| discriminate].
    now injection Hn as <-. }
  destruct Hw as [-> ->]. split; [| auto].
  exists (tape w (cursor w) mod Die.size d + 1). split; [| reflexivity].
  pose proof (Z.mod_pos_bound (tape w (cursor w)) (Die.size d)). lia.
Qed.

Lemma reroll_pass_pool k nm sz ops c : forall chosen vs w t' w',
  NoDup chosen ->
  (forall i, In i chosen -> nth_error vs i <> None) ->
  SetOperator.reroll_pass chosen (Dice k nm sz vs ops c) w = Ok (t', w') ->
  exists vs',
    t' = Dice k nm sz vs' ops c /\
    List.length vs' = List.length vs /\
    (forall i, ~ In i chosen -> nth_error vs' i = nth_error vs i) /\
    (forall i, In i chosen ->
       exists d d', nth_error vs i = Some (Die d) /\
                    nth_error vs' i = Some (Die d') /\ rerolled_once d d') /\
    cursor w' = (cursor w + List.length chosen)%nat /\
    tape w' = tape w.
Proof.
  induction chosen as [| i rest IH]; cbn [SetOperator.reroll_pass];
    intros vs w t' w' Hnd Hin H.
  - injection H as <- <-. exists vs. simpl.
    split; [reflexivity |]. split; [reflexivity |].
    split; [reflexivity |]. split; [contradiction |]. split; [lia | auto].
  - apply bind_Ok in H as (t1 & w1 & Hu & H).
    unfold run_update_member, member_at in Hu. cbn [set] in Hu.
    destruct (nth_error vs i) as [x |] eqn:Hx;
      [| exfalso; apply (Hin i); simpl; auto].
    apply bind_Ok in Hu as (x' & w2 & Hr & Hu).
    unfold ret in Hu. injection Hu as <- <-. cbn [put_member] in H.
    destruct x as [| | | | | | | d]; try discriminate Hr.
    simpl in Hr. apply bind_Ok in Hr as (d' & w3 & Hr & Hr').
    unfold ret in Hr'. injection Hr' as <- <-.
    apply Die_reroll_once in Hr as (Hd & Hcur & Htape).
    inversion Hnd as [| ? ? Hni Hnd']; subst.
    apply IH in H as (vs' & -> & Hlen & Hout & Hsel & Hcur' & Htape'); auto.
    + exists vs'. rewrite length_set_nth in Hlen.
      split; [reflexivity |]. split; [exact Hlen |].
      split; [| split; [| split]].
      * intros j Hj. rewrite Hout by (simpl in Hj; tauto).
        apply nth_error_set_nth_ne. simpl in Hj. intros ->. tauto.
      * intros j [<- | Hj].
        -- exists d, d'. split; [auto |]. split; [| auto].
           rewrite (Hout i Hni). apply nth_error_set_nth_eq.
           apply nth_error_Some. congruence.
        -- destruct (Hsel j Hj) as (e & e' & He & He' & Hee).
           exists e, e'. split; [| auto].
           rewrite nth_error_set_nth_ne in He; auto. intros ->. tauto.
      * rewrite Hcur', Hcur. simpl. lia.
      * congruence.
    + intros j Hj. destruct (Nat.eq_dec j i) as [-> | Hne]; [tauto |].
      rewrite nth_error_set_nth_ne by auto. apply Hin. simpl. auto.
Qed.

(** X14. [reroll_once] rerolls every selected die exactly once: the
    pool keeps its length, an unselected member is untouched, each
    selected member is a die whose current literal is dropped and
    followed by one new literal of [[1, size]], and one random value is
    drawn per selected die.  The new values are not examined again. *)
Theorem reroll_once_rerolls_each_selected_die_once self k nm sz vs ops c
    chosen w target' w' :
  SetOperator.select self (Dice k nm sz vs ops c) = Ok chosen ->
  SetOperator.reroll_once self (Dice k nm sz vs ops c) w = Ok (target', w') ->
  exists vs',
    target' = Dice k nm sz vs' ops c /\
    List.length vs' = List.length vs /\
    (forall i, mem i chosen = false -> nth_error vs' i = nth_error vs i) /\
    (forall i, mem i chosen = true ->
       exists d d', nth_error vs i = Some (Die d) /\
                    nth_error vs' i = Some (Die d') /\ rerolled_once d d') /\
    cursor w' = (cursor w + List.length chosen)%nat /\
    tape w' = tape w.
Proof.
  intros Hs H. unfold SetOperator.reroll_once in H. rewrite Hs in H.
  unfold bind at 1 in H. cbn [lift] in H.
  apply reroll_pass_pool in H as (vs' & -> & Hlen & Hout & Hsel & Hcur & Htape).
  - exists vs'. repeat split; auto.
    + intros i Hi. apply Hout. rewrite <- mem_In. congruence.
    + intros i Hi. apply Hsel. now apply mem_In.
  - eapply NoDup_select; eauto.
  - intros i Hi. destruct (select_picks_kept _ _ _ i Hs Hi) as (x & Hx & _).
    unfold member_at in Hx. cbn [set] in Hx. congruence.
Qed.

Lemma reroll_once_rerolls_each_selected_die_once_witness :
  exists vs',
    Dice true 3 6
         [Die (rerolled_to 6 1 1); Die (die_showing 6 5);
          Die (rerolled_to 6 1 4)] [] None
    = Dice true 3 6 vs' [] None /\
    List.length vs' = 3%nat /\
    (forall i, mem i [0; 2]%nat = false ->
               nth_error vs' i
               = nth_error (map (fun z => Die (die_showing 6 z)) [1; 5; 1]) i)
    /\
    (forall i, mem i [0; 2]%nat = true ->
       exists d d',
         nth_error (map (fun z => Die (die_showing 6 z)) [1; 5; 1]) i
         = Some (Die d) /\
         nth_error vs' i = Some (Die d') /\ rerolled_once d d') /\
    cursor (world_after [0; 3] 2) = 2%nat /\
    tape (world_after [0; 3] 2) = tape (world_of [0; 3]).
Proof.
  exact (reroll_once_rerolls_each_selected_die_once reroll_once_ones true 3 6
           (map (fun z => Die (die_showing 6 z)) [1; 5; 1]) [] None
           [0; 2]%nat (world_of [0; 3]) _ (world_after [0; 3] 2)
           eq_refl eq_refl).
Defined.

(** ** Operators on a node in parentheses or in an expression *)

Lemma set_wrap wr v : set (wrap wr v) = set v.
Proof. now destruct wr. Qed.

Lemma keptset_wrap wr v : keptset (wrap wr v) = keptset v.
Proof. unfold keptset. now rewrite set_wrap. Qed.

Lemma member_at_wrap wr i v : member_at i (wrap wr v) = member_at i v.
Proof. unfold member_at. now rewrite set_wrap. Qed.

Lemma put_member_wrap wr i x v :
  put_member i x (wrap wr v) = wrap wr (put_member i x v).
Proof. now destruct wr. Qed.

Lemma update_member_wrap wr f i v :
  update_member f i (wrap wr v) = wrap wr (update_member f i v).
Proof.
  unfold update_member. rewrite member_at_wrap.
  destruct (member_at i v); [apply put_member_wrap | reflexivity].
Qed.

Lemma selector_select_wrap wr selector v :
  SetSelector.select selector (wrap wr v) = SetSelector.select selector v.
Proof.
  unfold SetSelector.select, SetSelector.selectors.
  destruct (cat selector) as [c |].
  - repeat (match goal with
            | |- context [String.eqb c ?s] => destruct (String.eqb c s)
            end);
      unfold SetSelector.lowestn, SetSelector.highestn, SetSelector.lessthan,
        SetSelector.morethan; now rewrite ?keptset_wrap.
  - unfold SetSelector.literal. now rewrite keptset_wrap.
Qed.

Lemma select_from_wrap wr selectors v : forall out,
  SetOperator.select_from out selectors (wrap wr v)
  = SetOperator.select_from out selectors v.
Proof.
  induction selectors as [| s rest IH]; simpl; intros out; auto.
  rewrite selector_select_wrap.
  destruct (SetSelector.select s v); simpl; auto.
Qed.

Lemma select_wrap wr self v :
  SetOperator.select self (wrap wr v) = SetOperator.select self v.
Proof. apply select_from_wrap. Qed.

Lemma keep_loop_wrap wr self values : forall v,
  SetOperator.keep_loop self values (wrap wr v)
  = let? v' := SetOperator.keep_loop self values v in Ok (wrap wr v').
Proof.
  induction values as [| [i x] rest IH]; simpl; intros v; auto.
  rewrite select_wrap. destruct (SetOperator.select self v); simpl; auto.
  destruct (mem i a); [apply IH |].
  rewrite update_member_wrap. apply IH.
Qed.

Lemma drop_each_wrap wr chosen : forall v,
  fold_left (fun t i => update_member drop i t) chosen (wrap wr v)
  = wrap wr (fold_left (fun t i => update_member drop i t) chosen v).
Proof.
  induction chosen as [| i rest IH]; simpl; intros v; auto.
  rewrite update_member_wrap. apply IH.
Qed.

Lemma clamp_loop_wrap wr exceeds bound dice : forall v,
  SetOperator.clamp_loop exceeds bound dice (wrap wr v)
  = let? v' := SetOperator.clamp_loop exceeds bound dice v in
    Ok (wrap wr v').
Proof.
  induction dice as [| [i x] rest IH]; simpl; intros v; auto.
  rewrite member_at_wrap. destruct (member_at i v) as [die |]; [| apply IH].
  destruct (number die) as [n |]; simpl; auto.
  destruct (exceeds n); [| apply IH].
  destruct (call_force_value bound die); simpl; auto.
  rewrite put_member_wrap. apply IH.
Qed.

Lemma reroll_pass_wrap wr chosen : forall v w,
  SetOperator.reroll_pass chosen (wrap wr v) w
  = match SetOperator.reroll_pass chosen v w with
    | Ok (v', w') => Ok (wrap wr v', w')
    | Err e => Err e
    end.
Proof.
  induction chosen as [| i rest IH]; cbn [SetOperator.reroll_pass];
    intros v w; auto.
  unfold run_update_member. rewrite member_at_wrap.
  destruct (member_at i v) as [x |]; unfold bind, ret.
  - destruct (call_reroll x w) as [[x' w1] |]; auto.
    rewrite put_member_wrap. apply IH.
  - apply IH.
Qed.

Lemma reroll_loop_wrap wr self : forall fuel chosen v w,
  SetOperator.reroll_loop fuel self chosen (wrap wr v) w
  = match SetOperator.reroll_loop fuel self chosen v w with
    | Ok (v', w') => Ok (wrap wr v', w')
    | Err e => Err e
    end.
Proof.
  induction fuel as [| fuel IH]; intros [| i rest] v w; auto.
  cbn [SetOperator.reroll_loop].
  unfold bind. rewrite reroll_pass_wrap.
  destruct (SetOperator.reroll_pass (i :: rest) v w) as [[v1 w1] |]; auto.
  rewrite select_wrap. unfold lift.
  destruct (SetOperator.select self v1) as [again |]; auto.
Qed.

Lemma lift_wrap wr (r r' : result Number) w :
  r' = (let? v' := r in Ok (wrap wr v')) ->
  lift r' w = match lift r w with
              | Ok (v', w') => Ok (wrap wr v', w')
              | Err e => Err e
              end.
Proof. intros ->. unfold lift. now destruct r. Qed.

(** X15. Operators see through [Parenthetical] and [Expression]: the
    selection on the wrapping node is the selection on the node it holds,
    and every operator that adds no dice ([k], [p], [rr], [ro], [mi],
    [ma], and an unknown code) acts on the wrapping node as it acts on
    the node it holds, errors included. *)
Theorem operators_see_through_wrappers fuel self wr value w :
  op self <> "e" -> op self <> "ra" ->
  SetOperator.select self (wrap wr value) = SetOperator.select self value /\
  SetOperator.operate fuel self (wrap wr value) w
  = (do value' <- SetOperator.operate fuel self value;
     ret (wrap wr value'))%M w.
Proof.
  intros He Hra. split; [apply select_wrap |].
  unfold bind at 1. unfold ret.
  unfold SetOperator.operate.
  destruct (String.eqb (op self) "k").
  { apply lift_wrap. unfold SetOperator.keep. rewrite keptset_wrap.
    destruct (keptset value); simpl; auto. apply keep_loop_wrap. }
  destruct (String.eqb (op self) "p").
  { apply lift_wrap. unfold SetOperator.drop. rewrite select_wrap.
    destruct (SetOperator.select self value); simpl; auto.
    now rewrite drop_each_wrap. }
  destruct (String.eqb (op self) "rr").
  { unfold SetOperator.reroll, bind, lift. rewrite select_wrap.
    destruct (SetOperator.select self value); auto.
    apply reroll_loop_wrap. }
  destruct (String.eqb (op self) "ro").
  { unfold SetOperator.reroll_once, bind, lift. rewrite select_wrap.
    destruct (SetOperator.select self value); auto.
    apply reroll_pass_wrap. }
  destruct (String.eqb (op self) "ra") eqn:E;
    [apply String.eqb_eq in E; contradiction |].
  clear E. destruct (String.eqb (op self) "e") eqn:E;
    [apply String.eqb_eq in E; contradiction |].
  destruct (String.eqb (op self) "mi").
  { apply lift_wrap. unfold SetOperator.minimum.
    destruct (last_opt (sels self)) as [selector |]; auto.
    destruct (cat selector); auto. rewrite keptset_wrap.
    destruct (keptset value); simpl; auto. apply clamp_loop_wrap. }
  destruct (String.eqb (op self) "ma").
  { apply lift_wrap. unfold SetOperator.maximum.
    destruct (last_opt (sels self)) as [selector |]; auto.
    destruct (cat selector); auto. rewrite keptset_wrap.
    destruct (keptset value); simpl; auto. apply clamp_loop_wrap. }
  reflexivity.
Qed.

Lemma operators_see_through_wrappers_witness :
  SetOperator.operate 0 keep_highest_2
    (Parenthetical true (pool 6 [1; 2; 3; 4]) []) (world_of [])
  = Ok (Parenthetical true pool_low_two_dropped [], world_of []).
Proof.
  apply (proj2 (operators_see_through_wrappers 0 keep_highest_2
                  (InParentheses true []) (pool 6 [1; 2; 3; 4])
                  (world_of []) ltac:(simpl; discriminate)
                  ltac:(simpl; discriminate))).
Defined.

(** ** Operators for dice on other targets *)

Lemma put_member_not_dice i x t :
  is_dice t = false -> is_dice x = false -> is_dice (put_member i x t) = false.
Proof. destruct t; destruct i; destruct x; auto. Qed.

Lemma call_explode_not_dice x x' : call_explode x = Ok x' -> is_dice x' = false.
Proof. destruct x; simpl; intros [= <-]; reflexivity. Qed.

Lemma explode_pass_not_dice i rest target w :
  is_dice target = false -> member_at i target <> None ->
  SetOperator.explode_pass (i :: rest) target w = Err AttributeError.
Proof.
  intros Ht Hm. cbn [SetOperator.explode_pass].
  unfold try_update_member.
  destruct (member_at i target) as [x |]; [| contradiction].
  unfold bind at 1. destruct (call_explode x) as [x' | e] eqn:Hx.
  - simpl. unfold bind.
    assert (H : is_dice (put_member i x' target) = false)
      by (apply put_member_not_dice; eauto using call_explode_not_dice).
    destruct (put_member i x' target); try reflexivity; discriminate.
  - destruct x; simpl in Hx; try discriminate; now injection Hx as <-.
Qed.

(** X16. [explode] and [explode_once] need a [Dice] target: on any
    other node ([Set], [Parenthetical], [Die], ...) a call that selects
    at least one member raises [AttributeError], since only [Dice] has
    [roll_another]. *)
Theorem explode_needs_a_pool_of_dice fuel self target i rest w :
  is_dice target = false ->
  SetOperator.select self target = Ok (i :: rest) ->
  SetOperator.explode (S fuel) self target w = Err AttributeError /\
  SetOperator.explode_once self target w = Err AttributeError.
Proof.
  intros Ht Hs.
  assert (Hm : member_at i target <> None).
  { destruct (select_picks_kept self target (i :: rest) i Hs) as (x & Hx & _);
      [now left | congruence]. }
  split.
  - unfold SetOperator.explode. unfold bind at 1. rewrite Hs. cbn [lift].
    cbn [SetOperator.explode_loop]. unfold bind at 1.
    now rewrite (explode_pass_not_dice i rest target w Ht Hm).
  - unfold SetOperator.explode_once. unfold bind at 1. rewrite Hs.
    cbn [lift]. apply (explode_pass_not_dice i rest target w Ht Hm).
Qed.

Lemma explode_needs_a_pool_of_dice_witness :
  SetOperator.explode 1 explode_sixes (Set_ true [lit 6] []) (world_of [])
  = Err AttributeError /\
  SetOperator.explode_once explode_sixes (Set_ true [lit 6] []) (world_of [])
  = Err AttributeError.
Proof.
  exact (explode_needs_a_pool_of_dice 0 explode_sixes (Set_ true [lit 6] [])
           0%nat [] (world_of []) eq_refl eq_refl).
Defined.

(** X17. [reroll] and [reroll_once] need dice as members: when something
    is selected and no selected member is a [Die] (the literals of a
    [Set], or the literal of a [Die] used as target), the call raises
    [AttributeError], in whatever order the selection is gone through. *)
Theorem reroll_needs_dice fuel self target chosen w :
  SetOperator.select self target = Ok chosen -> chosen <> [] ->
  (forall i x, In i chosen -> member_at i target = Some x ->
               is_die x = false) ->
  (forall order, Permutation order chosen ->
     SetOperator.reroll_pass order target w = Err AttributeError) /\
  SetOperator.reroll (S fuel) self target w = Err AttributeError /\
  SetOperator.reroll_once self target w = Err AttributeError.
Proof.
  intros Hs Hne Hx.
  assert (Hp : forall order, Permutation order chosen ->
                 SetOperator.reroll_pass order target w = Err AttributeError).
  { intros order Hperm. destruct order as [| i rest].
    - apply Permutation_nil in Hperm. congruence.
    - assert (Hi : In i chosen)
        by (eapply Permutation_in; [exact Hperm | now left]).
      destruct (select_picks_kept self target chosen i Hs Hi) as (x & Hm & _).
      specialize (Hx i x Hi Hm).
      cbn [SetOperator.reroll_pass]. unfold run_update_member. rewrite Hm.
      unfold bind. destruct x; try reflexivity; discriminate. }
  split; [exact Hp |].
  destruct chosen as [| i rest]; [congruence |].
  specialize (Hp (i :: rest) (Permutation_refl _)).
  split.
  - unfold SetOperator.reroll. unfold bind at 1. rewrite Hs. cbn [lift].
    cbn [SetOperator.reroll_loop]. unfold bind at 1. now rewrite Hp.
  - unfold SetOperator.reroll_once. unfold bind at 1. rewrite Hs.
    cbn [lift]. exact Hp.
Qed.

Lemma reroll_needs_dice_witness :
  SetOperator.reroll_pass [1; 0]%nat (Set_ true [lit 1; lit 1] []) (world_of [])
  = Err AttributeError /\
  SetOperator.reroll 1 reroll_ones (Set_ true [lit 1; lit 1] []) (world_of [])
  = Err AttributeError /\
  SetOperator.reroll_once reroll_ones (Set_ true [lit 1; lit 1] [])
    (world_of [])
  = Err AttributeError.
Proof.
  destruct (reroll_needs_dice 0 reroll_ones (Set_ true [lit 1; lit 1] [])
              [0; 1]%nat (world_of []) eq_refl ltac:(discriminate))
    as (Hany & Hrr & Hro).
  - intros i x [<- | [<- | []]] [= <-]; reflexivity.
  - split; [| split; [exact Hrr | exact Hro]].
    apply Hany. apply perm_swap.
Defined.

(** ** Every draw is recorded *)

Lemma recorded_refl vs w : forallb is_die vs = true -> recorded vs w vs w.
Proof. intros H. repeat split; eauto. Qed.

Lemma recorded_trans vs1 w1 vs2 w2 vs3 w3 :
  recorded vs1 w1 vs2 w2 -> recorded vs2 w2 vs3 w3 -> recorded vs1 w1 vs3 w3.
Proof.
  intros (_ & L1 & M1 & C1 & T1) (D2 & L2 & M2 & C2 & T2).
  split; [auto |]. split; [lia |]. split; [| split; [lia | congruence]].
  intros i x Hx. destruct (M1 i x Hx) as (x' & Hx' & Hh).
  destruct (M2 i x' Hx') as (x'' & Hx'' & Hh'). exists x''. split; [auto | lia].
Qed.

Lemma literals_set_nth vs : forall i x x',
  nth_error vs i = Some x ->
  (literals (set_nth i x' vs) + history x = literals vs + history x')%nat.
Proof.
  unfold literals.
  induction vs as [| y vs IH]; intros [| i] x x' H; simpl in *;
    try discriminate.
  - injection H as ->. lia.
  - specialize (IH i x x' H). lia.
Qed.

Lemma forallb_set_nth {A} (p : A -> bool) vs : forall i x,
  forallb p vs = true -> p x = true -> forallb p (set_nth i x vs) = true.
Proof.
  induction vs as [| y vs IH]; intros [| i] x H Hx; simpl in *; auto;
    apply andb_true_iff in H as [H1 H2]; apply andb_true_iff; auto.
Qed.

Lemma forallb_nth_error {A} (p : A -> bool) vs i x :
  forallb p vs = true -> nth_error vs i = Some x -> p x = true.
Proof.
  intros H Hx. rewrite forallb_forall in H. eapply H, nth_error_In, Hx.
Qed.

Lemma recorded_put vs w i x x' w' :
  forallb is_die vs = true -> nth_error vs i = Some x -> is_die x' = true ->
  (history x' + cursor w = history x + cursor w')%nat ->
  (history x <= history x')%nat -> tape w' = tape w ->
  recorded vs w (set_nth i x' vs) w'.
Proof.
  intros Hd Hx Hx' Hh Hle Ht.
  split; [now apply forallb_set_nth |].
  split; [rewrite length_set_nth; lia |].
  split; [| split; [| exact Ht]].
  - intros j y Hy. destruct (Nat.eq_dec j i) as [-> | Hne].
    + exists x'. split; [| congruence].
      apply nth_error_set_nth_eq, nth_error_Some. congruence.
    + exists y. split; [| lia]. now rewrite nth_error_set_nth_ne.
  - pose proof (literals_set_nth vs i x x' Hx). lia.
Qed.

Lemma recorded_append vs w d w' :
  forallb is_die vs = true -> List.length (Die.values d) = 1%nat ->
  cursor w' = S (cursor w) -> tape w' = tape w ->
  recorded vs w (vs ++ [Die d]) w'.
Proof.
  intros Hd Hl Hc Ht.
  split; [rewrite forallb_app, Hd; reflexivity |].
  split; [rewrite length_app; lia |].
  split; [| split; [| exact Ht]].
  - intros i x Hx. exists x. split; [| lia].
    rewrite nth_error_app1; [auto | apply nth_error_Some; congruence].
  - unfold literals. rewrite map_app, list_sum_app. simpl. lia.
Qed.

Lemma history_drop x : is_die x = true ->
  is_die (drop x) = true /\ history (drop x) = history x.
Proof. destruct x; try discriminate. auto. Qed.

Lemma length_set_last {A} (x : A) l :
  List.length (set_last x l) = List.length l.
Proof. apply length_set_nth. Qed.

Lemma history_call_explode x x' : is_die x = true ->
  call_explode x = Ok x' -> is_die x' = true /\ history x' = history x.
Proof.
  destruct x; try discriminate. intros _ [= <-]. split; [auto |].
  simpl. unfold Die.explode. destruct (last_opt (Die.values d)); auto.
  simpl. apply length_set_last.
Qed.

Lemma history_call_force_value b x x' : is_die x = true ->
  call_force_value b x = Ok x' -> is_die x' = true /\ history x' = history x.
Proof.
  destruct x; try discriminate. intros _ [= <-]. split; [auto |].
  simpl. unfold Die.force_value. destruct (last_opt (Die.values d)); auto.
  simpl. apply length_set_last.
Qed.

Lemma Die_add_roll_world d w d' w' :
  Die._add_roll d w = Ok (d', w') ->
  List.length (Die.values d') = S (List.length (Die.values d)) /\
  cursor w' = S (cursor w) /\ tape w' = tape w.
Proof.
  unfold Die._add_roll. destruct (Die.size d <? 1); [discriminate |].
  intros H. apply bind_Ok in H as ([] & w1 & Hn & H).
  unfold bind, randrange, ret in H. injection H as <- <-. simpl.
  assert (Hw : cursor w1 = cursor w /\ tape w1 = tape w).
  { destruct (Die._context d); [| now injection Hn as <-].
    unfold notify in Hn. destruct (count_roll (context w)); [| discriminate].
    now injection Hn as <-. }
  destruct Hw as [-> ->]. rewrite length_app. simpl. split; [lia | auto].
Qed.

Lemma history_call_reroll x w x' w' : is_die x = true ->
  call_reroll x w = Ok (x', w') ->
  is_die x' = true /\ history x' = S (history x) /\
  cursor w' = S (cursor w) /\ tape w' = tape w.
Proof.
  destruct x; try discriminate. intros _ H. simpl in H.
  apply bind_Ok in H as (d' & w1 & Hr & H). injection H as <- <-.
  unfold Die.reroll in Hr. apply Die_add_roll_world in Hr as (Hl & Hc & Ht).
  split; [auto |]. split; [| auto]. simpl. rewrite Hl. f_equal.
  unfold Die.drop_current. destruct (last_opt (Die.values d)); auto.
  simpl. apply length_set_last.
Qed.

Section Pool.

Variables (k : bool) (nm sz : Z) (ops : list SetOperator)
          (c : option context_ref).

Lemma keep_loop_recorded self w values : forall vs t',
  forallb is_die vs = true ->
  SetOperator.keep_loop self values (Dice k nm sz vs ops c) = Ok t' ->
  exists vs', t' = Dice k nm sz vs' ops c /\ recorded vs w vs' w.
Proof.
  induction values as [| [i y] rest IH]; simpl; intros vs t' Hd H.
  - injection H as <-. eauto using recorded_refl.
  - apply rbind_Ok in H as (chosen & _ & H).
    destruct (mem i chosen); [eauto |].
    unfold update_member, member_at in H. cbn [set put_member] in H.
    destruct (nth_error vs i) as [x |] eqn:Hx; [| eauto].
    destruct (history_drop x (forallb_nth_error _ _ _ _ Hd Hx)) as [D Hh].
    assert (R : recorded vs w (set_nth i (drop x) vs) w)
      by (apply (recorded_put vs w i x); auto; lia).
    apply IH in H as (vs' & -> & R'); [| apply R].
    eauto using recorded_trans.
Qed.

Lemma drop_each_recorded w chosen : forall vs,
  forallb is_die vs = true ->
  exists vs',
    fold_left (fun t i => update_member drop i t) chosen
      (Dice k nm sz vs ops c) = Dice k nm sz vs' ops c /\
    recorded vs w vs' w.
Proof.
  induction chosen as [| i rest IH]; simpl; intros vs Hd.
  - eauto using recorded_refl.
  - unfold update_member, member_at. cbn [set put_member].
    destruct (nth_error vs i) as [x |] eqn:Hx; [| eauto].
    destruct (history_drop x (forallb_nth_error _ _ _ _ Hd Hx)) as [D Hh].
    assert (R : recorded vs w (set_nth i (drop x) vs) w)
      by (apply (recorded_put vs w i x); auto; lia).
    destruct (IH (set_nth i (drop x) vs)) as (vs' & E & R'); [apply R |].
    eauto using recorded_trans.
Qed.

Lemma clamp_loop_recorded exceeds bound w dice : forall vs t',
  forallb is_die vs = true ->
  SetOperator.clamp_loop exceeds bound dice (Dice k nm sz vs ops c) = Ok t' ->
  exists vs', t' = Dice k nm sz vs' ops c /\ recorded vs w vs' w.
Proof.
  induction dice as [| [i y] rest IH]; simpl; intros vs t' Hd H.
  - injection H as <-. eauto using recorded_refl.
  - unfold member_at in H. cbn [set] in H.
    destruct (nth_error vs i) as [x |] eqn:Hx; [| eauto].
    apply rbind_Ok in H as (n & _ & H).
    destruct (exceeds n); [| eauto].
    apply rbind_Ok in H as (x' & Hf & H). cbn [put_member] in H.
    destruct (history_call_force_value bound x x'
                (forallb_nth_error _ _ _ _ Hd Hx) Hf) as [D Hh].
    assert (R : recorded vs w (set_nth i x' vs) w)
      by (apply (recorded_put vs w i x); auto; lia).
    apply IH in H as (vs' & -> & R'); [| apply R].
    eauto using recorded_trans.
Qed.

Lemma reroll_pass_recorded chosen : forall vs w t' w',
  forallb is_die vs = true ->
  SetOperator.reroll_pass chosen (Dice k nm sz vs ops c) w = Ok (t', w') ->
  exists vs', t' = Dice k nm sz vs' ops c /\ recorded vs w vs' w'.
Proof.
  induction chosen as [| i rest IH]; cbn [SetOperator.reroll_pass];
    intros vs w t' w' Hd H.
  - injection H as <- <-. eauto using recorded_refl.
  - apply bind_Ok in H as (t1 & w1 & Hu & H).
    unfold run_update_member, member_at in Hu. cbn [set] in Hu.
    destruct (nth_error vs i) as [x |] eqn:Hx.
    + apply bind_Ok in Hu as (x' & w2 & Hr & Hu). injection Hu as <- <-.
      cbn [put_member] in H.
      destruct (history_call_reroll x w x' w2
                  (forallb_nth_error _ _ _ _ Hd Hx) Hr) as (D & Hh & Hc & Ht).
      assert (R : recorded vs w (set_nth i x' vs) w2)
        by (apply (recorded_put vs w i x); auto; lia).
      apply IH in H as (vs' & -> & R'); [| apply R].
      eauto using recorded_trans.
    + injection Hu as <- <-. eauto.
Qed.

Lemma reroll_loop_recorded self : forall fuel chosen vs w t' w',
  forallb is_die vs = true ->
  SetOperator.reroll_loop fuel self chosen (Dice k nm sz vs ops c) w
  = Ok (t', w') ->
  exists vs', t' = Dice k nm sz vs' ops c /\ recorded vs w vs' w'.
Proof.
  induction fuel as [| fuel IH]; intros [| i rest] vs w t' w' Hd H;
    cbn [SetOperator.reroll_loop] in H; try discriminate;
    try (injection H as <- <-; eauto using recorded_refl).
  apply bind_Ok in H as (t1 & w1 & Hp & H).
  apply reroll_pass_recorded in Hp as (vs1 & -> & R); auto.
  apply bind_Ok in H as (again & w2 & Hs & H).
  apply lift_Ok in Hs as [_ ->].
  apply IH in H as (vs' & -> & R'); [| apply R].
  eauto using recorded_trans.
Qed.

Lemma explode_pass_recorded chosen : forall vs w t' w',
  forallb is_die vs = true ->
  SetOperator.explode_pass chosen (Dice k nm sz vs ops c) w = Ok (t', w') ->
  exists vs', t' = Dice k nm sz vs' ops c /\ recorded vs w vs' w'.
Proof.
  induction chosen as [| i rest IH]; cbn [SetOperator.explode_pass];
    intros vs w t' w' Hd H.
  - injection H as <- <-. eauto using recorded_refl.
  - apply bind_Ok in H as (marked & w1 & Hm & H).
    apply lift_Ok in Hm as [Hm ->].
    apply bind_Ok in H as (grown & w2 & Hg & H).
    assert (Hmarked : exists vs1, marked = Dice k nm sz vs1 ops c /\
                                  recorded vs w vs1 w).
    { unfold try_update_member, member_at in Hm. cbn [set] in Hm.
      destruct (nth_error vs i) as [x |] eqn:Hx.
      - apply rbind_Ok in Hm as (x' & Hx' & Hm). injection Hm as <-.
        destruct (history_call_explode x x'
                    (forallb_nth_error _ _ _ _ Hd Hx) Hx') as [D Hh].
        cbn [put_member]. eexists. split; [reflexivity |].
        apply (recorded_put vs w i x); auto; lia.
      - injection Hm as <-. eauto using recorded_refl. }
    destruct Hmarked as (vs1 & -> & R1).
    cbn [Dice.roll_another] in Hg.
    apply bind_Ok in Hg as (d & w3 & Hn & Hg). injection Hg as <- <-.
    destruct (Die_new_fresh _ _ _ _ _ Hn) as ((v & _ & Hv) & Hc & Ht).
    injection Hv as ->.
    assert (R2 : recorded vs1 w
                   (vs1 ++ [Die (Die.mk true sz [Literal.new (PInt v)] c)])
                   w3)
      by (apply recorded_append; auto; apply R1).
    apply IH in H as (vs' & -> & R'); [| apply R2].
    eauto using recorded_trans.
Qed.

Lemma explode_loop_recorded self : forall fuel chosen already vs w t' w',
  forallb is_die vs = true ->
  SetOperator.explode_loop fuel self chosen already (Dice k nm sz vs ops c) w
  = Ok (t', w') ->
  exists vs', t' = Dice k nm sz vs' ops c /\ recorded vs w vs' w'.
Proof.
  induction fuel as [| fuel IH]; intros [| i rest] already vs w t' w' Hd H;
    cbn [SetOperator.explode_loop] in H; try discriminate;
    try (injection H as <- <-; eauto using recorded_refl).
  apply bind_Ok in H as (t1 & w1 & Hp & H).
  apply explode_pass_recorded in Hp as (vs1 & -> & R); auto.
  apply bind_Ok in H as (again & w2 & Hs & H).
  apply lift_Ok in Hs as [_ ->].
  apply IH in H as (vs' & -> & R'); [| apply R].
  eauto using recorded_trans.
Qed.

End Pool.

(** X18. Every draw is recorded: whatever operator is applied to a
    pool that holds dice only, a call that succeeds returns a pool with
    the same fields that still holds dice only; no die is removed and no
    history gets shorter; and the number of literals added to the
    histories equals the number of random values drawn. *)
Theorem every_draw_is_recorded fuel self k nm sz vs ops c w target' w' :
  forallb is_die vs = true ->
  SetOperator.operate fuel self (Dice k nm sz vs ops c) w = Ok (target', w') ->
  exists vs', target' = Dice k nm sz vs' ops c /\ recorded vs w vs' w'.
Proof.
  intros Hd. unfold SetOperator.operate.
  destruct (String.eqb (op self) "k").
  { intros H. apply lift_Ok in H as [H ->]. unfold SetOperator.keep in H.
    apply rbind_Ok in H as (values & _ & H).
    eapply keep_loop_recorded; eauto. }
  destruct (String.eqb (op self) "p").
  { intros H. apply lift_Ok in H as [H ->]. unfold SetOperator.drop in H.
    apply rbind_Ok in H as (chosen & _ & H). injection H as <-.
    now apply drop_each_recorded. }
  destruct (String.eqb (op self) "rr").
  { intros H. apply bind_Ok in H as (chosen & w1 & Hs & H).
    apply lift_Ok in Hs as [_ ->]. eapply reroll_loop_recorded; eauto. }
  destruct (String.eqb (op self) "ro").
  { intros H. apply bind_Ok in H as (chosen & w1 & Hs & H).
    apply lift_Ok in Hs as [_ ->]. eapply reroll_pass_recorded; eauto. }
  destruct (String.eqb (op self) "ra").
  { intros H. apply bind_Ok in H as (chosen & w1 & Hs & H).
    apply lift_Ok in Hs as [_ ->]. eapply explode_pass_recorded; eauto. }
  destruct (String.eqb (op self) "e").
  { intros H. apply bind_Ok in H as (chosen & w1 & Hs & H).
    apply lift_Ok in Hs as [_ ->]. eapply explode_loop_recorded; eauto. }
  destruct (String.eqb (op self) "mi").
  { intros H. apply lift_Ok in H as [H ->]. unfold SetOperator.minimum in H.
    destruct (last_opt (sels self)) as [selector |]; [| discriminate].
    destruct (cat selector); [discriminate |].
    apply rbind_Ok in H as (dice & _ & H).
    eapply clamp_loop_recorded; eauto. }
  destruct (String.eqb (op self) "ma").
  { intros H. apply lift_Ok in H as [H ->]. unfold SetOperator.maximum in H.
    destruct (last_opt (sels self)) as [selector |]; [| discriminate].
    destruct (cat selector); [discriminate |].
    apply rbind_Ok in H as (dice & _ & H).
    eapply clamp_loop_recorded; eauto. }
  discriminate.
Qed.

Lemma every_draw_is_recorded_witness :
  exists vs',
    d6_chain 3 3 = Dice true 1 6 vs' [] None /\
    recorded [Die (die_showing 6 6)] (world_of [5; 11; 2]) vs'
             (world_after [5; 11; 2] 3).
Proof.
  exact (every_draw_is_recorded 3 explode_sixes true 1 6
           [Die (die_showing 6 6)] [] None (world_of [5; 11; 2])
           (d6_chain 3 3) (world_after [5; 11; 2] 3) eq_refl eq_refl).
Defined.

(** ** explode_once *)

Lemma explode_pass_pool k nm sz ops c : forall chosen vs w t' w',
  NoDup chosen ->
  (forall i, In i chosen -> (i < List.length vs)%nat) ->
  SetOperator.explode_pass chosen (Dice k nm sz vs ops c) w = Ok (t', w') ->
  exists vs',
    t' = Dice k nm sz vs' ops c /\
    List.length vs' = (List.length vs + List.length chosen)%nat /\
    (forall i, (i < List.length vs)%nat -> ~ In i chosen ->
               nth_error vs' i = nth_error vs i) /\
    (forall i, In i chosen ->
       exists x x', nth_error vs i = Some x /\ call_explode x = Ok x' /\
                    nth_error vs' i = Some x') /\
    (forall j, (List.length vs <= j < List.length vs')%nat ->
       exists m, nth_error vs' j = Some m /\ fresh_die sz c m) /\
    cursor w' = (cursor w + List.length chosen)%nat.
Proof.
  induction chosen as [| i rest IH]; cbn [SetOperator.explode_pass];
    intros vs w t' w' Hnd Hin H.
  - injection H as <- <-. exists vs. simpl.
    split; [reflexivity |]. split; [lia |]. split; [reflexivity |].
    split; [contradiction |]. split; [intros j Hj; lia | lia].
  - apply bind_Ok in H as (marked & w1 & Hm & H).
    apply lift_Ok in Hm as [Hm ->].
    apply bind_Ok in H as (grown & w2 & Hg & H).
    unfold try_update_member, member_at in Hm. cbn [set] in Hm.
    assert (Hi : (i < List.length vs)%nat) by (apply Hin; now left).
    destruct (nth_error vs i) as [x |] eqn:Hx;
      [| apply nth_error_None in Hx; lia].
    apply rbind_Ok in Hm as (x' & Hx' & Hm). injection Hm as <-.
    cbn [put_member Dice.roll_another] in Hg.
    apply bind_Ok in Hg as (d & w3 & Hn & Hg). injection Hg as <- <-.
    destruct (Die_new_fresh _ _ _ _ _ Hn) as (Hf & Hc & _).
    inversion Hnd as [| ? ? Hni Hnd']; subst.
    assert (Hlen1 : List.length (set_nth i x' vs ++ [Die d])
                    = S (List.length vs))
      by (rewrite length_app, length_set_nth; simpl; lia).
    apply IH in H
      as (vs' & -> & Hlen & Hout & Hsel & Hnew & Hcur); auto.
    + exists vs'. split; [reflexivity |].
      split; [rewrite Hlen, Hlen1; simpl; lia |].
      split; [| split; [| split]].
      * intros j Hj Hnj. rewrite Hout; [| lia | simpl in Hnj; tauto].
        rewrite nth_error_app1 by (rewrite length_set_nth; lia).
        apply nth_error_set_nth_ne. simpl in Hnj. intros ->. tauto.
      * intros j [<- | Hj].
        -- exists x, x'. split; [auto |]. split; [auto |].
           rewrite Hout; [| lia | auto].
           rewrite nth_error_app1 by (rewrite length_set_nth; lia).
           now apply nth_error_set_nth_eq.
        -- destruct (Hsel j Hj) as (y & y' & Hy & Hy' & Hy'').
           exists y, y'. split; [| auto].
           assert (Hjl : (j < List.length vs)%nat) by (apply Hin; now right).
           rewrite nth_error_app1 in Hy by (rewrite length_set_nth; lia).
           rewrite nth_error_set_nth_ne in Hy; auto. intros ->. tauto.
      * intros j Hj.
        destruct (Nat.eq_dec j (List.length vs)) as [-> | Hne].
        -- exists (Die d). split; [| auto].
           rewrite Hout; [| lia |].
           ++ rewrite nth_error_app2 by (rewrite length_set_nth; lia).
              rewrite length_set_nth, Nat.sub_diag. reflexivity.
           ++ intros Hr. specialize (Hin _ (or_intror Hr)). lia.
        -- apply Hnew. lia.
      * rewrite Hcur, Hc. simpl. lia.
    + intros j Hj. rewrite Hlen1. specialize (Hin j (or_intror Hj)). lia.
Qed.

(** X19. [explode_once] on a pool: every selected member is marked
    ([explode] is called on it once), every other member is untouched,
    one freshly rolled die per selected member is appended, and one
    random value is drawn for each.  The appended dice are not examined
    for further explosions. *)
Theorem explode_once_marks_and_adds_one_die_each self k nm sz vs ops c chosen
    w target' w' :
  SetOperator.select self (Dice k nm sz vs ops c) = Ok chosen ->
  SetOperator.explode_once self (Dice k nm sz vs ops c) w
  = Ok (target', w') ->
  exists vs',
    target' = Dice k nm sz vs' ops c /\
    List.length vs' = (List.length vs + List.length chosen)%nat /\
    (forall i x, nth_error vs i = Some x ->
       exists x', nth_error vs' i = Some x' /\
                  if mem i chosen then call_explode x = Ok x' else x' = x) /\
    (forall j, (List.length vs <= j < List.length vs')%nat ->
       exists m, nth_error vs' j = Some m /\ fresh_die sz c m) /\
    cursor w' = (cursor w + List.length chosen)%nat.
Proof.
  intros Hs H. unfold SetOperator.explode_once in H. rewrite Hs in H.
  unfold bind at 1 in H. cbn [lift] in H.
  apply explode_pass_pool in H
    as (vs' & -> & Hlen & Hout & Hsel & Hnew & Hcur).
  - exists vs'. split; [reflexivity |]. split; [exact Hlen |].
    split; [| split; [exact Hnew | exact Hcur]].
    intros i x Hx. destruct (mem i chosen) eqn:E.
    + apply mem_In in E. destruct (Hsel i E) as (y & y' & Hy & Hy' & Hy'').
      exists y'. split; [auto | congruence].
    + exists x. split; [| reflexivity]. rewrite Hout; auto.
      * apply nth_error_Some. congruence.
      * rewrite <- mem_In. congruence.
  - eapply NoDup_select; eauto.
  - intros i Hi. destruct (select_picks_kept _ _ _ i Hs Hi) as (x & Hx & _).
    unfold member_at in Hx. cbn [set] in Hx. apply nth_error_Some. congruence.
Qed.

Lemma explode_once_marks_and_adds_one_die_each_witness :
  exists vs',
    Dice true 2 6 [exploded_six; Die (die_showing 6 2); Die (die_showing 6 6)]
         [] None
    = Dice true 2 6 vs' [] None /\
    List.length vs' = 3%nat /\
    (forall i x,
        nth_error (map (fun z => Die (die_showing 6 z)) [6; 2]) i = Some x ->
        exists x', nth_error vs' i = Some x' /\
                   if mem i [0%nat] then call_explode x = Ok x' else x' = x) /\
    (forall j, (2 <= j < List.length vs')%nat ->
       exists m, nth_error vs' j = Some m /\ fresh_die 6 None m) /\
    cursor (world_after [5] 1) = 1%nat.
Proof.
  exact (explode_once_marks_and_adds_one_die_each explode_once_sixes true 2 6
           (map (fun z => Die (die_showing 6 z)) [6; 2]) [] None [0%nat]
           (world_of [5]) _ (world_after [5] 1) eq_refl eq_refl).
Defined.

(** ** Codes that are in no table *)

(** X20. A code that is in no dispatch table raises [KeyError] before
    anything else is evaluated: an unknown operator of [UnOp] or [BinOp]
    (whatever the operands are, even ones that cannot be read), an
    unknown category of a selector, and an unknown [op] of a
    [SetOperator]. *)
Theorem unknown_codes_raise_KeyError :
  (forall k o value, ~ In o ["-"; "+"] ->
     number (UnOp k o value) = Err KeyError) /\
  (forall k left o right,
     ~ In o ["+"; "-"; "*"; "/"; "//"; "%"; "<"; ">"; "=="; ">="; "<="; "!="] ->
     number (BinOp k left o right) = Err KeyError) /\
  (forall selector c target,
     cat selector = Some c -> ~ In c ["l"; "h"; "<"; ">"] ->
     SetSelector.select selector target = Err KeyError) /\
  (forall fuel self target w,
     ~ In (op self) ["k"; "p"; "rr"; "ro"; "ra"; "e"; "mi"; "ma"] ->
     SetOperator.operate fuel self target w = Err KeyError).
Proof.
  split; [| split; [| split]].
  - intros k o value H. rewrite number_UnOp. unfold unop_number, UNARY_OPS.
    repeat match goal with
           | |- context [String.eqb o ?s] =>
               let E := fresh "E" in
               destruct (String.eqb o s) eqn:E;
               [apply String.eqb_eq in E; subst o; exfalso; apply H; simpl;
                tauto |]
           end.
    reflexivity.
  - intros k left o right H. rewrite number_BinOp.
    unfold binop_number, BINARY_OPS.
    repeat match goal with
           | |- context [String.eqb o ?s] =>
               let E := fresh "E" in
               destruct (String.eqb o s) eqn:E;
               [apply String.eqb_eq in E; subst o; exfalso; apply H; simpl;
                tauto |]
           end.
    reflexivity.
  - intros selector c target Hc H.
    unfold SetSelector.select, SetSelector.selectors. rewrite Hc.
    repeat match goal with
           | |- context [String.eqb c ?s] =>
               let E := fresh "E" in
               destruct (String.eqb c s) eqn:E;
               [apply String.eqb_eq in E; subst c; exfalso; apply H; simpl;
                tauto |]
           end.
    reflexivity.
  - intros fuel self target w H. unfold SetOperator.operate.
    repeat match goal with
           | |- context [String.eqb (op self) ?s] =>
               let E := fresh "E" in
               destruct (String.eqb (op self) s) eqn:E;
               [apply String.eqb_eq in E; exfalso; apply H; rewrite E; simpl;
                tauto |]
           end.
    reflexivity.
Qed.

Lemma unknown_codes_raise_KeyError_witness :
  number (UnOp true "!" (lit 1)) = Err KeyError /\
  number (BinOp true (lit 1) "**" (lit 0)) = Err KeyError /\
  SetSelector.select (mkSetSelector (Some "x") 1) (pool 6 [1]) = Err KeyError /\
  SetOperator.operate 0 (mkSetOperator "kh" []) (pool 6 [1]) (world_of [])
  = Err KeyError.
Proof.
  destruct unknown_codes_raise_KeyError as (H1 & H2 & H3 & H4).
  split; [| split; [| split]].
  - apply H1. simpl. intuition discriminate.
  - apply H2. simpl. intuition discriminate.
  - apply (H3 _ "x"); [reflexivity |]. simpl. intuition discriminate.
  - apply H4. simpl. intuition discriminate.
Defined.

(** ** Operands that were dropped *)






(** ** The node in parentheses *)

Lemma nodes_member c vs : In c vs -> (nodes c <= list_sum (map nodes vs))%nat.
Proof.
  induction vs as [| x vs IH]; simpl; intros H; [contradiction |].
  destruct H as [-> | H]; [lia | specialize (IH H); lia].
Qed.

Lemma nodes_children n : forall c, In c (children n) -> (nodes c < nodes n)%nat.
Proof.
  induction n; simpl; intros c H; try contradiction.
  - destruct H as [-> | []]. lia.
  - destruct H as [-> | []]. lia.
  - destruct H as [-> | [-> | []]]; lia.
  - specialize (IHn c H). lia.
  - apply nodes_member in H. lia.
Qed.

Lemma visits_nodes n m : visits n m -> m = n \/ (nodes m < nodes n)%nat.
Proof.
  induction 1 as [| n c m Hc _ IH]; [now left |].
  right. apply nodes_children in Hc. destruct IH as [-> | IH]; lia.
Qed.

(** X22. [Parenthetical.children] returns the children of the node in
    parentheses, not that node: a traversal by [children] started at a
    [Parenthetical] visits the node itself and what is below the
    children of its value, and never the value; an [Expression] does
    visit its [roll]. *)
Theorem parentheses_hide_their_value_from_traversal k value operations
    comment :
  ~ visits (Parenthetical k value operations) value /\
  (forall m, visits (Parenthetical k value operations) m <->
             m = Parenthetical k value operations \/
             exists c, In c (children value) /\ visits c m) /\
  visits (Expression k value comment) value.
Proof.
  split; [| split].
  - intros H. inversion H as [E | c m Hc Hv].
    + apply (f_equal nodes) in E. simpl in E. lia.
    + simpl in Hc. apply nodes_children in Hc.
      apply visits_nodes in Hv as [-> | Hv]; lia.
  - intros m. split.
    + intros H. inversion H as [| c m' Hc Hv]; subst; [now left |].
      right. exists c. auto.
    + intros [-> | (c & Hc & Hv)]; [apply visits_self |].
      eapply visits_child; eauto.
  - eapply visits_child; [simpl; left; reflexivity | apply visits_self].
Qed.

(** ** The number of a set *)

Lemma sum_kept_filter f vs : forall acc,
  sum_kept f acc vs = sum_kept f acc (filter kept vs).
Proof.
  induction vs as [| x vs IH]; simpl; intros acc; auto.
  destruct (kept x) eqn:E; simpl; [| apply IH].
  rewrite E. destruct (f x); simpl; auto.
Qed.

Lemma sum_kept_dropped f vs : forall acc,
  sum_kept f acc (map drop vs) = Ok acc.
Proof.
  induction vs as [| x vs IH]; simpl; intros acc; auto.
  now rewrite kept_drop.
Qed.

(** X23. The [number] of a [Set] or [Dice] depends on its kept members
    only: it equals the [number] of the set of its kept members, whatever
    the set's own [kept] flag and operations, a [Dice] reads like the
    [Set] of its values, and a set whose members were all dropped has
    number 0. *)
Theorem number_counts_kept_members_only k k' nm sz vs ops ops' c :
  number (Set_ k vs ops) = number (Set_ k' (filter kept vs) ops') /\
  number (Dice k nm sz vs ops c) = number (Set_ k vs ops) /\
  number (Set_ k (map drop vs) ops) = Ok (PInt 0).
Proof.
  rewrite number_Dice, !number_Set.
  split; [apply sum_kept_filter |]. split; [reflexivity |].
  apply sum_kept_dropped.
Qed.
